(** * Willow DLS core: bit strings, buses, the splitter, memories and the
      scheduler's step limit.

    A shallow embedding of the TypeScript sources:
    - [Splitter.ts] (the bidirectional splitter),
    - [Memory.ts] (word storage shared by ROM and RAM),
    - [Extend.ts] (the "make N copies" element),
    together with models of the classes those files call
    ([BitString], [CircuitBus]) and of the elements known only through their
    test suites ([DLatch], [JLSRAM], [Circuit]). *)

From Stdlib Require Import ZArith Lia String Ascii.
From stdpp Require Import base option list.

Local Open Scope Z_scope.

(** ** Errors and fallible computations

    A JavaScript [throw] becomes the [Err] branch of [Result]. *)

Inductive Error : Type :=
| NotBinaryString        (* "Not a hex or binary string" *)
| WidthMismatch          (* BitString operation on differently-sized values *)
| BusWidthError          (* "SplitterElement bus width error" *)
| BitConflict            (* "SplitterElement conflict" *)
| SplitterContention     (* "Splitter contention" *)
| SplitterLengthError    (* "Splitter: ... must be the same length ..." *)
| TypeError              (* property access on [undefined] *)
| MemoryInitError        (* "Memory initialization string must be a multiple of ..." *)
| ExtendWidthError       (* "Extend input must have width 1." *)
| ExtendUnexpectedInput  (* "Unexpected input to Extent" *)
| StepLimitExceeded.     (* "step limit exceeded" *)

Inductive Result (A : Type) : Type :=
| Ok (a : A)
| Err (e : Error).
Arguments Ok {A} a.
Arguments Err {A} e.

Definition bind {A B} (r : Result A) (k : A -> Result B) : Result B :=
  match r with
  | Ok a => k a
  | Err e => Err e
  end.

Notation "'let*' x ':=' r 'in' k" := (bind r (fun x => k))
  (at level 10, x pattern, r at level 100, k at level 200).

Definition isOk {A} (r : Result A) : bool :=
  match r with Ok _ => true | Err _ => false end.

(** ** BitString *)

Module BitString.

(** Modelled from the spec: [BitString.ts] is not among the sources.  A
    bit string is an immutable bit vector of width W >= 0 stored
    big-endian: index 0 is the most significant bit. *)
Definition t := list bool.

Definition getWidth (b : t) : nat := length b.

Definition bitChar (x : bool) : ascii := if x then "1"%char else "0"%char.

(** [toString()] with the default radix 2. *)
Fixpoint toString (b : t) : string :=
  match b with
  | [] => EmptyString
  | x :: r => String (bitChar x) (toString r)
  end.

(** Modelled from the spec: construction from a binary literal; any
    character other than 0 or 1 is rejected.  (Hex literals, which carry a
    0x prefix, are outside this model.) *)
Fixpoint parse (s : string) : Result t :=
  match s with
  | EmptyString => Ok []
  | String c r =>
      if Ascii.eqb c "0" then let* bs := parse r in Ok (false :: bs)
      else if Ascii.eqb c "1" then let* bs := parse r in Ok (true :: bs)
      else Err NotBinaryString
  end.

(** Modelled from the spec: [truncate(n)] keeps the n least significant
    bits (extra bits are dropped from the left); [pad(n)] left-pads with
    zeros up to n bits. *)
Definition truncate (n : nat) (b : t) : t := drop (length b - n)%nat b.
Definition pad (n : nat) (b : t) : t := replicate (n - length b)%nat false ++ b.

(** [new BitString(str, width?)]. *)
Definition new (s : string) (width : option nat) : Result t :=
  let* bs := parse s in
  match width with
  | None => Ok bs
  | Some w => Ok (pad w (truncate w bs))
  end.

Definition low (n : nat) : t := replicate n false.
Definition high (n : nat) : t := replicate n true.

Definition equals (a b : t) : bool := bool_decide (a = b).

(** Bitwise complement, width preserving. *)
Definition not (b : t) : t := map negb b.

(** Unsigned reading, most significant bit first. *)
Definition toUnsigned (b : t) : Z :=
  fold_left (fun acc x => 2 * acc + Z.b2z x) b 0.

(** The [w] low bits of [z], most significant first. *)
Fixpoint ofZ (w : nat) (z : Z) : t :=
  match w with
  | O => []
  | S w' => ofZ w' (z / 2) ++ [Z.odd z]
  end.

(** Modelled from the spec: [make(value, width)] encodes the integer in
    two's complement at the given width. *)
Definition make (value : Z) (width : nat) : t := ofZ width value.

(** Modelled from the spec: [add] wraps at the width; a width mismatch is
    an error. *)
Definition add (a b : t) : Result t :=
  if decide (length a = length b)
  then Ok (ofZ (length a) (toUnsigned a + toUnsigned b))
  else Err WidthMismatch.

(** Modelled from the spec: [twosCompliment()] is [not()] followed by
    [add(1)] at the original width. *)
Definition twosCompliment (b : t) : Result t :=
  add (not b) (make 1 (length b)).

(** Modelled from the spec: [substring(start, end)] uses MSB-first string
    indices; indices outside the string are clamped and swapped the way
    JavaScript's [String.prototype.substring] does. *)
Definition substring (b : t) (start end_ : Z) : t :=
  let n := Z.of_nat (length b) in
  let s := Z.max 0 (Z.min start n) in
  let e := Z.max 0 (Z.min end_ n) in
  take (Z.to_nat (Z.max s e - Z.min s e)) (drop (Z.to_nat (Z.min s e)) b).

End BitString.

(** ** CircuitBus *)

Module CircuitBus.

(** Modelled from the spec: [CircuitBus.ts] is not among the sources.  A
    bus carries a value or null, has a width, and remembers the timestamp
    of its most recent change (-1 when unset).  Connections to sibling
    buses and attached elements play no part in the properties below and
    are left out: every bus of an element is a distinct, unconnected
    wire. *)
Record t : Type := mk {
  value : option BitString.t;
  width : nat;
  lastUpdate : Z
}.

(** [new CircuitBus(width)]. *)
Definition new (w : nat) : t := mk None w (-1).

Definition getValue (b : t) : option BitString.t := value b.
Definition getWidth (b : t) : nat := width b.
Definition getLastUpdate (b : t) : Z := lastUpdate b.

(** Modelled from the spec: [setValue(value, timestamp)] is a no-op when
    the value equals the current one; otherwise it writes the value and
    stamps the bus.  The timestamp is always explicit here: callers that
    omit it in the source pass the bus's default stamp. *)
Definition setValue (v : option BitString.t) (ts : Z) (b : t) : t :=
  if decide (value b = v) then b else mk v (width b) ts.

(** The bus invariant of the data model: a bus never carries a value wider
    than itself.  (The test suites do set narrower values on wider
    buses.) *)
Definition wf (b : t) : Prop :=
  forall v, value b = Some v -> (length v <= width b)%nat.

End CircuitBus.

(** ** Splitter *)

Module Splitter.

Inductive Op : Type := PropOut | PropIn.

(** The element's fields.  [input] is [getInputs()[0]], the wide bus;
    [outputs] is [super.getOutputs().slice(1)], the narrow buses. *)
Record t : Type := mk {
  split : list nat;
  bitMappings : option (list (list nat));
  input : CircuitBus.t;
  outputs : list CircuitBus.t;
  prevInput : option BitString.t;
  prevOutputs : option (list (option BitString.t));
  lastOp : option Op
}.

Definition withInput (b : CircuitBus.t) (s : t) : t :=
  mk (split s) (bitMappings s) b (outputs s) (prevInput s) (prevOutputs s) (lastOp s).
Definition withOutputs (o : list CircuitBus.t) (s : t) : t :=
  mk (split s) (bitMappings s) (input s) o (prevInput s) (prevOutputs s) (lastOp s).
Definition withLastOp (op : Op) (s : t) : t :=
  mk (split s) (bitMappings s) (input s) (outputs s) (prevInput s) (prevOutputs s) (Some op).

(** The constructor and its two length checks. *)
Definition new (split : list nat) (input : CircuitBus.t)
    (outputs : list CircuitBus.t) (bitMappings : option (list (list nat)))
    : Result t :=
  if negb (length split =? length outputs)%nat then Err SplitterLengthError
  else
    match bitMappings with
    | Some bm =>
        if negb (length bm =? length split)%nat then Err SplitterLengthError
        else Ok (mk split bitMappings input outputs None None None)
    | None => Ok (mk split bitMappings input outputs None None None)
    end.

(** [#bitStringsEqual]. *)
Fixpoint bitStringsEqual (a b : list (option BitString.t)) : bool :=
  match a, b with
  | [], [] => true
  | x :: a', y :: b' =>
      match x, y with
      | None, None => bitStringsEqual a' b'
      | Some u, Some v => BitString.equals u v && bitStringsEqual a' b'
      | _, _ => false
      end
  | _, _ => false
  end.

(** [#nullOutputs]. *)
Definition nullOutputs (a : list (option BitString.t)) : bool :=
  existsb (fun x => match x with None => true | Some _ => false end) a.

(** [#earliestOutput]: the running minimum starts at -1. *)
Definition earliestOutput (s : t) : Z :=
  fold_left (fun o x => Z.min o (CircuitBus.getLastUpdate x)) (outputs s) (-1).

(** [#getValues]. *)
Definition getValues (s : t) : option BitString.t * list (option BitString.t) :=
  (CircuitBus.getValue (input s), map CircuitBus.getValue (outputs s)).

(** [outputs.join("")]: a null entry contributes the empty string. *)
Definition join (outs : list (option BitString.t)) : string :=
  foldr (fun o acc =>
           append (match o with
                   | Some v => BitString.toString v
                   | None => EmptyString
                   end) acc)
        EmptyString outs.

(** The inner loop shared by [#areConsistent] and [#propOut] in
    bit-mapping mode: for j from the last index down to 0, append the bit
    of [input] at string index [inputWidth - 1 - bitIndices[j]]. *)
Definition gather (input : BitString.t) (bitIndices : list nat) : string :=
  let inputWidth := Z.of_nat (BitString.getWidth input) in
  foldr (fun bitIndex acc =>
           let stringIndex := inputWidth - 1 - Z.of_nat bitIndex in
           append (BitString.toString
                     (BitString.substring input stringIndex (stringIndex + 1)))
                  acc)
        EmptyString (rev bitIndices).

(** The body of the [for (let s = 0; ...)] loop of [#areConsistent], over
    the remaining values of [s]. *)
Fixpoint areConsistentLoop (n : nat) (bm : list (list nat))
    (input : BitString.t) (outs : list (option BitString.t))
    (ss : list nat) : Result bool :=
  match ss with
  | [] => Ok true
  | s :: ss' =>
      let i := (n - 1 - s)%nat in
      match outs !! i with
      | Some (Some output) =>
          match bm !! i with
          | None => Err TypeError
          | Some bitIndices =>
              if String.eqb (gather input bitIndices) (BitString.toString output)
              then areConsistentLoop n bm input outs ss'
              else Ok false
          end
      | _ => Ok false
      end
  end.

(** [#areConsistent]. *)
Definition areConsistent (s : t) (input : BitString.t)
    (outs : list (option BitString.t)) : Result bool :=
  match bitMappings s with
  | Some bm =>
      let n := length (split s) in
      areConsistentLoop n bm input outs (seq 0 n)
  | None =>
      let* joined := BitString.new (join outs) None in
      Ok (BitString.equals input joined)
  end.

(** [#propOut], contiguous mode: the [for (const s in this.#split)] loop
    over the remaining values of [s], threading [off] and the narrow
    buses. *)
Fixpoint propOutLoop (now : Z) (sp : list nat) (input : BitString.t)
    (ss : list nat) (off : nat) (outs : list CircuitBus.t)
    : Result (list CircuitBus.t) :=
  match ss with
  | [] => Ok outs
  | s :: ss' =>
      let i := (length sp - 1 - s)%nat in
      match sp !! i, outs !! i with
      | Some w, Some output =>
          let value := BitString.substring input (Z.of_nat off) (Z.of_nat (off + w)) in
          propOutLoop now sp input ss' (off + w)%nat
            (<[i := CircuitBus.setValue (Some value) now output]> outs)
      | _, _ => Err TypeError
      end
  end.

(** [#propOut], bit-mapping mode. *)
Fixpoint propOutMappedLoop (now : Z) (n : nat) (bm : list (list nat))
    (input : BitString.t) (ss : list nat) (outs : list CircuitBus.t)
    : Result (list CircuitBus.t) :=
  match ss with
  | [] => Ok outs
  | s :: ss' =>
      let i := (n - 1 - s)%nat in
      match bm !! i, outs !! i with
      | Some bitIndices, Some output =>
          let* bitString := BitString.new (gather input bitIndices) None in
          propOutMappedLoop now n bm input ss'
            (<[i := CircuitBus.setValue (Some bitString) now output]> outs)
      | _, _ => Err TypeError
      end
  end.

(** [#propOut]. *)
Definition propOut (now : Z) (input : BitString.t) (s : t) : Result t :=
  let n := length (split s) in
  let* outs :=
    match bitMappings s with
    | Some bm => propOutMappedLoop now n bm input (seq 0 n) (outputs s)
    | None => propOutLoop now (split s) input (seq 0 n) 0%nat (outputs s)
    end in
  Ok (withLastOp PropOut (withOutputs outs s)).

(** [#propIn], contiguous mode: the loop building [newOut]. *)
Fixpoint propInLoop (sp : list nat) (outs : list CircuitBus.t)
    (ss : list nat) (newOut : string) : Result string :=
  match ss with
  | [] => Ok newOut
  | s :: ss' =>
      let i := (length sp - 1 - s)%nat in
      match sp !! i, outs !! i with
      | Some w, Some output =>
          if negb (CircuitBus.getWidth output =? w)%nat then Err BusWidthError
          else
            let piece :=
              match CircuitBus.getValue output with
              | Some val => BitString.toString val
              | None => BitString.toString (BitString.low (CircuitBus.getWidth output))
              end in
            propInLoop sp outs ss' (append newOut piece)
      | _, _ => Err TypeError
      end
  end.

(** [#propIn], bit-mapping mode: the width of the assembled value is one
    more than the largest mapped bit index. *)
Definition mappedInputWidth (bm : list (list nat)) : nat :=
  let maxBitIndex :=
    fold_left (fun m bitIndices =>
                 fold_left (fun m' bitIndex => Z.max m' (Z.of_nat bitIndex))
                           bitIndices m)
              bm (-1) in
  Z.to_nat (maxBitIndex + 1).

(** The inner [for (let j = 0; ...)] loop: [pairs] lists, for increasing
    j, the bit index [bitIndices[length - 1 - j]] and the bit [valStr[j]]. *)
Fixpoint placeBits (pairs : list (nat * bool)) (inputBits : list (option bool))
    : Result (list (option bool)) :=
  match pairs with
  | [] => Ok inputBits
  | (bitIndex, bitValue) :: rest =>
      match inputBits !! bitIndex with
      | Some None => placeBits rest (<[bitIndex := Some bitValue]> inputBits)
      | Some (Some old) =>
          if negb (Bool.eqb old bitValue) then Err BitConflict
          else placeBits rest (<[bitIndex := Some bitValue]> inputBits)
      | None => Err BitConflict
      end
  end.

Fixpoint propInMappedLoop (n : nat) (bm : list (list nat))
    (outs : list CircuitBus.t) (ss : list nat)
    (inputBits : list (option bool)) : Result (list (option bool)) :=
  match ss with
  | [] => Ok inputBits
  | s :: ss' =>
      let i := (n - 1 - s)%nat in
      match bm !! i, outs !! i with
      | Some bitIndices, Some output =>
          match CircuitBus.getValue output with
          | None => propInMappedLoop n bm outs ss' inputBits
          | Some val =>
              if negb (BitString.getWidth val =? length bitIndices)%nat
              then Err BusWidthError
              else
                let* inputBits' := placeBits (zip (rev bitIndices) val) inputBits in
                propInMappedLoop n bm outs ss' inputBits'
          end
      | _, _ => Err TypeError
      end
  end.

(** [#propIn]. *)
Definition propIn (now : Z) (s : t) : Result t :=
  let n := length (split s) in
  let* newOut :=
    match bitMappings s with
    | Some bm =>
        let* inputBits :=
          propInMappedLoop n bm (outputs s) (seq 0 n)
                           (replicate (mappedInputWidth bm) None) in
        Ok (BitString.toString (rev (map (default false) inputBits)))
    | None => propInLoop (split s) (outputs s) (seq 0 n) EmptyString
    end in
  let* v := BitString.new newOut None in
  Ok (withLastOp PropIn (withInput (CircuitBus.setValue (Some v) now (input s)) s)).

(** [[this.#prevInput, this.#prevOutputs] = this.#getValues()]. *)
Definition remember (s : t) : t :=
  mk (split s) (bitMappings s) (input s) (outputs s)
     (fst (getValues s)) (Some (snd (getValues s))) (lastOp s).

Definition inputChanged (s : t) (input : BitString.t) : bool :=
  match prevInput s with
  | None => true
  | Some p => negb (BitString.equals input p)
  end.

Definition outputsChanged (s : t) (outs : list (option BitString.t)) : bool :=
  match prevOutputs s with
  | None => true
  | Some p => negb (bitStringsEqual p outs)
  end.

(** [resolve()].  [now] is the stamp a bus gives a change whose caller
    passes no timestamp.  The returned propagation delay is not
    modelled. *)
Definition resolve (now : Z) (s : t) : Result t :=
  let '(input, outs) := getValues s in
  match input with
  | None =>
      if negb (nullOutputs outs)
      then let* s' := propIn now s in Ok (remember s')
      else Ok s
  | Some input =>
      if nullOutputs outs
      then let* s' := propOut now input s in Ok (remember s')
      else
        let* consistent := areConsistent s input outs in
        if consistent then Ok (remember s)
        else
          let inputUpdate := CircuitBus.getLastUpdate (Splitter.input s) in
          let outputUpdate := earliestOutput s in
          let* s' :=
            if inputChanged s input && (inputUpdate <? outputUpdate)
            then propOut now input s
            else if outputsChanged s outs && (outputUpdate <? inputUpdate)
            then propIn now s
            else if inputUpdate =? outputUpdate then Err SplitterContention
            else if inputUpdate >? outputUpdate then propOut now input s
            else if outputUpdate >? inputUpdate then propIn now s
            else Ok s in
          Ok (remember s')
  end.

(** [reset()]. *)
Definition reset (s : t) : t :=
  mk (split s) (bitMappings s)
     (CircuitBus.setValue None (-1) (input s))
     (map (CircuitBus.setValue None (-1)) (outputs s))
     None None None.

(** [getOutputs()]. *)
Definition getOutputs (s : t) : list CircuitBus.t :=
  match lastOp s with
  | Some PropIn => [input s]
  | _ => outputs s
  end.

End Splitter.

(** ** Memory *)

Module Memory.

(** [Memory.ts]: the word size and the array of words. *)
Record t : Type := mk {
  wordSize : nat;
  data : list BitString.t
}.

(** [v.truncate(wordSize).pad(wordSize)]. *)
Definition normalize (wordSize : nat) (v : BitString.t) : BitString.t :=
  BitString.pad wordSize (BitString.truncate wordSize v).

(** [this.data[i] = x] for [i <= data.length]: an in-range index
    overwrites, the index [data.length] appends.  (Both callers count [i]
    up from 0, so no holes arise.) *)
Definition arraySet (l : list BitString.t) (i : nat) (x : BitString.t)
    : list BitString.t :=
  if (i <? length l)%nat then <[i := x]> l else l ++ [x].

(** The constructor: [size] zero words, then the initial data written
    over them from index 0. *)
Definition new (size wordSize : nat) (initialData : list BitString.t) : t :=
  mk wordSize
     (fold_left (fun d '(index, value) => arraySet d index (normalize wordSize value))
                (imap (fun index value => (index, value)) initialData)
                (replicate size (BitString.low wordSize))).

(** [read(address, length = 1)]: [data.slice(address, address + length)]. *)
Definition read (address length : nat) (m : t) : list BitString.t :=
  take length (drop address (data m)).

(** [write(address, value)]: [data.splice(address, words.length, ...words)].
    [splice] clamps its start to the array length, so a start at or past
    the end appends. *)
Definition write (address : nat) (value : list BitString.t) (m : t) : t :=
  let words := map (normalize (wordSize m)) value in
  mk (wordSize m)
     (take address (data m) ++ words ++ drop (address + length words) (data m)).

Definition getWordSize (m : t) : nat := wordSize m.

(** [a % b != 0] on non-negative integers; in JavaScript [a % 0] is NaN,
    which differs from 0. *)
Definition remainderNonZero (a b : nat) : bool :=
  if (b =? 0)%nat then true else negb (a mod b =? 0)%nat.

(** The [for (let pos = 0; pos < bits.length; pos += wordSize)] loop of
    [initialize].  [None] means the fuel ran out before the loop
    condition failed. *)
Fixpoint initializeLoop (fuel : nat) (wordSize : nat) (bits : string)
    (pos i : nat) (data : list BitString.t)
    : option (Result (list BitString.t)) :=
  if (pos <? String.length bits)%nat then
    match fuel with
    | O => None
    | S fuel' =>
        let slice := String.substring pos wordSize bits in
        match BitString.new slice None with
        | Err e => Some (Err e)
        | Ok word =>
            initializeLoop fuel' wordSize bits (pos + wordSize)%nat (S i)
                           (arraySet data i word)
        end
    end
  else Some (Ok data).

(** [initialize(value)]. *)
Definition initialize (value : BitString.t) (m : t) : option (Result t) :=
  if remainderNonZero (BitString.getWidth value) (wordSize m)
  then Some (Err MemoryInitError)
  else
    let bits := BitString.toString value in
    match initializeLoop (String.length bits) (wordSize m) bits 0 0 (data m) with
    | None => None
    | Some (Err e) => Some (Err e)
    | Some (Ok d) => Some (Ok (mk (wordSize m) d))
    end.

End Memory.

(** ** Extend *)

Module Extend.

(** [Extend.ts]: one input bus and one output bus. *)
Record t : Type := mk {
  input : CircuitBus.t;
  output : CircuitBus.t
}.

(** The constructor rejects an input bus whose width is not 1. *)
Definition new (input output : CircuitBus.t) : Result t :=
  if negb (CircuitBus.getWidth input =? 1)%nat then Err ExtendWidthError
  else Ok (mk input output).

(** [resolve()]; [now] is the stamp of a bus change made without an
    explicit timestamp. *)
Definition resolve (now : Z) (e : t) : Result t :=
  match CircuitBus.getValue (input e) with
  | Some inputValue =>
      let value := BitString.toUnsigned inputValue in
      if value =? 0 then
        Ok (mk (input e)
               (CircuitBus.setValue
                  (Some (BitString.low (CircuitBus.getWidth (output e))))
                  now (output e)))
      else if value =? 1 then
        Ok (mk (input e)
               (CircuitBus.setValue
                  (Some (BitString.high (CircuitBus.getWidth (output e))))
                  now (output e)))
      else Err ExtendUnexpectedInput
  | None => Ok e
  end.

End Extend.

(** ** DLatch *)

Module DLatch.

(** Modelled from the spec: [DLatch.ts] is not among the sources; only
    its test suite is.  The latch has a clock, a data input and the two
    outputs Q and Q-bar; like every sequential element it records the
    previous clock value on each [resolve()] and invokes [onClockRise] on
    a low-to-high transition. *)
Record t : Type := mk {
  clock : CircuitBus.t;
  d : CircuitBus.t;
  q : CircuitBus.t;
  qInv : CircuitBus.t;
  lastClock : option BitString.t
}.

Definition new (clock d q qInv : CircuitBus.t) : t := mk clock d q qInv None.

(** Modelled from the spec: [initialize(value)] sets Q directly and Q-bar
    to its complement. *)
Definition initialize (now : Z) (value : BitString.t) (l : t) : t :=
  mk (clock l) (d l)
     (CircuitBus.setValue (Some value) now (q l))
     (CircuitBus.setValue (Some (BitString.not value)) now (qInv l))
     (lastClock l).

(** Modelled from the spec: on a rising clock edge the source drives Q to
    the complement of D.  The test suite pins the complementary output to
    the complement of D as well. *)
Definition onClockRise (now : Z) (l : t) : t :=
  match CircuitBus.getValue (d l) with
  | None => l
  | Some dv =>
      mk (clock l) (d l)
         (CircuitBus.setValue (Some (BitString.not dv)) now (q l))
         (CircuitBus.setValue (Some (BitString.not dv)) now (qInv l))
         (lastClock l)
  end.

Definition isRise (previous current : option BitString.t) : bool :=
  bool_decide (previous = Some (BitString.low 1))
  && bool_decide (current = Some (BitString.high 1)).

Definition resolve (now : Z) (l : t) : t :=
  let current := CircuitBus.getValue (clock l) in
  let l' := if isRise (lastClock l) current then onClockRise now l else l in
  mk (clock l') (d l') (q l') (qInv l') current.

(** A transparent latch while the clock is high: Q carries D and the
    complementary output carries not(D). *)
Definition transparent (l : t) : Prop :=
  forall dv, CircuitBus.getValue (d l) = Some dv ->
    CircuitBus.getValue (q l) = Some dv /\
    CircuitBus.getValue (qInv l) = Some (BitString.not dv).

End DLatch.

(** ** JLSRAM *)

Module JLSRAM.

(** Modelled from the spec: [JLSRAM.ts] is not among the sources; only
    its test suite is.  The RAM owns a [Memory] and six buses; [warnings]
    counts the out-of-range warnings logged so far. *)
Record t : Type := mk {
  memory : Memory.t;
  address : CircuitBus.t;
  data : CircuitBus.t;
  output : CircuitBus.t;
  enable : CircuitBus.t;
  chipSelect : CircuitBus.t;
  writeEnable : CircuitBus.t;
  warnings : nat
}.

Definition isLow (b : CircuitBus.t) : bool :=
  bool_decide (CircuitBus.getValue b = Some (BitString.low 1)).

Definition capacity (r : t) : nat := length (Memory.data (memory r)).

(** The address as an index, when the address bus carries a value. *)
Definition index (r : t) : option nat :=
  match CircuitBus.getValue (address r) with
  | Some a => Some (Z.to_nat (BitString.toUnsigned a))
  | None => None
  end.

(** A write is requested when chip-select and write-enable are both
    low. *)
Definition writeRequested (r : t) : bool :=
  isLow (chipSelect r) && isLow (writeEnable r).

(** Modelled from the spec: writes occur when CS is low and WE is low and
    the address is in range; an out-of-range (or missing) address is a
    warning, not a fault.  The word goes through [Memory.write]. *)
Definition resolveWrite (r : t) : Memory.t * nat :=
  if writeRequested r then
    match index r with
    | Some idx =>
        if (idx <? capacity r)%nat then
          match CircuitBus.getValue (data r) with
          | Some word => (Memory.write idx [word] (memory r), warnings r)
          | None => (memory r, warnings r)
          end
        else (memory r, S (warnings r))
    | None => (memory r, S (warnings r))
    end
  else (memory r, warnings r).

(** Modelled from the spec: the output is null unless CS is low and OE is
    low and the address is in range. *)
Definition resolveOutput (m : Memory.t) (r : t) : option BitString.t :=
  if isLow (chipSelect r) && isLow (enable r) then
    match index r with
    | Some idx => Memory.data m !! idx
    | None => None
    end
  else None.

(** [resolve()]: the write, then the output read from the updated
    memory.  It has no failing branch. *)
Definition resolve (now : Z) (r : t) : Result t :=
  let '(m, w) := resolveWrite r in
  Ok (mk m (address r) (data r)
         (CircuitBus.setValue (resolveOutput m r) now (output r))
         (enable r) (chipSelect r) (writeEnable r) w).

End JLSRAM.

(** ** Circuit: the resolve loop *)

Module Circuit.

(** Modelled from the spec: [Circuit.ts] is not among the sources.  The
    scheduler fails once its step counter exceeds this limit. *)
Definition stepLimit : N := 1000000.

Section Scheduler.

(** The buses and element states of a circuit, and the effect of
    resolving one element: the new world and, for every output bus
    that changed, the attached elements to enqueue with their
    delays. *)
Variable World : Type.
Variable resolveElement : nat -> World -> World * list (nat * Z).

(** An event: scheduled time and element. *)
Definition Event : Type := Z * nat.
Definition Queue : Type := list Event.

(** Modelled from the spec: pop the event with the smallest scheduled
    time, ties by insertion order. *)
Fixpoint popMin (q : Queue) : option (Event * Queue) :=
  match q with
  | [] => None
  | ev :: q' =>
      match popMin q' with
      | None => Some (ev, [])
      | Some (m, rest) =>
          if fst m <? fst ev then Some (m, ev :: rest) else Some (ev, q')
      end
  end.

Definition enqueue (time : Z) (q : Queue) (e : nat * Z) : Queue :=
  q ++ [(time + snd e, fst e)].

(** Steps a to c of one iteration: pop, resolve, enqueue. *)
Definition fire (w : World) (q : Queue) : option (World * Queue) :=
  match popMin q with
  | None => None
  | Some ((time, e), q') =>
      let '(w', downstream) := resolveElement e w in
      Some (w', fold_left (enqueue time) downstream q')
  end.

Inductive LoopState : Type :=
| Running (w : World) (q : Queue) (steps : N)
| Finished (r : Result (World * N)).

(** Modelled from the spec: one iteration of "while the queue is
    non-empty": fire one event, increment the step counter, and fail
    with [StepLimitExceeded] if it exceeds the limit. *)
Definition loopStep (limit : N) (st : LoopState) : LoopState :=
  match st with
  | Finished r => Finished r
  | Running w q steps =>
      match fire w q with
      | None => Finished (Ok (w, steps))
      | Some (w', q') =>
          let steps' := (steps + 1)%N in
          if (limit <? steps')%N then Finished (Err StepLimitExceeded)
          else Running w' q' steps'
      end
  end.

(** The loop after [n] iterations, from a seeded world and queue. *)
Definition iterations (limit n : N) (w : World) (q : Queue) : LoopState :=
  N.iter n (loopStep limit) (Running w q 0%N).

(** The resolve loop of [run()] on an unclocked circuit, under the
    fixed step limit.  [None] would mean the loop is still running
    after [stepLimit + 1] iterations. *)
Definition run (w : World) (q : Queue) : option (Result (World * N)) :=
  match iterations stepLimit (stepLimit + 1) w q with
  | Finished r => Some r
  | Running _ _ _ => None
  end.

(** Propagation with no step limit: [n] events fired, stopping early
    when the queue is empty. *)
Definition propagate (n : N) (w : World) (q : Queue) : World * Queue :=
  N.iter n (fun st => match fire (fst st) (snd st) with
                      | Some st' => st'
                      | None => st
                      end) (w, q).

(** Propagation never stabilizes: the queue is never empty. *)
Definition neverStabilizes (w : World) (q : Queue) : Prop :=
  forall n, snd (propagate n w q) <> [].

End Scheduler.

(** The ring oscillator: a NOT gate (element 0, delay 1) whose output bus
    is its own input bus.  The world is the value on that bus. *)
Definition ringResolve (e : nat) (w : bool) : bool * list (nat * Z) :=
  (negb w, [(0%nat, 1)]).

End Circuit.

(** ** The splitter as the specification words it

    Definitions written from the specification's text, to be compared with
    the ones above, which follow [Splitter.ts]. *)

Module SplitterSpec.

(** "iterate i = N-1 down to 0, offset 0 to sum(split); set
    narrow[target i] := wide[offset : offset+split[i]]".  The
    specification's text has [target i = N-1-i]. *)
Fixpoint propOutLoop (target : nat -> nat) (now : Z) (sp : list nat)
    (wide : BitString.t) (idxs : list nat) (offset : nat)
    (narrow : list CircuitBus.t) : list CircuitBus.t :=
  match idxs with
  | [] => narrow
  | i :: idxs' =>
      let w := default 0%nat (sp !! i) in
      let slice := take w (drop offset wide) in
      propOutLoop target now sp wide idxs' (offset + w)%nat
        (alter (CircuitBus.setValue (Some slice) now) (target i) narrow)
  end.

Definition propOut (target : nat -> nat) (now : Z) (sp : list nat)
    (wide : BitString.t) (narrow : list CircuitBus.t) : list CircuitBus.t :=
  propOutLoop target now sp wide (rev (seq 0 (length sp))) 0%nat narrow.



(** The slice order of contiguous mode in closed form: the slice of
    narrow port [i] starts where the slices of all higher-numbered ports
    end, so the leftmost slice belongs to the last port. *)
Definition offsetOf (sp : list nat) (i : nat) : nat := sum_list (drop (S i) sp).

Definition sliceOf (sp : list nat) (wide : BitString.t) (i : nat) : BitString.t :=
  take (default 0%nat (sp !! i)) (drop (offsetOf sp i) wide).

(** The target port of the specification's text: [N-1-i]. *)
Definition mirror (sp : list nat) (i : nat) : nat := (length sp - 1 - i)%nat.

(** The natural left-to-right slice order: for slice widths [widths],
    slice [k] starts where slices 0 to [k - 1] end. *)
Definition naturalSlice (widths : list nat) (wide : BitString.t) (k : nat)
    : BitString.t :=
  take (default 0%nat (widths !! k)) (drop (sum_list (take k widths)) wide).

(** "concatenate narrow values in the reversed order": the text narrow
    port [i] contributes to the wide value, zeros when the port is unset. *)
Definition piece (outs : list CircuitBus.t) (i : nat) : string :=
  match outs !! i with
  | Some output =>
      match CircuitBus.getValue output with
      | Some val => BitString.toString val
      | None => BitString.toString (BitString.low (CircuitBus.getWidth output))
      end
  | None => EmptyString
  end.

End SplitterSpec.

(** ** Concrete elements, taken from the test suites *)

Module Examples.

(** A bit string written as a binary literal. *)
Definition bits (s : string) : BitString.t :=
  match BitString.parse s with
  | Ok v => v
  | Err _ => []
  end.

(** [Splitter.test.ts]: a 4-bit wide bus and two 2-bit narrow buses,
    split [2, 2]; the wide bus carries 1011 and the narrow buses are
    unset. *)
Definition wide1011 : Splitter.t :=
  Splitter.mk [2; 2]%nat None
    (CircuitBus.mk (Some (bits "1011")) 4 0)
    [CircuitBus.new 2; CircuitBus.new 2]
    None None None.

(** The same splitter with the narrow buses carrying 11 and 10 and the
    wide bus unset. *)
Definition narrow11and10 : Splitter.t :=
  Splitter.mk [2; 2]%nat None
    (CircuitBus.new 4)
    [CircuitBus.mk (Some (bits "11")) 2 0; CircuitBus.mk (Some (bits "10")) 2 0]
    None None None.

(** The splitter of the width-mismatch test: split [2, 2] over a 4-bit
    wide bus, but the first narrow bus is 1 bit wide. *)
Definition mismatched : Splitter.t :=
  Splitter.mk [2; 2]%nat None
    (CircuitBus.mk (Some (bits "1011")) 4 0)
    [CircuitBus.new 1; CircuitBus.new 2]
    None None None.


(** [DLatch.test.ts]: D is high, the clock has just been set low. *)
Definition latch : DLatch.t :=
  DLatch.new (CircuitBus.mk (Some (BitString.low 1)) 1 0)
             (CircuitBus.mk (Some (BitString.high 1)) 1 0)
             (CircuitBus.new 1) (CircuitBus.new 1).

(** The clock input of a latch set to [v] at time [ts]. *)
Definition setClock (v : BitString.t) (ts : Z) (l : DLatch.t) : DLatch.t :=
  DLatch.mk (CircuitBus.setValue (Some v) ts (DLatch.clock l))
            (DLatch.d l) (DLatch.q l) (DLatch.qInv l) (DLatch.lastClock l).

(** [Memory.test.ts]: four 2-bit words, all zero. *)
Definition memory4x2 : Memory.t := Memory.new 4 2 [].

(** [JLSRAM.test.ts]: a RAM of two 2-bit words 00 and 01 with a 3-bit
    address bus set to 10; a write of 11 at that address, 2, is requested
    (chip-select and write-enable low). *)
Definition ramWriteAt2 : JLSRAM.t :=
  JLSRAM.mk (Memory.new 2 2 [bits "00"; bits "01"])
    (CircuitBus.mk (Some (bits "10")) 3 0)
    (CircuitBus.mk (Some (bits "11")) 2 0)
    (CircuitBus.new 2)
    (CircuitBus.new 1)
    (CircuitBus.mk (Some (BitString.low 1)) 1 0)
    (CircuitBus.mk (Some (BitString.low 1)) 1 0)
    0.

(** [Extend.test.ts]: a 1-bit input carrying 1 and a 6-bit output. *)
Definition extendInput : CircuitBus.t := CircuitBus.mk (Some (bits "1")) 1 0.
Definition extendOutput : CircuitBus.t := CircuitBus.new 6.

End Examples.

(** ** The splitter between resolves *)

(** Other elements set the splitter's buses between two resolves; the
    splitter's own fields stay as they are. *)
Definition withBuses (input : CircuitBus.t) (outputs : list CircuitBus.t)
    (s : Splitter.t) : Splitter.t :=
  Splitter.mk (Splitter.split s) (Splitter.bitMappings s) input outputs
              (Splitter.prevInput s) (Splitter.prevOutputs s) (Splitter.lastOp s).

(** The value [#propIn] assembles from the narrow buses as they are, or
    nothing when it throws.  The two sides of a splitter carry the same
    data when this is the wide value. *)
Definition merged (s : Splitter.t) : option BitString.t :=
  match Splitter.propIn 0 s with
  | Ok s' => CircuitBus.getValue (Splitter.input s')
  | Err _ => None
  end.

(** Whether [resolve()] reaches one of its assignments
    [[this.#prevInput, this.#prevOutputs] = this.#getValues()]: every path
    does, except the one that finds the wide bus and some narrow bus
    unset. *)
Definition records (s : Splitter.t) : bool :=
  match CircuitBus.getValue (Splitter.input s) with
  | None => negb (Splitter.nullOutputs (map CircuitBus.getValue (Splitter.outputs s)))
  | Some _ => true
  end.

(** The values a resolve recorded: the wide value and the narrow
    values. *)
Definition Recording : Type := option BitString.t * list (option BitString.t).

(** [recorded s r]: the splitter [s] has been reached from its constructor
    by resolves that returned, resets and bus changes made by other
    elements, and [r] holds the values that were on its buses at the end of
    the last resolve that recorded them; [r] is [None] when no resolve has
    recorded any since the constructor or the last reset. *)
Inductive recorded : Splitter.t -> option Recording -> Prop :=
| recorded_new split input outputs bitMappings s :
    Splitter.new split input outputs bitMappings = Ok s ->
    recorded s None
| recorded_reset s r :
    recorded s r ->
    recorded (Splitter.reset s) None
| recorded_buses s r input outputs :
    recorded s r ->
    recorded (withBuses input outputs s) r
| recorded_resolve now s s' r :
    recorded s r ->
    Splitter.resolve now s = Ok s' ->
    recorded s' (if records s then Some (Splitter.getValues s') else r).


(** The narrow values differ from the recorded ones, or none are
    recorded. *)
Definition narrowChanged (r : option Recording) (narrow : list (option BitString.t))
    : bool :=
  match r with
  | None => true
  | Some (_, recordedNarrow) => negb (bool_decide (recordedNarrow = narrow))
  end.




(** The same values, all set at time 3. *)
Definition equalStamps : Splitter.t :=
  Splitter.mk [2; 2]%nat None
    (CircuitBus.mk (Some (Examples.bits "0000")) 4 3)
    [CircuitBus.mk (Some (Examples.bits "11")) 2 3;
     CircuitBus.mk (Some (Examples.bits "10")) 2 3]
    None None None.


(** ** Invariants of the elements above *)

(** Every stored word of a memory is exactly [wordSize] bits wide. *)
Definition wordsHaveWordSize (m : Memory.t) : Prop :=
  Forall (fun word => BitString.getWidth word = Memory.wordSize m) (Memory.data m).

(** Narrow port [i] has a bus whose width differs from its split width. *)
Definition widthMismatch (sp : list nat) (outs : list CircuitBus.t) (i : nat) : Prop :=
  exists b w, outs !! i = Some b /\ sp !! i = Some w /\ CircuitBus.getWidth b <> w.

(** Bit-mapping mode reads bits by their logical position: bit [b] of a
    wide value is the bit at string index [width - 1 - b]. *)
Definition lsbBit (wide : BitString.t) (b : nat) : bool :=
  default false (wide !! (length wide - 1 - b)%nat).

(** The bits [Splitter.gather] collects, before they are turned into
    text. *)
Definition gatherBits (input : BitString.t) (bitIndices : list nat) : BitString.t :=
  let inputWidth := Z.of_nat (BitString.getWidth input) in
  foldr (fun bitIndex acc =>
           let stringIndex := inputWidth - 1 - Z.of_nat bitIndex in
           BitString.substring input stringIndex (stringIndex + 1) ++ acc)
        [] (rev bitIndices).

(** The invariant of the [inputBits] array of [#propIn] in bit-mapping
    mode while every narrow value comes from one wide value: a bit that has
    been placed is the bit the wide value has at that position. *)
Definition bitsAgree (bit : nat -> bool) (inputBits : list (option bool)) : Prop :=
  forall j x, inputBits !! j = Some (Some x) -> x = bit j.

(** The mappings of a splitter are usable on a wide value when every port
    maps at least one bit and every mapped bit index lies inside the value. *)
Definition mappingsWithin (bm : list (list nat)) (wide : BitString.t) : Prop :=
  Forall (fun bitIndices =>
            bitIndices <> [] /\
            Forall (fun b => (b < BitString.getWidth wide)%nat) bitIndices) bm.

(** A splitter in bit-mapping mode: port 0 takes bits 0 and 2 of a 4-bit
    wide bus, port 1 takes bits 1 and 3. *)
Definition interleaved : Splitter.t :=
  Splitter.mk [2; 2]%nat (Some [[0; 2]; [1; 3]]%nat)
    (CircuitBus.mk (Some (Examples.bits "1011")) 4 0)
    [CircuitBus.new 2; CircuitBus.new 2]
    None None None.

(** ** Bus slices and merges *)

(** The elements below read and write single bits and bit ranges of a
    bus.  Their indices are JavaScript numbers that the constructors store
    unchecked; they are integers here.  Each source file keeps two revisions
    of [resolve()]: one takes its indices as string positions (0 is the
    leftmost, most significant bit), the other as Nand2Tetris bit numbers (0
    is the least significant bit).  The returned propagation delay is not
    modelled. *)

Module RangeSliceElement.

Record t : Type := mk {
  base : CircuitBus.t;
  out : CircuitBus.t;
  lo : Z;
  hi : Z
}.

Definition withOut (o : CircuitBus.t) (e : t) : t := mk (base e) o (lo e) (hi e).

(** [resolve()], Nand2Tetris bit numbers. *)
Definition resolve (e : t) : t :=
  let lastUpdate := CircuitBus.getLastUpdate (base e) in
  match CircuitBus.getValue (base e) with
  | None => withOut (CircuitBus.setValue None lastUpdate (out e)) e
  | Some baseVal =>
      let width := Z.of_nat (BitString.getWidth baseVal) in
      let loN := Z.min (lo e) (hi e) in
      let hiN := Z.max (lo e) (hi e) in
      let start := width - 1 - hiN in
      let endExclusive := width - loN in
      if (start <? 0) || (endExclusive >? width) || (start >=? endExclusive)
      then withOut (CircuitBus.setValue None lastUpdate (out e)) e
      else
        let sliceVal := BitString.substring baseVal start endExclusive in
        withOut (CircuitBus.setValue (Some sliceVal) lastUpdate (out e)) e
  end.

(** [resolve()], string positions. *)
Definition resolveDirect (e : t) : t :=
  let lastUpdate := CircuitBus.getLastUpdate (base e) in
  match CircuitBus.getValue (base e) with
  | None => withOut (CircuitBus.setValue None lastUpdate (out e)) e
  | Some baseVal =>
      let start := Z.min (lo e) (hi e) in
      let end_ := Z.max (lo e) (hi e) in
      let sliceVal := BitString.substring baseVal start (end_ + 1) in
      withOut (CircuitBus.setValue (Some sliceVal) lastUpdate (out e)) e
  end.

End RangeSliceElement.

Module BitSliceElement.

Record t : Type := mk {
  base : CircuitBus.t;
  out : CircuitBus.t;
  bitIndex : Z
}.

Definition withOut (o : CircuitBus.t) (e : t) : t := mk (base e) o (bitIndex e).

(** [resolve()], Nand2Tetris bit numbers. *)
Definition resolve (e : t) : t :=
  let lastUpdate := CircuitBus.getLastUpdate (base e) in
  match CircuitBus.getValue (base e) with
  | None => withOut (CircuitBus.setValue None lastUpdate (out e)) e
  | Some baseVal =>
      let width := Z.of_nat (BitString.getWidth baseVal) in
      let idxFromLeft := width - 1 - bitIndex e in
      if (idxFromLeft <? 0) || (idxFromLeft >=? width)
      then withOut (CircuitBus.setValue None lastUpdate (out e)) e
      else
        let outVal := BitString.substring baseVal idxFromLeft (idxFromLeft + 1) in
        withOut (CircuitBus.setValue (Some outVal) lastUpdate (out e)) e
  end.

(** [resolve()], string positions. *)
Definition resolveDirect (e : t) : t :=
  let lastUpdate := CircuitBus.getLastUpdate (base e) in
  match CircuitBus.getValue (base e) with
  | None => withOut (CircuitBus.setValue None lastUpdate (out e)) e
  | Some baseVal =>
      let outVal := BitString.substring baseVal (bitIndex e) (bitIndex e + 1) in
      withOut (CircuitBus.setValue (Some outVal) lastUpdate (out e)) e
  end.

End BitSliceElement.

(** The errors the merge elements throw. *)
Inductive MergeError : Type :=
  | SourceNotOneBit
  | BitIndexOutOfRange
  | InvalidRange
  | SourceWidthMismatch.

Inductive MergeResult (A : Type) : Type :=
  | Merged (a : A)
  | MergeFailed (e : MergeError).

Arguments Merged {A} a.
Arguments MergeFailed {A} e.

(** The text the merge elements start from: the base bus's value, or zeros
    of the bus width when it is unset, brought to the bus width with
    [new BitString(baseStr, baseWidth)] when its length differs.  The text
    is always the binary form of a bit string and is kept as one. *)
Definition mergeBaseStr (base : CircuitBus.t) : BitString.t :=
  let baseWidth := CircuitBus.getWidth base in
  let baseStr :=
    match CircuitBus.getValue base with
    | Some existing => existing
    | None => BitString.low baseWidth
    end in
  if negb (BitString.getWidth baseStr =? baseWidth)%nat
  then BitString.pad baseWidth (BitString.truncate baseWidth baseStr)
  else baseStr.

(** [new BitString(before + sourceStr + after, baseWidth)]. *)
Definition mergedValue (baseWidth : nat) (before sourceVal after : BitString.t)
    : BitString.t :=
  BitString.pad baseWidth (BitString.truncate baseWidth (before ++ sourceVal ++ after)).

Module RangeMergeElement.

Record t : Type := mk {
  source : CircuitBus.t;
  base : CircuitBus.t;
  lo : Z;
  hi : Z
}.

Definition withBase (b : CircuitBus.t) (e : t) : t := mk (source e) b (lo e) (hi e).

(** [resolve()], Nand2Tetris bit numbers. *)
Definition resolve (e : t) : MergeResult t :=
  let lastUpdate := CircuitBus.getLastUpdate (source e) in
  match CircuitBus.getValue (source e) with
  | None => Merged (withBase (CircuitBus.setValue None lastUpdate (base e)) e)
  | Some sourceVal =>
      let baseWidth := Z.of_nat (CircuitBus.getWidth (base e)) in
      let baseStr := mergeBaseStr (base e) in
      let loN := Z.min (lo e) (hi e) in
      let hiN := Z.max (lo e) (hi e) in
      let start := baseWidth - 1 - hiN in
      let endExclusive := baseWidth - loN in
      if (start <? 0) || (endExclusive >? baseWidth) || (start >=? endExclusive)
      then MergeFailed InvalidRange
      else if negb (Z.of_nat (BitString.getWidth sourceVal) =? endExclusive - start)
      then MergeFailed SourceWidthMismatch
      else
        let before := BitString.substring baseStr 0 start in
        let after :=
          BitString.substring baseStr endExclusive
                              (Z.of_nat (BitString.getWidth baseStr)) in
        let merged :=
          mergedValue (CircuitBus.getWidth (base e)) before sourceVal after in
        Merged (withBase (CircuitBus.setValue (Some merged) lastUpdate (base e)) e)
  end.

(** [resolve()], string positions. *)
Definition resolveDirect (e : t) : MergeResult t :=
  let lastUpdate := CircuitBus.getLastUpdate (source e) in
  match CircuitBus.getValue (source e) with
  | None => Merged (withBase (CircuitBus.setValue None lastUpdate (base e)) e)
  | Some sourceVal =>
      let baseWidth := Z.of_nat (CircuitBus.getWidth (base e)) in
      let lo' := Z.min (lo e) (hi e) in
      let hi' := Z.max (lo e) (hi e) in
      if (lo' <? 0) || (hi' >=? baseWidth) then MergeFailed InvalidRange
      else
        let sliceWidth := hi' - lo' + 1 in
        if negb (Z.of_nat (BitString.getWidth sourceVal) =? sliceWidth)
        then MergeFailed SourceWidthMismatch
        else
          let baseStr := mergeBaseStr (base e) in
          let before := BitString.substring baseStr 0 lo' in
          let after :=
            BitString.substring baseStr (hi' + 1)
                                (Z.of_nat (BitString.getWidth baseStr)) in
          let merged :=
            mergedValue (CircuitBus.getWidth (base e)) before sourceVal after in
          Merged (withBase (CircuitBus.setValue (Some merged) lastUpdate (base e)) e)
  end.

End RangeMergeElement.

Module BitMergeElement.

Record t : Type := mk {
  source : CircuitBus.t;
  base : CircuitBus.t;
  bitIndex : Z
}.

Definition withBase (b : CircuitBus.t) (e : t) : t := mk (source e) b (bitIndex e).

(** [resolve()], Nand2Tetris bit numbers. *)
Definition resolve (e : t) : MergeResult t :=
  let lastUpdate := CircuitBus.getLastUpdate (source e) in
  match CircuitBus.getValue (source e) with
  | None => Merged (withBase (CircuitBus.setValue None lastUpdate (base e)) e)
  | Some sourceVal =>
      let baseWidth := Z.of_nat (CircuitBus.getWidth (base e)) in
      if negb (BitString.getWidth sourceVal =? 1)%nat then MergeFailed SourceNotOneBit
      else
        let baseStr := mergeBaseStr (base e) in
        let idxFromLeft := baseWidth - 1 - bitIndex e in
        if (idxFromLeft <? 0) || (idxFromLeft >=? baseWidth)
        then MergeFailed BitIndexOutOfRange
        else
          let before := BitString.substring baseStr 0 idxFromLeft in
          let after :=
            BitString.substring baseStr (idxFromLeft + 1)
                                (Z.of_nat (BitString.getWidth baseStr)) in
          let merged :=
            mergedValue (CircuitBus.getWidth (base e)) before sourceVal after in
          Merged (withBase (CircuitBus.setValue (Some merged) lastUpdate (base e)) e)
  end.

(** [resolve()], string positions. *)
Definition resolveDirect (e : t) : MergeResult t :=
  let lastUpdate := CircuitBus.getLastUpdate (source e) in
  match CircuitBus.getValue (source e) with
  | None => Merged (withBase (CircuitBus.setValue None lastUpdate (base e)) e)
  | Some sourceVal =>
      let baseWidth := Z.of_nat (CircuitBus.getWidth (base e)) in
      if negb (BitString.getWidth sourceVal =? 1)%nat then MergeFailed SourceNotOneBit
      else
        let baseStr := mergeBaseStr (base e) in
        if (bitIndex e <? 0) || (bitIndex e >=? baseWidth)
        then MergeFailed BitIndexOutOfRange
        else
          let before := BitString.substring baseStr 0 (bitIndex e) in
          let after :=
            BitString.substring baseStr (bitIndex e + 1)
                                (Z.of_nat (BitString.getWidth baseStr)) in
          let merged :=
            mergedValue (CircuitBus.getWidth (base e)) before sourceVal after in
          Merged (withBase (CircuitBus.setValue (Some merged) lastUpdate (base e)) e)
  end.

End BitMergeElement.

(** Bit [k] of a bit string counted from its least significant end, or
    nothing outside the string. *)
Definition bitAt (v : BitString.t) (k : Z) : option bool :=
  if (0 <=? k) && (k <? Z.of_nat (BitString.getWidth v))
  then (v : list bool) !! (BitString.getWidth v - 1 - Z.to_nat k)%nat
  else None.

(** Slice and merge examples: a 5-bit base 10110, a 2-bit source 01. *)
Definition base10110 : CircuitBus.t := CircuitBus.mk (Some (Examples.bits "10110")) 5 3.
Definition source01 : CircuitBus.t := CircuitBus.mk (Some (Examples.bits "01")) 2 4.

(** The base bus a merge leaves behind, or nothing when it threw. *)
Definition rangeMergeBase (r : MergeResult RangeMergeElement.t) : option CircuitBus.t :=
  match r with
  | Merged e => Some (RangeMergeElement.base e)
  | MergeFailed _ => None
  end.

Definition bitMergeBase (r : MergeResult BitMergeElement.t) : option CircuitBus.t :=
  match r with
  | Merged e => Some (BitMergeElement.base e)
  | MergeFailed _ => None
  end.

(** The error a merge threw, if any. *)
Definition mergeError {A} (r : MergeResult A) : option MergeError :=
  match r with
  | Merged _ => None
  | MergeFailed err => Some err
  end.

(** ** JLSDecoder *)

Module JLSDecoder.

(** [JLSDecoder.ts]: one input bus and the array of output buses. *)
Record t : Type := mk {
  input : CircuitBus.t;
  output : list CircuitBus.t
}.

Inductive DecodeError : Type :=
  | NoOutputBus
  | NegativeWithoutWidth.

Inductive DecodeResult : Type :=
  | Decoded (e : t)
  | DecodeFailed (err : DecodeError).

(** Modelled from the spec: [BitString.make(value)] without a width gives
    the shortest binary numeral of a value that is not negative (a single 0
    for 0) and throws on a negative one, as [BitString.test.ts] checks. *)
Definition makeShortest (value : Z) : option BitString.t :=
  if value <? 0 then None
  else Some (BitString.make value (Z.to_nat (Z.log2 value + 1))).

(** [1 << n]: JavaScript shifts the 32-bit integer 1 by the count modulo 32
    and reads the result as a signed 32-bit integer. *)
Definition shiftLeftOne (n : Z) : Z :=
  let r := Z.shiftl 1 (n mod 32) in
  if r >=? 2 ^ 31 then r - 2 ^ 32 else r.

(** [resolve()]; [now] is the stamp of a bus change made without an
    explicit timestamp, and [BitString.low()] is the 1-bit zero.  The
    unsigned value of the input is exact for inputs of at most 53 bits.  The
    returned propagation delay is not modelled. *)
Definition resolve (now : Z) (e : t) : DecodeResult :=
  match CircuitBus.getValue (input e) with
  | None =>
      Decoded (mk (input e)
                  (map (CircuitBus.setValue (Some (BitString.low 1)) now) (output e)))
  | Some inputValue =>
      let inputWidth := CircuitBus.getWidth (input e) in
      let inputNum := BitString.toUnsigned inputValue in
      match output e with
      | [] => DecodeFailed NoOutputBus
      | output0 :: rest =>
          match makeShortest (shiftLeftOne inputNum) with
          | None => DecodeFailed NegativeWithoutWidth
          | Some oneHot =>
              Decoded (mk (input e)
                          (CircuitBus.setValue (Some oneHot) (Z.of_nat inputWidth) output0
                           :: rest))
          end
      end
  end.

End JLSDecoder.

(** A 2-bit decoder input reading 2. *)
Definition decoderInput : CircuitBus.t := CircuitBus.mk (Some (Examples.bits "10")) 2 0.

(** * Properties *)

(** ** BitString: strings and bits *)

Section BitStringFacts.

Import BitString.

Lemma parse_toString (b : t) : parse (toString b) = Ok b.
Proof.
  induction b as [|x b IH]; simpl; [reflexivity|].
  destruct x; simpl; rewrite IH; reflexivity.
Qed.

Lemma new_toString (b : t) : new (toString b) None = Ok b.
Proof. unfold new. rewrite parse_toString. reflexivity. Qed.

Lemma toString_app (a b : t) :
  toString (a ++ b) = append (toString a) (toString b).
Proof. induction a as [|x a IH]; simpl; [reflexivity|]. now rewrite IH. Qed.

Lemma toString_length (b : t) : String.length (toString b) = length b.
Proof. induction b as [|x b IH]; simpl; [reflexivity|]. now rewrite IH. Qed.

Lemma toString_inj (a b : t) : toString a = toString b -> a = b.
Proof.
  intros H. apply (f_equal parse) in H.
  rewrite !parse_toString in H. now inversion H.
Qed.

Lemma substring_toString (p n : nat) (b : t) :
  String.substring p n (toString b) = toString (take n (drop p b)).
Proof.
  revert p n. induction b as [|x b IH]; intros p n.
  - destruct p, n; reflexivity.
  - destruct p as [|p]; simpl.
    + destruct n as [|n]; simpl; [reflexivity|].
      f_equal. specialize (IH 0%nat n). now rewrite drop_0 in IH.
    + apply IH.
Qed.

(** On natural, ordered indices the clamping of [substring] is that of
    [take] and [drop]. *)
Lemma substring_take_drop (b : t) (a w : nat) :
  substring b (Z.of_nat a) (Z.of_nat (a + w)) = take w (drop a b).
Proof.
  unfold substring.
  destruct (decide (length b <= a)%nat) as [Hge|Hlt].
  - rewrite (drop_ge b a) by lia. rewrite take_nil.
    replace (Z.max _ _ - Z.min _ _) with 0 by lia. reflexivity.
  - replace (Z.to_nat (Z.min _ _)) with a by lia.
    destruct (decide (a + w <= length b)%nat).
    + f_equal. lia.
    + rewrite !take_ge; [reflexivity| |]; rewrite length_drop; lia.
Qed.

Lemma not_length (b : t) : length (not b) = length b.
Proof. apply length_map. Qed.

Lemma ofZ_length (w : nat) (z : Z) : length (ofZ w z) = w.
Proof.
  revert z. induction w as [|w IH]; intros z; simpl; [reflexivity|].
  rewrite length_app, IH. simpl. lia.
Qed.

Lemma toUnsigned_snoc (b : t) (x : bool) :
  toUnsigned (b ++ [x]) = 2 * toUnsigned b + Z.b2z x.
Proof. unfold toUnsigned. now rewrite fold_left_app. Qed.

Lemma toUnsigned_range (b : t) : 0 <= toUnsigned b < 2 ^ Z.of_nat (length b).
Proof.
  induction b as [|x b IH] using rev_ind.
  - simpl. unfold toUnsigned. simpl. lia.
  - rewrite toUnsigned_snoc, length_app. simpl length.
    replace (Z.of_nat (length b + 1)) with (Z.succ (Z.of_nat (length b))) by lia.
    rewrite Z.pow_succ_r by lia. destruct x; simpl Z.b2z; lia.
Qed.

Lemma toUnsigned_ofZ (w : nat) (z : Z) :
  toUnsigned (ofZ w z) = z mod 2 ^ Z.of_nat w.
Proof.
  revert z. induction w as [|w IH]; intros z.
  - simpl. now rewrite Z.mod_1_r.
  - simpl ofZ. rewrite toUnsigned_snoc, IH.
    replace (Z.of_nat (S w)) with (Z.succ (Z.of_nat w)) by lia.
    rewrite Z.pow_succ_r by lia.
    rewrite Z.rem_mul_r by lia.
    rewrite <- Z.bit0_odd, Z.bit0_mod. lia.
Qed.

Lemma ofZ_toUnsigned (b : t) : ofZ (length b) (toUnsigned b) = b.
Proof.
  induction b as [|x b IH] using rev_ind; [reflexivity|].
  rewrite toUnsigned_snoc, length_app. simpl length.
  rewrite Nat.add_1_r. simpl ofZ.
  replace ((2 * toUnsigned b + Z.b2z x) / 2) with (toUnsigned b)
    by (destruct x; simpl Z.b2z; [rewrite Z.mul_comm, Z.div_add_l by lia|
                                  rewrite Z.add_0_r, Z.mul_comm, Z.div_mul by lia];
        reflexivity || (change (1 / 2) with 0; lia)).
  rewrite IH. f_equal. f_equal.
  rewrite Z.add_comm, Z.odd_add_mul_2. now destruct x.
Qed.

(** Bit strings of one width are determined by their unsigned value. *)
Lemma toUnsigned_inj (a b : t) :
  length a = length b -> toUnsigned a = toUnsigned b -> a = b.
Proof.
  intros Hl Hu. rewrite <- (ofZ_toUnsigned a), <- (ofZ_toUnsigned b).
  now rewrite Hl, Hu.
Qed.

Lemma toUnsigned_not (b : t) :
  toUnsigned (not b) = 2 ^ Z.of_nat (length b) - 1 - toUnsigned b.
Proof.
  induction b as [|x b IH] using rev_ind; [reflexivity|].
  unfold not in *. rewrite map_app. simpl map.
  rewrite !toUnsigned_snoc, IH, length_app. simpl length.
  replace (Z.of_nat (length b + 1)) with (Z.succ (Z.of_nat (length b))) by lia.
  rewrite Z.pow_succ_r by lia. destruct x; simpl; lia.
Qed.

Lemma not_involutive (b : t) : not (not b) = b.
Proof.
  unfold not. rewrite map_map. induction b as [|x b IH]; simpl; [reflexivity|].
  now rewrite Bool.negb_involutive, IH.
Qed.

(** The two's complement is the negation modulo [2 ^ width]. *)
Lemma twosCompliment_value (b : t) :
  exists c, twosCompliment b = Ok c /\ length c = length b /\
            toUnsigned c = (- toUnsigned b) mod 2 ^ Z.of_nat (length b).
Proof.
  unfold twosCompliment, add, make.
  rewrite not_length, ofZ_length.
  destruct (decide (length b = length b)) as [_|]; [|contradiction].
  eexists; split; [reflexivity|]. split; [apply ofZ_length|].
  rewrite !toUnsigned_ofZ, toUnsigned_not.
  rewrite Z.add_mod_idemp_r by lia.
  replace (2 ^ Z.of_nat (length b) - 1 - toUnsigned b + 1)
    with (- toUnsigned b + 1 * 2 ^ Z.of_nat (length b)) by lia.
  now rewrite Z.mod_add by lia.
Qed.

End BitStringFacts.

(** C9.  For every bit string B of width W: B.not().not() equals B, and
    B.twosCompliment().twosCompliment() equals B, the two's complement being
    not() followed by add(1) at the original width (so modulo 2^W). *)
Theorem BitString_not_twosCompliment_involutive (b : BitString.t) :
  BitString.equals (BitString.not (BitString.not b)) b = true /\
  (BitString.twosCompliment b = BitString.add (BitString.not b) (BitString.make 1 (BitString.getWidth b))) /\
  exists c, BitString.twosCompliment b = Ok c /\
            BitString.getWidth c = BitString.getWidth b /\
            exists b', BitString.twosCompliment c = Ok b' /\
                       BitString.equals b' b = true.
Proof.
  split; [|split; [reflexivity|]].
  - unfold BitString.equals. rewrite not_involutive. now apply bool_decide_eq_true.
  - destruct (twosCompliment_value b) as (c & Hc & Hlen & Hval).
    exists c. split; [exact Hc|]. split; [exact Hlen|].
    destruct (twosCompliment_value c) as (b' & Hb' & Hlen' & Hval').
    exists b'. split; [exact Hb'|].
    unfold BitString.equals. apply bool_decide_eq_true.
    apply toUnsigned_inj; [congruence|].
    rewrite Hval', Hval, Hlen.
    pose proof (toUnsigned_range b) as Hr.
    rewrite <- (Z.sub_0_l (_ mod _)), Zminus_mod_idemp_r.
    replace (0 - - BitString.toUnsigned b) with (BitString.toUnsigned b) by lia.
    now apply Z.mod_small.
Qed.

(** ** Splitter, contiguous mode *)

Lemma append_assoc (a b c : string) : append (append a b) c = append a (append b c).
Proof. induction a as [|x a IH]; simpl; [reflexivity|]. now rewrite IH. Qed.

Lemma append_nil_r (a : string) : append a EmptyString = a.
Proof. induction a as [|x a IH]; simpl; [reflexivity|]. now rewrite IH. Qed.

Lemma setValue_value (v : option BitString.t) (ts : Z) (b : CircuitBus.t) :
  CircuitBus.value (CircuitBus.setValue v ts b) = v.
Proof. unfold CircuitBus.setValue. now destruct (decide _). Qed.

Lemma setValue_width (v : option BitString.t) (ts : Z) (b : CircuitBus.t) :
  CircuitBus.width (CircuitBus.setValue v ts b) = CircuitBus.width b.
Proof. unfold CircuitBus.setValue. now destruct (decide _). Qed.

Create Rewrite HintDb bus.
#[local] Hint Rewrite setValue_value setValue_width : bus.

Lemma insert_alter_lookup {A} (f : A -> A) (l : list A) (i : nat) (x : A) :
  l !! i = Some x -> <[i := f x]> l = alter f i l.
Proof.
  intros Hx. apply list_eq. intros j.
  destruct (decide (i = j)) as [<-|Hne].
  - rewrite list_lookup_alter_eq, Hx. simpl.
    apply list_lookup_insert_eq. exact (lookup_lt_Some _ _ _ Hx).
  - now rewrite list_lookup_insert_ne, list_lookup_alter_ne.
Qed.

(** The indices [length - 1 - s] visited by the [for ... in] loops are the
    indices from the last one down to 0. *)
Lemma reversed_indices (n k m : nat) :
  (k + m <= n)%nat ->
  map (fun s => (n - 1 - s)%nat) (seq k m) = rev (seq (n - k - m) m).
Proof.
  revert k. induction m as [|m IH]; intros k Hk; [reflexivity|].
  rewrite (seq_S m (n - k - S m)), rev_app_distr. simpl. rewrite IH by lia.
  f_equal; [lia|]. f_equal. f_equal. lia.
Qed.

Section Contiguous.

Variables (now : Z) (sp : list nat) (wide : BitString.t).

(** The source's loop, as the specification's loop with the slice of
    port [i] written to port [i]. *)
Lemma propOutLoop_spec (ss : list nat) (off : nat) (outs : list CircuitBus.t) :
  Forall (fun s => (s < length sp)%nat) ss ->
  length outs = length sp ->
  Splitter.propOutLoop now sp wide ss off outs =
  Ok (SplitterSpec.propOutLoop (fun i => i) now sp wide
        (map (fun s => (length sp - 1 - s)%nat) ss) off outs).
Proof.
  revert off outs. induction ss as [|s ss IH]; intros off outs Hss Hlen;
    [reflexivity|].
  inversion Hss as [|? ? Hs Hss']; subst. simpl.
  destruct (lookup_lt_is_Some_2 sp (length sp - 1 - s)) as [w Hw]; [lia|].
  destruct (lookup_lt_is_Some_2 outs (length sp - 1 - s)) as [b Hb]; [lia|].
  rewrite Hw, Hb. simpl. rewrite substring_take_drop.
  rewrite (insert_alter_lookup (CircuitBus.setValue _ now) _ _ _ Hb).
  apply IH; [exact Hss'|]. now rewrite length_alter.
Qed.


(** Port by port: after the loop has run over the ports below [m], each
    of them carries its slice and the others are untouched. *)
Lemma spec_propOutLoop_lookup (m : nat) (outs : list CircuitBus.t) (j : nat) :
  (m <= length sp)%nat ->
  SplitterSpec.propOutLoop (fun i => i) now sp wide (rev (seq 0 m))
    (sum_list (drop m sp)) outs !! j =
  if decide (j < m)%nat
  then CircuitBus.setValue (Some (SplitterSpec.sliceOf sp wide j)) now <$> outs !! j
  else outs !! j.
Proof.
  revert outs. induction m as [|m IH]; intros outs Hm.
  - reflexivity.
  - rewrite seq_S, rev_app_distr. simpl.
    destruct (lookup_lt_is_Some_2 sp m) as [w Hw]; [lia|].
    rewrite Hw. simpl.
    replace (sum_list (drop (S m) sp) + w)%nat with (sum_list (drop m sp))
      by (rewrite (drop_S _ _ _ Hw); simpl; lia).
    rewrite IH by lia.
    destruct (decide (j < m)%nat), (decide (j < S m)%nat); try lia.
    + now rewrite list_lookup_alter_ne by lia.
    + assert (j = m) as -> by lia.
      rewrite list_lookup_alter_eq. unfold SplitterSpec.sliceOf, SplitterSpec.offsetOf.
      now rewrite Hw.
    + now rewrite list_lookup_alter_ne by lia.
Qed.


End Contiguous.

Lemma propOut_contiguous (now : Z) (s : Splitter.t) (wide : BitString.t) :
  Splitter.bitMappings s = None ->
  length (Splitter.outputs s) = length (Splitter.split s) ->
  Splitter.propOut now wide s =
  Ok (Splitter.withLastOp Splitter.PropOut
        (Splitter.withOutputs
           (SplitterSpec.propOut (fun i => i) now (Splitter.split s) wide
                                 (Splitter.outputs s)) s)).
Proof.
  intros Hbm Hlen. unfold Splitter.propOut. rewrite Hbm.
  rewrite propOutLoop_spec; [|apply Forall_seq; intros; lia|exact Hlen].
  rewrite reversed_indices by lia.
  replace (length (Splitter.split s) - 0 - length (Splitter.split s))%nat
    with 0%nat by lia.
  reflexivity.
Qed.

Lemma spec_propOut_lookup (now : Z) (sp : list nat) (wide : BitString.t)
    (outs : list CircuitBus.t) (j : nat) :
  length outs = length sp ->
  SplitterSpec.propOut (fun i => i) now sp wide outs !! j =
  CircuitBus.setValue (Some (SplitterSpec.sliceOf sp wide j)) now <$> outs !! j.
Proof.
  intros Hlen. unfold SplitterSpec.propOut.
  pose proof (spec_propOutLoop_lookup now sp wide (length sp) outs j) as H.
  rewrite drop_all in H. simpl in H. rewrite H by lia.
  case_decide; [reflexivity|].
  rewrite (lookup_ge_None_2 outs j) by lia. reflexivity.
Qed.

(** C4 (amended).  For every contiguous splitter with N narrow ports,
    propOut iterates i from N-1 down to 0 with an offset running from 0 up
    to sum(split) and sets narrow[i] (not narrow[N-1-i]) to
    wide[offset : offset+split[i]]: port i receives the slice that starts
    after the slices of all higher-numbered ports, so the first slice, at
    offset 0, is written to narrow port N-1. *)
Theorem Splitter_propOut_algorithm (now : Z) (s : Splitter.t) (wide : BitString.t) :
  Splitter.bitMappings s = None ->
  length (Splitter.outputs s) = length (Splitter.split s) ->
  exists s',
    Splitter.propOut now wide s = Ok s' /\
    Splitter.outputs s' =
      SplitterSpec.propOut (fun i => i) now (Splitter.split s) wide (Splitter.outputs s) /\
    (forall i, (i < length (Splitter.split s))%nat ->
       CircuitBus.getValue <$> Splitter.outputs s' !! i =
       Some (Some (SplitterSpec.sliceOf (Splitter.split s) wide i))) /\
    SplitterSpec.offsetOf (Splitter.split s) (length (Splitter.split s) - 1) = 0%nat.
Proof.
  intros Hbm Hlen. eexists. split; [apply propOut_contiguous; assumption|].
  split; [reflexivity|]. split.
  - intros i Hi. simpl. rewrite spec_propOut_lookup by exact Hlen.
    destruct (lookup_lt_is_Some_2 (Splitter.outputs s) i) as [b Hb]; [lia|].
    rewrite Hb. simpl. unfold CircuitBus.getValue. now autorewrite with bus.
  - unfold SplitterSpec.offsetOf. rewrite drop_ge by lia. reflexivity.
Qed.

(** The splitter of the test suite: port 1, the last one, receives the
    first slice 10 of 1011. *)
Lemma Splitter_propOut_algorithm_witness :
  exists s',
    Splitter.propOut 7 (Examples.bits "1011") Examples.wide1011 = Ok s' /\
    CircuitBus.getValue <$> Splitter.outputs s' !! 1%nat =
    Some (Some (Examples.bits "10")).
Proof.
  destruct (Splitter_propOut_algorithm 7 Examples.wide1011 (Examples.bits "1011"))
    as (s' & Hs' & _ & Hports & _); [reflexivity|reflexivity|].
  exists s'. split; [exact Hs'|].
  rewrite (Hports 1%nat); [reflexivity|simpl; lia].
Defined.

(** C4, as stated, fails on the splitter of the test suite: the
    specification's loop, which writes to narrow[N-1-i], leaves 10 on port 0
    and 11 on port 1, while propOut leaves 11 on port 0 and 10 on port 1. *)
Lemma Splitter_propOut_not_mirrored :
  map CircuitBus.getValue
      (SplitterSpec.propOut (SplitterSpec.mirror [2; 2]%nat) 7 [2; 2]%nat
         (Examples.bits "1011") (Splitter.outputs Examples.wide1011)) =
    [Some (Examples.bits "10"); Some (Examples.bits "11")] /\
  exists s',
    Splitter.propOut 7 (Examples.bits "1011") Examples.wide1011 = Ok s' /\
    map CircuitBus.getValue (Splitter.outputs s') =
      [Some (Examples.bits "11"); Some (Examples.bits "10")] /\
    Splitter.outputs s' <>
      SplitterSpec.propOut (SplitterSpec.mirror [2; 2]%nat) 7 [2; 2]%nat
        (Examples.bits "1011") (Splitter.outputs Examples.wide1011).
Proof.
  split; [reflexivity|].
  eexists. split; [reflexivity|]. split; [reflexivity|].
  intros H. apply (f_equal (map CircuitBus.getValue)) in H. discriminate H.
Qed.

Section PropIn.

Variables (sp : list nat) (outs : list CircuitBus.t).


End PropIn.







Lemma rev_reverse {A} (l : list A) : rev l = reverse l.
Proof. unfold reverse. apply rev_alt. Qed.

(** The slice of port [N-1-k] is slice [k] of the natural order over the
    reversed widths. *)
Lemma sliceOf_natural (sp : list nat) (wide : BitString.t) (k : nat) :
  (k < length sp)%nat ->
  SplitterSpec.sliceOf sp wide (length sp - 1 - k) =
  SplitterSpec.naturalSlice (rev sp) wide k.
Proof.
  intros Hk. unfold SplitterSpec.sliceOf, SplitterSpec.naturalSlice, SplitterSpec.offsetOf.
  rewrite rev_reverse, reverse_lookup by exact Hk.
  replace (length sp - S k)%nat with (length sp - 1 - k)%nat by lia.
  f_equal. f_equal.
  replace k with (length sp - (length sp - k))%nat at 2 by lia.
  rewrite <- reverse_drop, sum_list_with_reverse.
  now replace (S (length sp - 1 - k)) with (length sp - k)%nat by lia.
Qed.

(** C3.  For every contiguous splitter with N narrow ports, the narrow
    ports are stored in reverse of the natural left-to-right slice order:
    slice k of the wide value goes to narrow port N-1-k, so slice 0, the most
    significant one, is assigned to narrow port N-1.  In particular, for the
    4-bit wide value 1011 with split [2,2], propOut yields narrow[0] = 11 and
    narrow[1] = 10, and propIn on those narrow values yields the wide value
    1011. *)
Theorem Splitter_ports_reversed :
  (forall (now : Z) (s : Splitter.t) (wide : BitString.t),
     Splitter.bitMappings s = None ->
     length (Splitter.outputs s) = length (Splitter.split s) ->
     exists s',
       Splitter.propOut now wide s = Ok s' /\
       (forall k, (k < length (Splitter.split s))%nat ->
          CircuitBus.getValue <$> Splitter.outputs s' !! (length (Splitter.split s) - 1 - k)%nat =
          Some (Some (SplitterSpec.naturalSlice (rev (Splitter.split s)) wide k))) /\
       ((0 < length (Splitter.split s))%nat ->
          CircuitBus.getValue <$> Splitter.outputs s' !! (length (Splitter.split s) - 1)%nat =
          Some (Some (take (default 0%nat (last (Splitter.split s))) wide)))) /\
  (exists s',
     Splitter.propOut 7 (Examples.bits "1011") Examples.wide1011 = Ok s' /\
     option_map BitString.toString <$> (CircuitBus.getValue <$> Splitter.outputs s') =
       [Some "11"%string; Some "10"%string]) /\
  (exists s',
     Splitter.propIn 7 Examples.narrow11and10 = Ok s' /\
     option_map BitString.toString (CircuitBus.getValue (Splitter.input s')) =
       Some "1011"%string).
Proof.
  split; [|split; eexists; split; reflexivity].
  intros now s wide Hbm Hlen.
  assert (Hport : forall k, (k < length (Splitter.split s))%nat ->
            CircuitBus.getValue <$>
              SplitterSpec.propOut (fun i => i) now (Splitter.split s) wide
                (Splitter.outputs s) !! (length (Splitter.split s) - 1 - k)%nat =
            Some (Some (SplitterSpec.naturalSlice (rev (Splitter.split s)) wide k))).
  { intros k Hk. rewrite spec_propOut_lookup by exact Hlen.
    destruct (lookup_lt_is_Some_2 (Splitter.outputs s)
                (length (Splitter.split s) - 1 - k)) as [b Hb]; [lia|].
    rewrite Hb. simpl. unfold CircuitBus.getValue.
    now rewrite setValue_value, sliceOf_natural. }
  eexists. split; [apply propOut_contiguous; assumption|]. split.
  - exact Hport.
  - intros Hpos. specialize (Hport 0%nat Hpos).
    rewrite Nat.sub_0_r in Hport. simpl in *. rewrite Hport.
    unfold SplitterSpec.naturalSlice. simpl. rewrite drop_0.
    rewrite rev_reverse, reverse_lookup by exact Hpos.
    rewrite last_lookup.
    now replace (Init.Nat.pred (length (Splitter.split s)))
      with (length (Splitter.split s) - 1)%nat by lia.
Qed.

(** On the splitter of the test suite the last port carries slice 0. *)
Lemma Splitter_ports_reversed_witness :
  exists s',
    Splitter.propOut 7 (Examples.bits "1011") Examples.wide1011 = Ok s' /\
    CircuitBus.getValue <$> Splitter.outputs s' !! 1%nat =
    Some (Some (Examples.bits "10")).
Proof.
  destruct (proj1 Splitter_ports_reversed 7 Examples.wide1011 (Examples.bits "1011"))
    as (s' & Hs' & _ & Hlast); [reflexivity|reflexivity|].
  exists s'. split; [exact Hs'|].
  exact (Hlast ltac:(simpl; lia)).
Defined.

(** ** Splitter: which side wins *)

Lemma parse_error (s : string) (e : Error) :
  BitString.parse s = Err e -> e = NotBinaryString.
Proof.
  revert e. induction s as [|c s IH]; intros e; simpl; [discriminate|].
  destruct (Ascii.eqb c "0"); [|destruct (Ascii.eqb c "1")];
    try (destruct (BitString.parse s); simpl; [discriminate|];
         intros H; inversion H; subst; now apply IH).
  intros H. now inversion H.
Qed.

Lemma new_error (s : string) (e : Error) :
  BitString.new s None = Err e -> e = NotBinaryString.
Proof.
  unfold BitString.new. destruct (BitString.parse s) eqn:Hp; simpl; [discriminate|].
  intros H. inversion H; subst. exact (parse_error _ _ Hp).
Qed.

Lemma propOutLoop_error now sp wide ss off outs e :
  Splitter.propOutLoop now sp wide ss off outs = Err e -> e <> SplitterContention.
Proof.
  revert off outs. induction ss as [|s ss IH]; intros off outs; simpl; [discriminate|].
  destruct (sp !! _); [destruct (outs !! _)|]; try (intros H; inversion H; discriminate).
  apply IH.
Qed.

Lemma propOutMappedLoop_error now n bm wide ss outs e :
  Splitter.propOutMappedLoop now n bm wide ss outs = Err e -> e <> SplitterContention.
Proof.
  revert outs. induction ss as [|s ss IH]; intros outs; simpl; [discriminate|].
  destruct (bm !! _); [destruct (outs !! _)|]; try (intros H; inversion H; discriminate).
  destruct (BitString.new _ None) eqn:Hn; simpl; [apply IH|].
  intros H. inversion H; subst. rewrite (new_error _ _ Hn). discriminate.
Qed.

Lemma propInLoop_error sp outs ss newOut e :
  Splitter.propInLoop sp outs ss newOut = Err e -> e <> SplitterContention.
Proof.
  revert newOut. induction ss as [|s ss IH]; intros newOut; simpl; [discriminate|].
  destruct (sp !! _); [destruct (outs !! _)|]; try (intros H; inversion H; discriminate).
  destruct (negb _); [intros H; inversion H; discriminate|apply IH].
Qed.

Lemma placeBits_error pairs inputBits e :
  Splitter.placeBits pairs inputBits = Err e -> e <> SplitterContention.
Proof.
  revert inputBits. induction pairs as [|[i x] pairs IH]; intros inputBits; simpl;
    [discriminate|].
  destruct (inputBits !! i) as [[old|]|]; try (intros H; inversion H; discriminate);
    [|apply IH].
  destruct (negb _); [intros H; inversion H; discriminate|apply IH].
Qed.

Lemma propInMappedLoop_error n bm outs ss inputBits e :
  Splitter.propInMappedLoop n bm outs ss inputBits = Err e -> e <> SplitterContention.
Proof.
  revert inputBits. induction ss as [|s ss IH]; intros inputBits; simpl; [discriminate|].
  destruct (bm !! _); [destruct (outs !! _) as [b|]|];
    try (intros H; inversion H; discriminate).
  destruct (CircuitBus.getValue b); [|apply IH].
  destruct (negb _); [intros H; inversion H; discriminate|].
  destruct (Splitter.placeBits _ _) eqn:Hp; simpl; [apply IH|].
  intros H. inversion H; subst. exact (placeBits_error _ _ _ Hp).
Qed.

(** Neither propagation raises the contention error. *)
Lemma propOut_not_contention now wide s :
  (let* s' := Splitter.propOut now wide s in Ok (Splitter.remember s'))
  <> Err SplitterContention.
Proof.
  unfold Splitter.propOut.
  destruct (Splitter.bitMappings s).
  - destruct (Splitter.propOutMappedLoop _ _ _ _ _ _) eqn:H; simpl; [discriminate|].
    intros E. inversion E; subst. exact (propOutMappedLoop_error _ _ _ _ _ _ _ H eq_refl).
  - destruct (Splitter.propOutLoop _ _ _ _ _ _) eqn:H; simpl; [discriminate|].
    intros E. inversion E; subst. exact (propOutLoop_error _ _ _ _ _ _ _ H eq_refl).
Qed.

Lemma propIn_not_contention now s :
  (let* s' := Splitter.propIn now s in Ok (Splitter.remember s'))
  <> Err SplitterContention.
Proof.
  unfold Splitter.propIn.
  destruct (Splitter.bitMappings s).
  - destruct (Splitter.propInMappedLoop _ _ _ _ _) eqn:H; simpl.
    + destruct (BitString.new _ None) eqn:Hn; simpl; [discriminate|].
      intros E. inversion E; subst. pose proof (new_error _ _ Hn). discriminate.
    + intros E. inversion E; subst. exact (propInMappedLoop_error _ _ _ _ _ _ H eq_refl).
  - destruct (Splitter.propInLoop _ _ _ _) eqn:H; simpl.
    + destruct (BitString.new _ None) eqn:Hn; simpl; [discriminate|].
      intros E. inversion E; subst. pose proof (new_error _ _ Hn). discriminate.
    + intros E. inversion E; subst. exact (propInLoop_error _ _ _ _ _ H eq_refl).
Qed.

(** The value [#earliestOutput] returns never exceeds its initial -1. *)
Lemma earliestOutput_at_most_unset (s : Splitter.t) : Splitter.earliestOutput s <= -1.
Proof.
  unfold Splitter.earliestOutput.
  generalize (Splitter.outputs s). intros l.
  assert (forall o, o <= -1 ->
            fold_left (fun o x => Z.min o (CircuitBus.getLastUpdate x)) l o <= -1) as H.
  { induction l as [|x l IH]; intros o Ho; simpl; [exact Ho|]. apply IH. lia. }
  apply H. lia.
Qed.

(** With narrow buses stamped -1 or later, [#earliestOutput] returns -1
    whatever the stamps are. *)
Lemma earliestOutput_unset (s : Splitter.t) :
  Forall (fun b => -1 <= CircuitBus.getLastUpdate b) (Splitter.outputs s) ->
  Splitter.earliestOutput s = -1.
Proof.
  unfold Splitter.earliestOutput.
  induction 1 as [|b l Hb Hl IH]; simpl; [reflexivity|].
  now rewrite Z.min_l by lia.
Qed.

(** What resolve() does on the path that finds both sides set and
    [#areConsistent] false, in the terms of the code: the stamp
    [#earliestOutput] returns and the two changed flags. *)
Lemma resolve_inconsistent_by_stamps (now : Z) (s : Splitter.t) (wide : BitString.t) :
  CircuitBus.getValue (Splitter.input s) = Some wide ->
  Splitter.nullOutputs (map CircuitBus.getValue (Splitter.outputs s)) = false ->
  Splitter.areConsistent s wide (map CircuitBus.getValue (Splitter.outputs s)) = Ok false ->
  (Splitter.resolve now s = Err SplitterContention <->
     CircuitBus.getLastUpdate (Splitter.input s) = Splitter.earliestOutput s) /\
  (CircuitBus.getLastUpdate (Splitter.input s) > Splitter.earliestOutput s ->
     Splitter.resolve now s =
     if Splitter.outputsChanged s (map CircuitBus.getValue (Splitter.outputs s))
     then let* s' := Splitter.propIn now s in Ok (Splitter.remember s')
     else let* s' := Splitter.propOut now wide s in Ok (Splitter.remember s')) /\
  (CircuitBus.getLastUpdate (Splitter.input s) < Splitter.earliestOutput s ->
     Splitter.resolve now s =
     if Splitter.inputChanged s wide
     then let* s' := Splitter.propOut now wide s in Ok (Splitter.remember s')
     else let* s' := Splitter.propIn now s in Ok (Splitter.remember s')).
Proof.
  intros Hv Hnull Hcons.
  unfold Splitter.resolve, Splitter.getValues. rewrite Hv, Hnull, Hcons.
  cbn [bind]. rewrite !Z.gtb_ltb.
  pose proof (propOut_not_contention now wide s) as HnoOut.
  pose proof (propIn_not_contention now s) as HnoIn.
  destruct (Z.ltb_spec (CircuitBus.getLastUpdate (Splitter.input s)) (Splitter.earliestOutput s)) as [Hlt|Hge];
  destruct (Z.ltb_spec (Splitter.earliestOutput s) (CircuitBus.getLastUpdate (Splitter.input s))) as [Hgt|Hle];
  destruct (Z.eqb_spec (CircuitBus.getLastUpdate (Splitter.input s)) (Splitter.earliestOutput s)) as [Heq|Hne];
  try lia;
  rewrite ?Bool.andb_true_r, ?Bool.andb_false_r.
  - (* t_wide < t_out *)
    split; [|split; [lia|intros _]].
    + split; [|lia]. destruct (Splitter.inputChanged s wide); intros H; contradiction.
    + destruct (Splitter.inputChanged s wide); reflexivity.
  - (* t_wide > t_out *)
    split; [|split; [intros _|lia]].
    + split; [|lia]. destruct (Splitter.outputsChanged s _); intros H; contradiction.
    + destruct (Splitter.outputsChanged s _); reflexivity.
  - (* t_wide = t_out *)
    split; [|split; lia]. split; [intros _; exact Heq|reflexivity].
Qed.


Lemma bitStringsEqual_eq (a b : list (option BitString.t)) :
  Splitter.bitStringsEqual a b = true <-> a = b.
Proof.
  revert b. induction a as [|x a IH]; intros [|y b]; simpl;
    try (split; [discriminate|congruence]); [tauto|].
  destruct x as [u|], y as [v|]; try (split; [discriminate|congruence]).
  - unfold BitString.equals. rewrite Bool.andb_true_iff, bool_decide_eq_true, IH.
    split; [intros [-> ->]; reflexivity|intros H; inversion H; tauto].
  - rewrite IH. split; [intros ->; reflexivity|intros H; inversion H; tauto].
Qed.

Lemma bind_remember (E : Result Splitter.t) (s' : Splitter.t) :
  (let* s1 := E in Ok (Splitter.remember s1)) = Ok s' ->
  Splitter.prevInput s' = fst (Splitter.getValues s') /\
  Splitter.prevOutputs s' = Some (snd (Splitter.getValues s')).
Proof.
  destruct E as [s1|e]; simpl; [|discriminate].
  intros H. inversion H; subst s'. split; reflexivity.
Qed.

(** A resolve that returns has recorded the values it leaves on the buses,
    unless it found the wide bus and some narrow bus unset; then it changed
    nothing. *)
Lemma resolve_records (now : Z) (s s' : Splitter.t) :
  Splitter.resolve now s = Ok s' ->
  if records s
  then Splitter.prevInput s' = fst (Splitter.getValues s') /\
       Splitter.prevOutputs s' = Some (snd (Splitter.getValues s'))
  else s' = s.
Proof.
  unfold Splitter.resolve, records, Splitter.getValues.
  destruct (CircuitBus.getValue (Splitter.input s)) as [wide|].
  - destruct (Splitter.nullOutputs _); [apply bind_remember|].
    destruct (Splitter.areConsistent s wide _) as [[|]|e]; simpl; [| |discriminate].
    + intros H. inversion H; subst s'. split; reflexivity.
    + apply bind_remember.
  - destruct (Splitter.nullOutputs _); simpl; [congruence|apply bind_remember].
Qed.

(** The cache of a splitter holds what was recorded. *)
Lemma recorded_cache (s : Splitter.t) (r : option Recording) :
  recorded s r ->
  Splitter.prevInput s = match r with Some (i, _) => i | None => None end /\
  Splitter.prevOutputs s = match r with Some (_, o) => Some o | None => None end.
Proof.
  induction 1 as [sp i o bm s Hnew|s r _ _|s r i o _ IH|now s s' r _ IH Hres].
  - unfold Splitter.new in Hnew.
    destruct (negb _); [discriminate|].
    destruct bm as [bm|]; [destruct (negb _); [discriminate|]|];
      inversion Hnew; subst s; split; reflexivity.
  - split; reflexivity.
  - exact IH.
  - apply resolve_records in Hres. destruct (records s).
    + destruct (Splitter.getValues s') as [i o]. exact Hres.
    + subst s'. exact IH.
Qed.


Lemma outputsChanged_recorded (s : Splitter.t) (r : option Recording)
    (narrow : list (option BitString.t)) :
  recorded s r -> Splitter.outputsChanged s narrow = narrowChanged r narrow.
Proof.
  intros Hrec. apply recorded_cache in Hrec as [_ Hout].
  unfold Splitter.outputsChanged, narrowChanged. rewrite Hout.
  destruct r as [[i o]|]; [|reflexivity]. f_equal.
  destruct (Splitter.bitStringsEqual o narrow) eqn:He; symmetry.
  - apply bool_decide_eq_true, bitStringsEqual_eq, He.
  - apply bool_decide_eq_false. intros Heq. apply bitStringsEqual_eq in Heq. congruence.
Qed.




(** ** Memory *)

Lemma arraySet_lookup_eq (l : list BitString.t) (i : nat) (x : BitString.t) :
  (i <= length l)%nat -> Memory.arraySet l i x !! i = Some x.
Proof.
  intros Hi. unfold Memory.arraySet.
  destruct (Nat.ltb_spec i (length l)).
  - now apply list_lookup_insert_eq.
  - assert (i = length l) as -> by lia.
    rewrite lookup_app_r by lia. now rewrite Nat.sub_diag.
Qed.

Lemma arraySet_lookup_lt (l : list BitString.t) (i j : nat) (x : BitString.t) :
  (j < i)%nat -> (i <= length l)%nat -> Memory.arraySet l i x !! j = l !! j.
Proof.
  intros Hj Hi. unfold Memory.arraySet.
  destruct (Nat.ltb_spec i (length l)).
  - apply list_lookup_insert_ne. lia.
  - apply lookup_app_l. lia.
Qed.

Lemma arraySet_length (l : list BitString.t) (i : nat) (x : BitString.t) :
  (i <= length l)%nat -> (S i <= length (Memory.arraySet l i x))%nat.
Proof.
  intros Hi. unfold Memory.arraySet.
  destruct (Nat.ltb_spec i (length l)).
  - rewrite length_insert. lia.
  - rewrite length_app. simpl. lia.
Qed.

(** The loop of [initialize] from word [i] on: with fuel for the remaining
    bits it ends, keeps the words below [i], and stores every later word of
    the value at its index. *)
Lemma initializeLoop_words (W : nat) (value : BitString.t) (fuel i : nat)
    (data : list BitString.t) :
  (0 < W)%nat ->
  (W | length value)%nat ->
  (i * W <= length value)%nat ->
  (length value - i * W <= fuel)%nat ->
  (i <= length data)%nat ->
  exists d,
    Memory.initializeLoop fuel W (BitString.toString value) (i * W) i data = Some (Ok d) /\
    (forall j, (j < i)%nat -> d !! j = data !! j) /\
    (forall j, (i <= j < length value / W)%nat ->
       d !! j = Some (take W (drop (j * W) value))).
Proof.
  intros HW [k Hk]. revert i data.
  induction fuel as [|fuel IH]; intros i data Hi Hfuel Hdata.
  - assert (i * W = length value)%nat as Hend by lia.
    simpl. rewrite toString_length, Hend, Nat.ltb_irrefl.
    eexists. split; [reflexivity|]. split; [reflexivity|].
    intros j [Hj1 Hj2]. rewrite <- Hend, Nat.div_mul in Hj2 by lia. lia.
  - simpl. rewrite toString_length.
    destruct (Nat.ltb_spec (i * W) (length value)) as [Hlt|Hge].
    + rewrite substring_toString, new_toString.
      assert (i < k)%nat as Hik by nia.
      destruct (IH (S i) (Memory.arraySet data i (take W (drop (i * W) value))))
        as (d & Hd & Hbelow & Habove); [simpl; nia|simpl; nia|now apply arraySet_length|].
      replace (i * W + W)%nat with (S i * W)%nat by (simpl; lia).
      exists d. split; [exact Hd|]. split.
      * intros j Hj. rewrite Hbelow by lia. now apply arraySet_lookup_lt.
      * intros j [Hj1 Hj2]. destruct (decide (j = i)) as [->|Hne].
        -- rewrite Hbelow by lia. now apply arraySet_lookup_eq.
        -- apply Habove. lia.
    + assert (i * W = length value)%nat as Hend by lia.
      eexists. split; [reflexivity|]. split; [reflexivity|].
      intros j [Hj1 Hj2]. rewrite <- Hend, Nat.div_mul in Hj2 by lia. lia.
Qed.

(** C7.  Memory.initialize(value) raises an error if and only if the width
    of the given bit string is not a multiple of the memory's word size W;
    otherwise words are extracted from the MSB end: for every i below
    width/W, word i of the memory becomes bits [i*W, (i+1)*W) of the value's
    MSB-first binary string. *)
Theorem Memory_initialize_words (m : Memory.t) (value : BitString.t) :
  (0 < Memory.wordSize m)%nat ->
  ((exists e, Memory.initialize value m = Some (Err e)) <->
   ~ (Memory.wordSize m | BitString.getWidth value)%nat) /\
  ((Memory.wordSize m | BitString.getWidth value)%nat ->
   exists m',
     Memory.initialize value m = Some (Ok m') /\
     Memory.wordSize m' = Memory.wordSize m /\
     forall i, (i < BitString.getWidth value / Memory.wordSize m)%nat ->
       exists word,
         Memory.data m' !! i = Some word /\
         BitString.toString word =
           String.substring (i * Memory.wordSize m) (Memory.wordSize m)
                            (BitString.toString value) /\
         word = take (Memory.wordSize m) (drop (i * Memory.wordSize m) value)).
Proof.
  intros HW. unfold BitString.getWidth.
  assert (Hrem : Memory.remainderNonZero (length value) (Memory.wordSize m) = false <->
                 (Memory.wordSize m | length value)%nat).
  { unfold Memory.remainderNonZero.
    destruct (Nat.eqb_spec (Memory.wordSize m) 0); [lia|].
    rewrite Bool.negb_false_iff, Nat.eqb_eq.
    split; intros H.
    - apply Nat.Lcm0.mod_divide. exact H.
    - apply Nat.Lcm0.mod_divide. exact H. }
  assert (Hok : (Memory.wordSize m | length value)%nat ->
            exists d, Memory.initialize value m = Some (Ok (Memory.mk (Memory.wordSize m) d)) /\
              forall j, (j < length value / Memory.wordSize m)%nat ->
                d !! j = Some (take (Memory.wordSize m) (drop (j * Memory.wordSize m) value))).
  { intros Hdiv. unfold Memory.initialize, BitString.getWidth.
    rewrite (proj2 Hrem Hdiv).
    destruct (initializeLoop_words (Memory.wordSize m) value (length value) 0 (Memory.data m))
      as (d & Hd & _ & Hwords); [exact HW|exact Hdiv|simpl; lia|simpl; lia|lia|].
    simpl in Hd. rewrite toString_length, Hd.
    exists d. split; [reflexivity|]. intros j Hj. apply Hwords. lia. }
  split; [split|].
  - intros [e He] Hdiv. destruct (Hok Hdiv) as (d & Hd & _). congruence.
  - intros Hndiv. exists MemoryInitError. unfold Memory.initialize, BitString.getWidth.
    destruct (Memory.remainderNonZero _ _) eqn:Hr; [reflexivity|].
    exfalso. apply Hndiv, Hrem. reflexivity.
  - intros Hdiv. destruct (Hok Hdiv) as (d & Hd & Hwords).
    eexists. split; [exact Hd|]. split; [reflexivity|].
    intros i Hi. eexists. split; [exact (Hwords i Hi)|].
    split; [|reflexivity]. now rewrite substring_toString.
Qed.

(** With a word size of 0 the remainder is NaN and [initialize] always
    raises. *)
Lemma Memory_initialize_zero_word_size (m : Memory.t) (value : BitString.t) :
  Memory.wordSize m = 0%nat ->
  Memory.initialize value m = Some (Err MemoryInitError).
Proof.
  intros HW. unfold Memory.initialize, Memory.remainderNonZero.
  now rewrite HW.
Qed.

(** [Memory.test.ts]: 1010 initializes the first two 2-bit words to 10. *)
Lemma Memory_initialize_words_witness :
  exists m',
    Memory.initialize (Examples.bits "1010") Examples.memory4x2 = Some (Ok m') /\
    Memory.read 0 2 m' = [Examples.bits "10"; Examples.bits "10"].
Proof.
  destruct (Memory_initialize_words Examples.memory4x2 (Examples.bits "1010"))
    as (_ & Hok); [simpl; lia|].
  destruct Hok as (m' & Hm' & _ & _); [exists 2%nat; reflexivity|].
  exists m'. split; [exact Hm'|].
  vm_compute in Hm'. inversion Hm'; subst. reflexivity.
Defined.

(** [Memory.write] itself does not guard the address: a write at or past
    the end appends the words, because [splice] clamps its start. *)
Lemma Memory_write_past_end (m : Memory.t) (address : nat) (word : BitString.t) :
  (length (Memory.data m) <= address)%nat ->
  Memory.data (Memory.write address [word] m) =
  Memory.data m ++ [Memory.normalize (Memory.wordSize m) word].
Proof.
  intros H. unfold Memory.write. simpl.
  rewrite take_ge by lia. rewrite drop_ge by lia. reflexivity.
Qed.

(** An in-range write of one word keeps the capacity. *)
Lemma Memory_write_in_range_length (m : Memory.t) (address : nat) (word : BitString.t) :
  (address < length (Memory.data m))%nat ->
  length (Memory.data (Memory.write address [word] m)) = length (Memory.data m).
Proof.
  intros H. unfold Memory.write. simpl.
  rewrite length_app, length_take. simpl. rewrite length_drop. lia.
Qed.

(** ** JLSRAM *)

(** Closes the branches of [resolve] that leave the memory as it was. *)
Ltac memory_kept :=
  eexists; split; [reflexivity|]; split; [reflexivity|];
  let H := fresh in intros H; now contradiction H.

(** C8.  For every RAM, a write requested with an out-of-range address
    (address at or beyond capacity) is dropped: the memory contents remain
    entirely unchanged, no fatal error is raised (only a warning is
    counted), and capacity does not grow; the memory only changes when
    chip-select is low, write-enable is low, and the address is in range. *)
Theorem JLSRAM_out_of_range_write_dropped (now : Z) (r : JLSRAM.t) :
  (forall idx,
     JLSRAM.writeRequested r = true ->
     JLSRAM.index r = Some idx ->
     (JLSRAM.capacity r <= idx)%nat ->
     exists r',
       JLSRAM.resolve now r = Ok r' /\
       JLSRAM.memory r' = JLSRAM.memory r /\
       JLSRAM.warnings r' = S (JLSRAM.warnings r)) /\
  (exists r',
     JLSRAM.resolve now r = Ok r' /\
     JLSRAM.capacity r' = JLSRAM.capacity r /\
     (JLSRAM.memory r' <> JLSRAM.memory r ->
      JLSRAM.isLow (JLSRAM.chipSelect r) = true /\
      JLSRAM.isLow (JLSRAM.writeEnable r) = true /\
      exists idx, JLSRAM.index r = Some idx /\ (idx < JLSRAM.capacity r)%nat)).
Proof.
  split.
  - intros idx Hreq Hidx Hcap. unfold JLSRAM.resolve, JLSRAM.resolveWrite.
    rewrite Hreq, Hidx.
    destruct (Nat.ltb_spec idx (JLSRAM.capacity r)); [lia|].
    eexists. repeat split.
  - unfold JLSRAM.resolve, JLSRAM.resolveWrite, JLSRAM.writeRequested.
    destruct (JLSRAM.isLow (JLSRAM.chipSelect r)), (JLSRAM.isLow (JLSRAM.writeEnable r));
      simpl; try memory_kept.
    destruct (JLSRAM.index r) as [idx|]; [|memory_kept].
    destruct (Nat.ltb_spec idx (JLSRAM.capacity r)) as [Hin|Hout]; [|memory_kept].
    destruct (CircuitBus.getValue (JLSRAM.data r)) as [word|]; [|memory_kept].
    eexists. split; [reflexivity|]. split.
    + unfold JLSRAM.capacity. simpl. now apply Memory_write_in_range_length.
    + intros _. repeat split. exists idx. split; [reflexivity|exact Hin].
Qed.

Lemma JLSRAM_out_of_range_write_dropped_witness :
  exists r',
    JLSRAM.resolve 7 Examples.ramWriteAt2 = Ok r' /\
    JLSRAM.memory r' = JLSRAM.memory Examples.ramWriteAt2 /\
    JLSRAM.warnings r' = 1%nat.
Proof.
  apply (proj1 (JLSRAM_out_of_range_write_dropped 7 Examples.ramWriteAt2) 2%nat).
  - reflexivity.
  - reflexivity.
  - vm_compute. lia.
Defined.

(** ** Extend *)

Lemma toUnsigned_width_one (v : BitString.t) :
  (length v <= 1)%nat -> BitString.toUnsigned v = 0 \/ BitString.toUnsigned v = 1.
Proof.
  destruct v as [|x [|y v]]; simpl; intros Hlen; [now left| |lia].
  destruct x; [right|left]; reflexivity.
Qed.

(** C10.  The Extend element's constructor rejects any input bus whose
    width is not exactly 1; under that precondition, for every non-null input
    value the error branch of resolve() is unreachable (a width-1 value reads
    as unsigned 0 or 1), the output is set to all zeros when the input is 0
    and to all ones when the input is 1, and a null input leaves the output
    bus unchanged. *)
Theorem Extend_resolve_width_one (now : Z) (input output : CircuitBus.t) :
  (Extend.new input output = Err ExtendWidthError <-> CircuitBus.getWidth input <> 1%nat) /\
  (forall e,
     Extend.new input output = Ok e ->
     CircuitBus.wf input ->
     (forall v, CircuitBus.getValue input = Some v ->
        (BitString.toUnsigned v = 0 \/ BitString.toUnsigned v = 1) /\
        Extend.resolve now e <> Err ExtendUnexpectedInput /\
        exists e',
          Extend.resolve now e = Ok e' /\
          Extend.input e' = input /\
          (BitString.toUnsigned v = 0 ->
           CircuitBus.getValue (Extend.output e') =
             Some (BitString.low (CircuitBus.getWidth output))) /\
          (BitString.toUnsigned v = 1 ->
           CircuitBus.getValue (Extend.output e') =
             Some (BitString.high (CircuitBus.getWidth output)))) /\
     (CircuitBus.getValue input = None ->
        exists e', Extend.resolve now e = Ok e' /\ Extend.output e' = output)).
Proof.
  unfold Extend.new.
  destruct (Nat.eqb_spec (CircuitBus.getWidth input) 1) as [Hw|Hw]; simpl.
  - split; [split; [discriminate|contradiction]|].
    intros e He Hwf. inversion He; subst e. clear He. split.
    + intros v Hv.
      assert (length v <= 1)%nat as Hlen by (rewrite <- Hw; exact (Hwf v Hv)).
      pose proof (toUnsigned_width_one v Hlen) as H01.
      split; [exact H01|]. unfold Extend.resolve. simpl. rewrite Hv.
      destruct H01 as [H0|H1].
      * rewrite H0. simpl. split; [discriminate|].
        eexists. split; [reflexivity|]. split; [reflexivity|].
        split; [intros _; apply setValue_value|discriminate].
      * rewrite H1. simpl. split; [discriminate|].
        eexists. split; [reflexivity|]. split; [reflexivity|].
        split; [discriminate|intros _; apply setValue_value].
    + intros Hnull. unfold Extend.resolve. simpl. rewrite Hnull.
      eexists. split; reflexivity.
  - split; [split; [intros _; exact Hw|reflexivity]|].
    intros e He. discriminate He.
Qed.

(** [Extend.test.ts]: input 1 fills the 6-bit output with ones. *)
Lemma Extend_resolve_width_one_witness :
  exists e e',
    Extend.new Examples.extendInput Examples.extendOutput = Ok e /\
    Extend.resolve 7 e = Ok e' /\
    CircuitBus.getValue (Extend.output e') = Some (Examples.bits "111111").
Proof.
  destruct (Extend_resolve_width_one 7 Examples.extendInput Examples.extendOutput)
    as (_ & H).
  destruct (H (Extend.mk Examples.extendInput Examples.extendOutput)) as (Hval & _).
  - reflexivity.
  - intros v Hv. inversion Hv; subst. simpl. lia.
  - destruct (Hval (Examples.bits "1") eq_refl) as (_ & _ & e' & He' & _ & _ & Hone).
    exists (Extend.mk Examples.extendInput Examples.extendOutput), e'.
    split; [reflexivity|]. split; [exact He'|]. exact (Hone eq_refl).
Defined.

(** ** DLatch *)

(** On every rising clock edge, for every value of D, both outputs are
    driven to the complement of D. *)
Lemma DLatch_rise_drives_complement (now : Z) (l : DLatch.t) (dv : BitString.t) :
  DLatch.isRise (DLatch.lastClock l) (CircuitBus.getValue (DLatch.clock l)) = true ->
  CircuitBus.getValue (DLatch.d l) = Some dv ->
  CircuitBus.getValue (DLatch.q (DLatch.resolve now l)) = Some (BitString.not dv) /\
  CircuitBus.getValue (DLatch.qInv (DLatch.resolve now l)) = Some (BitString.not dv).
Proof.
  intros Hrise Hd. unfold DLatch.resolve, DLatch.onClockRise.
  rewrite Hrise, Hd. simpl. split; apply setValue_value.
Qed.

(** C5: the latch of the test suite.  D is high; the clock is resolved low
    and then high.  With the clock high, Q and the complementary output both
    carry not(D) = 0, so Q does not follow D. *)
Theorem DLatch_clock_high_inverts :
  let l1 := DLatch.resolve 1 Examples.latch in
  let l2 := DLatch.resolve 3 (Examples.setClock (BitString.high 1) 2 l1) in
  CircuitBus.getValue (DLatch.clock l2) = Some (BitString.high 1) /\
  CircuitBus.getValue (DLatch.d l2) = Some (BitString.high 1) /\
  CircuitBus.getValue (DLatch.q l2) = Some (BitString.low 1) /\
  CircuitBus.getValue (DLatch.qInv l2) = Some (BitString.low 1) /\
  ~ DLatch.transparent l2.
Proof.
  repeat (split; [reflexivity|]).
  intros H. destruct (H (BitString.high 1) eq_refl) as [Hq _]. discriminate Hq.
Qed.

(** ** Circuit: the step limit *)

Section SchedulerFacts.

Variable World : Type.
Variable resolveElement : nat -> World -> World * list (nat * Z).

Abbreviation fire := (Circuit.fire World resolveElement).
Abbreviation loopStep := (Circuit.loopStep World resolveElement).
Abbreviation iterations := (Circuit.iterations World resolveElement).
Abbreviation propagate := (Circuit.propagate World resolveElement).

Lemma popMin_None (q : Circuit.Queue) : Circuit.popMin q = None <-> q = [].
Proof.
  destruct q as [|ev q]; simpl; [tauto|].
  destruct (Circuit.popMin q) as [[m rest]|]; [|split; discriminate].
  destruct (fst m <? fst ev); split; discriminate.
Qed.

Lemma fire_None (w : World) (q : Circuit.Queue) : fire w q = None <-> q = [].
Proof.
  unfold Circuit.fire. rewrite <- popMin_None.
  destruct (Circuit.popMin q) as [[[time e] q']|]; [|tauto].
  destruct (resolveElement e w). split; discriminate.
Qed.

Lemma iterations_succ (limit n : N) (w : World) (q : Circuit.Queue) :
  iterations limit (N.succ n) w q = loopStep limit (iterations limit n w q).
Proof. unfold Circuit.iterations. apply N.iter_succ. Qed.

Lemma propagate_succ (n : N) (w : World) (q : Circuit.Queue) :
  propagate (N.succ n) w q =
  match fire (fst (propagate n w q)) (snd (propagate n w q)) with
  | Some st' => st'
  | None => propagate n w q
  end.
Proof. unfold Circuit.propagate. apply N.iter_succ. Qed.

(** While the loop runs, its step counter is the number of iterations
    made and has not passed the limit. *)
Lemma iterations_running (limit n : N) (w : World) (q : Circuit.Queue) :
  (exists r, iterations limit n w q = Circuit.Finished World r) \/
  (exists w' q', iterations limit n w q = Circuit.Running World w' q' n /\ (n <= limit)%N).
Proof.
  induction n as [|n IH] using N.peano_ind.
  - right. exists w, q. split; [reflexivity|lia].
  - rewrite iterations_succ.
    destruct IH as [[r Hr]|(w' & q' & Hrun & Hn)]; rewrite ?Hr, ?Hrun; simpl.
    + left. now exists r.
    + destruct (fire w' q') as [[w'' q'']|]; [|left; eexists; reflexivity].
      destruct (N.ltb_spec limit (n + 1)); [left; eexists; reflexivity|].
      right. exists w'', q''. split; [f_equal; lia|lia].
Qed.

(** A propagation that never stabilizes keeps the loop running up to the
    limit, on the states of the unbounded propagation. *)
Lemma iterations_unstable (limit n : N) (w : World) (q : Circuit.Queue) :
  Circuit.neverStabilizes World resolveElement w q ->
  (n <= limit)%N ->
  iterations limit n w q =
  Circuit.Running World (fst (propagate n w q)) (snd (propagate n w q)) n.
Proof.
  intros Hnever. induction n as [|n IH] using N.peano_ind; intros Hn.
  - reflexivity.
  - rewrite iterations_succ, IH by lia. simpl.
    rewrite propagate_succ.
    destruct (fire (fst (propagate n w q)) (snd (propagate n w q)))
      as [[w' q']|] eqn:Hfire.
    + destruct (N.ltb_spec limit (n + 1)); [lia|]. simpl. f_equal. lia.
    + apply fire_None in Hfire. now apply Hnever in Hfire.
Qed.

(** Once the loop has stopped it stays stopped. *)
Lemma iterations_finished (limit k d : N) (w : World) (q : Circuit.Queue)
    (r : Result (World * N)) :
  iterations limit k w q = Circuit.Finished World r ->
  iterations limit (k + d) w q = Circuit.Finished World r.
Proof.
  intros Hk. induction d as [|d IH] using N.peano_ind.
  - now rewrite N.add_0_r.
  - rewrite N.add_succ_r, iterations_succ, IH. reflexivity.
Qed.

(** The iterations of the loop, one by one: either the loop is still
    running after [n] iterations, on the states of the unbounded
    propagation and with its counter at [n], or it stopped at some iteration
    [k <= n]: with success at the first empty queue, after [k - 1] events, or
    with the step limit error in iteration [limit + 1], whose event raised
    the counter past the limit. *)
Lemma iterations_trace (limit n : N) (w : World) (q : Circuit.Queue) :
  ((n <= limit)%N /\
   forall m, (m <= n)%N ->
     iterations limit m w q =
     Circuit.Running World (fst (propagate m w q)) (snd (propagate m w q)) m) \/
  (exists k r,
     (k <= n)%N /\ (k <= limit + 1)%N /\
     iterations limit k w q = Circuit.Finished World r /\
     (forall m, (m < k)%N ->
        iterations limit m w q =
        Circuit.Running World (fst (propagate m w q)) (snd (propagate m w q)) m) /\
     ((exists j, N.succ j = k /\ r = Ok (fst (propagate j w q), j) /\
                 snd (propagate j w q) = []) \/
      (r = Err StepLimitExceeded /\ k = (limit + 1)%N /\
       snd (propagate limit w q) <> []))).
Proof.
  induction n as [|n IH] using N.peano_ind.
  - left. split; [lia|]. intros m Hm. assert (m = 0%N) as -> by lia. reflexivity.
  - destruct IH as [[Hn Hrun]|(k & r & Hk & Hk' & Hfin & Hbefore & Hres)].
    + pose proof (Hrun n ltac:(lia)) as Hat.
      pose proof (iterations_succ limit n w q) as Hnext. rewrite Hat in Hnext.
      cbn [Circuit.loopStep] in Hnext.
      destruct (fire (fst (propagate n w q)) (snd (propagate n w q)))
        as [[w' q']|] eqn:Hfire.
      * destruct (N.ltb_spec limit (n + 1)) as [Hover|Hunder].
        -- right. exists (N.succ n), (Err StepLimitExceeded).
           split; [lia|]. split; [lia|]. split; [exact Hnext|].
           split; [intros m Hm; apply Hrun; lia|].
           right. split; [reflexivity|]. split; [lia|].
           assert (n = limit) as -> by lia.
           intros Hempty.
           apply (fire_None (fst (propagate limit w q))) in Hempty. congruence.
        -- left. split; [lia|]. intros m Hm.
           destruct (N.eq_dec m (N.succ n)) as [->|Hne]; [|apply Hrun; lia].
           rewrite Hnext, propagate_succ, Hfire. cbn [fst snd]. f_equal. lia.
      * right. exists (N.succ n), (Ok (fst (propagate n w q), n)).
        split; [lia|]. split; [lia|]. split; [exact Hnext|].
        split; [intros m Hm; apply Hrun; lia|].
        left. exists n. split; [reflexivity|]. split; [reflexivity|].
        exact (proj1 (fire_None _ _) Hfire).
    + right. exists k, r. split; [lia|]. now repeat split.
Qed.

End SchedulerFacts.

(** The ring oscillator never stabilizes: its queue always holds the NOT
    gate. *)
Lemma ring_neverStabilizes (w : bool) :
  Circuit.neverStabilizes bool Circuit.ringResolve w [(0, 0%nat)].
Proof.
  intros n.
  assert (exists w' t, Circuit.propagate bool Circuit.ringResolve n w [(0, 0%nat)]
                       = (w', [(t, 0%nat)])) as (w' & t & H).
  { induction n as [|n IH] using N.peano_ind.
    - now exists w, 0.
    - destruct IH as (w' & t & IH).
      rewrite propagate_succ, IH. simpl. eauto. }
  rewrite H. discriminate.
Qed.

(** C6.  For every circuit and every seeded queue, run() returns: its
    result is the result of the first iteration k <= 1,000,001 at which the
    resolve loop has stopped, and in every iteration before it the loop was
    running on the states of the propagation with its step counter equal to
    the number of events resolved.  The loop stops with success only on an
    empty queue, and with an error only in iteration 1,000,001, with
    StepLimitExceeded, when resolving one more event has raised the counter
    past 1,000,000.  So when propagation never stabilizes, run() resolves
    1,000,000 events with the counter within the limit and fails with
    StepLimitExceeded on the next one, neither earlier nor never. *)
Theorem Circuit_run_step_limit (World : Type)
    (resolveElement : nat -> World -> World * list (nat * Z))
    (w : World) (q : Circuit.Queue) :
  Circuit.stepLimit = 1000000%N /\
  (exists k r,
     (k <= Circuit.stepLimit + 1)%N /\
     Circuit.run World resolveElement w q = Some r /\
     Circuit.iterations World resolveElement Circuit.stepLimit k w q =
       Circuit.Finished World r /\
     (forall m, (m < k)%N ->
        Circuit.iterations World resolveElement Circuit.stepLimit m w q =
        Circuit.Running World
          (fst (Circuit.propagate World resolveElement m w q))
          (snd (Circuit.propagate World resolveElement m w q)) m) /\
     (forall w' steps, r = Ok (w', steps) ->
        N.succ steps = k /\
        w' = fst (Circuit.propagate World resolveElement steps w q) /\
        snd (Circuit.propagate World resolveElement steps w q) = []) /\
     (forall e, r = Err e ->
        e = StepLimitExceeded /\ k = (Circuit.stepLimit + 1)%N /\
        snd (Circuit.propagate World resolveElement Circuit.stepLimit w q) <> [])) /\
  (Circuit.neverStabilizes World resolveElement w q ->
   Circuit.run World resolveElement w q = Some (Err StepLimitExceeded) /\
   (forall m, (m <= Circuit.stepLimit)%N ->
      Circuit.iterations World resolveElement Circuit.stepLimit m w q =
      Circuit.Running World
        (fst (Circuit.propagate World resolveElement m w q))
        (snd (Circuit.propagate World resolveElement m w q)) m) /\
   Circuit.iterations World resolveElement Circuit.stepLimit (Circuit.stepLimit + 1) w q =
     Circuit.Finished World (Err StepLimitExceeded)).
Proof.
  split; [reflexivity|].
  unfold Circuit.run. generalize Circuit.stepLimit. intros limit.
  destruct (iterations_trace World resolveElement limit (limit + 1) w q)
    as [[Hle _]|(k & r & Hk & _ & Hfin & Hbefore & Hres)]; [lia|].
  assert (Hend : Circuit.iterations World resolveElement limit (limit + 1) w q =
                 Circuit.Finished World r).
  { replace (limit + 1)%N with (k + (limit + 1 - k))%N by lia.
    now apply iterations_finished. }
  split.
  - exists k, r. split; [exact Hk|]. split; [now rewrite Hend|].
    split; [exact Hfin|]. split; [exact Hbefore|]. split.
    + intros w' steps ->.
      destruct Hres as [(j & Hj & Hr & Hq)|(Hr & _)]; [|discriminate].
      inversion Hr; subst. now repeat split.
    + intros e ->.
      destruct Hres as [(j & _ & Hr & _)|(Hr & Hk' & Hq)]; [discriminate|].
      inversion Hr; subst. now repeat split.
  - intros Hnever.
    assert (Hrun : forall m, (m <= limit)%N ->
              Circuit.iterations World resolveElement limit m w q =
              Circuit.Running World
                (fst (Circuit.propagate World resolveElement m w q))
                (snd (Circuit.propagate World resolveElement m w q)) m)
      by (intros m Hm; now apply iterations_unstable).
    assert (Hr : r = Err StepLimitExceeded).
    { destruct Hres as [(j & Hj & _ & Hq)|(Hr & _)]; [|exact Hr].
      now apply Hnever in Hq. }
    subst r. rewrite Hend. now repeat split.
Qed.

(** The ring oscillator: run() returns, and what it returns is the step
    limit error. *)
Lemma Circuit_run_step_limit_witness :
  Circuit.run bool Circuit.ringResolve true [(0, 0%nat)] = Some (Err StepLimitExceeded).
Proof.
  destruct (Circuit_run_step_limit bool Circuit.ringResolve true [(0, 0%nat)])
    as (_ & _ & H).
  exact (proj1 (H (ring_neverStabilizes true))).
Defined.

(** * Further properties of the sources *)

(** ** Memory: read, write, the constructor and initialize *)

Lemma normalize_length (W : nat) (v : BitString.t) :
  length (Memory.normalize W v) = W.
Proof.
  unfold Memory.normalize, BitString.pad, BitString.truncate.
  rewrite length_app, length_replicate, !length_drop. lia.
Qed.

(** A write at an address inside the memory or exactly at its end stores
    the words, each cut or padded to the word size, where a read of the same
    address and length finds them; it keeps every other word, and the
    capacity grows only by the words that pass the old end. *)
Theorem Memory_write_then_read (m : Memory.t) (address : nat) (value : list BitString.t) :
  (0 < Memory.wordSize m)%nat ->
  (address <= length (Memory.data m))%nat ->
  Memory.read address (length value) (Memory.write address value m) =
    map (Memory.normalize (Memory.wordSize m)) value /\
  length (Memory.data (Memory.write address value m)) =
    Nat.max (length (Memory.data m)) (address + length value) /\
  (forall j, (j < address \/ address + length value <= j)%nat ->
     Memory.data (Memory.write address value m) !! j = Memory.data m !! j) /\
  Memory.wordSize (Memory.write address value m) = Memory.wordSize m.
Proof.
  intros _.
  intros Ha. unfold Memory.read, Memory.write. simpl.
  set (words := map (Memory.normalize (Memory.wordSize m)) value).
  assert (length words = length value) as Hw by apply length_map.
  assert (length (take address (Memory.data m)) = address) as Ht
    by (rewrite length_take; lia).
  repeat split.
  - rewrite drop_app_length' by (symmetry; exact Ht).
    rewrite <- Hw. apply take_app_length.
  - rewrite !length_app, Ht, length_drop, Hw. lia.
  - intros j [Hj|Hj].
    + rewrite lookup_app_l by lia. now apply lookup_take_lt.
    + rewrite lookup_app_r by lia. rewrite lookup_app_r by lia.
      rewrite lookup_drop, Ht, Hw. f_equal. lia.
Qed.

Lemma Memory_write_then_read_witness :
  Memory.read 1 2 (Memory.write 1 [Examples.bits "10"; Examples.bits "11"]
                                (Memory.new 8 2 [])) =
  [Examples.bits "10"; Examples.bits "11"].
Proof.
  apply (Memory_write_then_read (Memory.new 8 2 []) 1
           [Examples.bits "10"; Examples.bits "11"]); simpl; lia.
Defined.

(** A write at an address past the end does not reach that address: the
    words are appended at the old end, where a read finds them, and a read
    of the requested address returns only the words that happen to lie that
    far into the appended block. *)
Theorem Memory_write_past_end_appends (m : Memory.t) (address : nat)
    (value : list BitString.t) :
  (0 < Memory.wordSize m)%nat ->
  (length (Memory.data m) < address)%nat ->
  Memory.data (Memory.write address value m) =
    Memory.data m ++ map (Memory.normalize (Memory.wordSize m)) value /\
  Memory.read (length (Memory.data m)) (length value) (Memory.write address value m) =
    map (Memory.normalize (Memory.wordSize m)) value /\
  Memory.read address (length value) (Memory.write address value m) =
    drop (address - length (Memory.data m))
         (map (Memory.normalize (Memory.wordSize m)) value).
Proof.
  intros _.
  intros Ha. unfold Memory.read, Memory.write. simpl.
  set (words := map (Memory.normalize (Memory.wordSize m)) value).
  assert (length words = length value) as Hw by apply length_map.
  rewrite take_ge by lia. rewrite (drop_ge (Memory.data m)) by lia.
  rewrite app_nil_r. repeat split.
  - rewrite drop_app_length. rewrite <- Hw. now rewrite firstn_all.
  - rewrite drop_app_ge by lia. apply take_ge. rewrite length_drop. lia.
Qed.

Lemma Memory_write_past_end_appends_witness :
  Memory.read 5 1 (Memory.write 5 [Examples.bits "11"] Examples.memory4x2) = [] /\
  Memory.read 4 1 (Memory.write 5 [Examples.bits "11"] Examples.memory4x2) =
    [Examples.bits "11"].
Proof.
  destruct (Memory_write_past_end_appends Examples.memory4x2 5 [Examples.bits "11"])
    as (_ & Hend & Haddr); [simpl; lia|simpl; lia|].
  split; [exact Haddr|exact Hend].
Defined.

Lemma arraySet_lookup_ne (l : list BitString.t) (i j : nat) (x : BitString.t) :
  j <> i -> (i <= length l)%nat -> Memory.arraySet l i x !! j = l !! j.
Proof.
  intros Hj Hi. unfold Memory.arraySet.
  destruct (Nat.ltb_spec i (length l)).
  - apply list_lookup_insert_ne. lia.
  - assert (i = length l) as -> by lia.
    destruct (decide (j < length l)%nat).
    + now apply lookup_app_l.
    + rewrite !lookup_ge_None_2; [reflexivity|lia|rewrite length_app; simpl; lia].
Qed.

Lemma arraySet_length_max (l : list BitString.t) (i : nat) (x : BitString.t) :
  (i <= length l)%nat -> length (Memory.arraySet l i x) = Nat.max (length l) (S i).
Proof.
  intros Hi. unfold Memory.arraySet.
  destruct (Nat.ltb_spec i (length l)).
  - rewrite length_insert. lia.
  - rewrite length_app. simpl. lia.
Qed.

Lemma arraySet_Forall (P : BitString.t -> Prop) (l : list BitString.t) (i : nat)
    (x : BitString.t) :
  Forall P l -> P x -> Forall P (Memory.arraySet l i x).
Proof.
  intros Hl Hx. unfold Memory.arraySet. destruct (i <? length l)%nat.
  - apply Forall_insert; assumption.
  - apply Forall_app. split; [exact Hl|]. now constructor.
Qed.

(** The loop of [initialize] beyond the words it writes: later words are
    kept, the array grows only up to the number of words of the value, and
    every word it stores is [W] bits wide. *)
Lemma initializeLoop_frame (W : nat) (value : BitString.t) (fuel i : nat)
    (data d : list BitString.t) :
  (0 < W)%nat ->
  (W | length value)%nat ->
  (i * W <= length value)%nat ->
  (i <= length data)%nat ->
  Memory.initializeLoop fuel W (BitString.toString value) (i * W) i data = Some (Ok d) ->
  (forall j, (length value / W <= j)%nat -> d !! j = data !! j) /\
  length d = Nat.max (length data) (length value / W) /\
  (Forall (fun word => length word = W) data -> Forall (fun word => length word = W) d).
Proof.
  intros HW [k Hk]. revert i data.
  induction fuel as [|fuel IH]; intros i data Hi Hdata; simpl;
    rewrite toString_length.
  - destruct (Nat.ltb_spec (i * W) (length value)); [discriminate|].
    intros Hd. inversion Hd; subst d.
    assert (length value / W = i)%nat as Hq
      by (replace (length value) with (i * W)%nat by lia; apply Nat.div_mul; lia).
    rewrite Hq. repeat split; [lia|tauto].
  - destruct (Nat.ltb_spec (i * W) (length value)) as [Hlt|Hge].
    + rewrite substring_toString, new_toString.
      replace (i * W + W)%nat with (S i * W)%nat by (simpl; lia).
      assert (i < k)%nat as Hik by nia.
      assert (length value / W = k)%nat as Hq by (rewrite Hk; apply Nat.div_mul; lia).
      intros Hd.
      destruct (IH (S i) _ ltac:(simpl; nia)
                   ltac:(rewrite arraySet_length_max by exact Hdata; lia) Hd)
        as (Hkeep & Hlen & Hwide).
      rewrite Hq in *. split; [|split].
      * intros j Hj. rewrite Hkeep by exact Hj.
        apply arraySet_lookup_ne; [lia|exact Hdata].
      * rewrite Hlen, arraySet_length_max by exact Hdata. lia.
      * intros Hall. apply Hwide, arraySet_Forall; [exact Hall|].
        rewrite length_take, length_drop. nia.
    + intros Hd. inversion Hd; subst d.
      assert (length value / W = i)%nat as Hq
        by (replace (length value) with (i * W)%nat by lia; apply Nat.div_mul; lia).
      rewrite Hq. repeat split; [lia|tauto].
Qed.

(** A successful [initialize] overwrites only the first width/W words:
    every later word keeps its contents, and the capacity grows only when
    the value holds more words than the memory. *)
Theorem Memory_initialize_keeps_later_words (m m' : Memory.t) (value : BitString.t) :
  Memory.initialize value m = Some (Ok m') ->
  (0 < Memory.wordSize m)%nat /\
  (Memory.wordSize m | BitString.getWidth value)%nat /\
  (forall j, (BitString.getWidth value / Memory.wordSize m <= j)%nat ->
     Memory.data m' !! j = Memory.data m !! j) /\
  length (Memory.data m') =
    Nat.max (length (Memory.data m)) (BitString.getWidth value / Memory.wordSize m).
Proof.
  unfold Memory.initialize, Memory.remainderNonZero, BitString.getWidth.
  destruct (Nat.eqb_spec (Memory.wordSize m) 0) as [|HW]; [discriminate|].
  destruct (Nat.eqb_spec (length value mod Memory.wordSize m) 0) as [Hmod|];
    [|discriminate].
  simpl. rewrite toString_length.
  destruct (Memory.initializeLoop _ _ _ _ _ _) as [[d|e]|] eqn:Hloop; try discriminate.
  intros Hm'. inversion Hm'; subst m'. simpl.
  assert (Memory.wordSize m | length value)%nat as Hdiv
    by (apply Nat.Lcm0.mod_divide; exact Hmod).
  destruct (initializeLoop_frame (Memory.wordSize m) value (length value) 0
              (Memory.data m) d) as (Hkeep & Hlen & _);
    [lia|exact Hdiv|simpl; lia|lia|exact Hloop|].
  repeat split; [lia|exact Hdiv|exact Hkeep|exact Hlen].
Qed.

Lemma Memory_initialize_keeps_later_words_witness :
  exists m',
    Memory.initialize (Examples.bits "10") Examples.memory4x2 = Some (Ok m') /\
    length (Memory.data m') = 4%nat /\
    Memory.data m' !! 1%nat = Some (Examples.bits "00").
Proof.
  eexists. split; [reflexivity|].
  destruct (Memory_initialize_keeps_later_words Examples.memory4x2 _
              (Examples.bits "10") eq_refl) as (_ & _ & Hkeep & Hlen).
  split; [exact Hlen|]. exact (Hkeep 1%nat ltac:(simpl; lia)).
Defined.

(** The words the constructor leaves in the array. *)
Lemma new_data (size wordSize : nat) (initialData : list BitString.t) :
  length (Memory.data (Memory.new size wordSize initialData)) =
    Nat.max size (length initialData) /\
  (forall j v, initialData !! j = Some v ->
     Memory.data (Memory.new size wordSize initialData) !! j =
     Some (Memory.normalize wordSize v)) /\
  (forall j, (length initialData <= j < size)%nat ->
     Memory.data (Memory.new size wordSize initialData) !! j =
     Some (BitString.low wordSize)).
Proof.
  unfold Memory.new. simpl.
  assert (H : forall (l d : list BitString.t) (k : nat),
            (k <= length d)%nat ->
            let d' := fold_left
                        (fun d '(index, value) =>
                           Memory.arraySet d index (Memory.normalize wordSize value))
                        (imap (fun index value => ((k + index)%nat, value)) l) d in
            length d' = Nat.max (length d) (k + length l) /\
            (forall j v, l !! j = Some v ->
               d' !! (k + j)%nat = Some (Memory.normalize wordSize v)) /\
            (forall j, (j < k \/ k + length l <= j)%nat -> d' !! j = d !! j)).
  { induction l as [|x l IH]; intros d k Hk; simpl.
    - split; [lia|]. split; [intros j v Hj; discriminate|reflexivity].
    - rewrite Nat.add_0_r.
      rewrite (imap_ext _ (fun index value => ((S k + index)%nat, value)))
        by (intros; unfold compose; f_equal; lia).
      destruct (IH (Memory.arraySet d k (Memory.normalize wordSize x)) (S k)
                  ltac:(rewrite arraySet_length_max by exact Hk; lia))
        as (Hlen & Hin & Hout).
      split; [|split].
      + rewrite Hlen, arraySet_length_max by exact Hk. lia.
      + intros [|j] v Hj; simpl in Hj.
        * inversion Hj; subst. rewrite Nat.add_0_r, Hout by lia.
          now apply arraySet_lookup_eq.
        * replace (k + S j)%nat with (S k + j)%nat by lia. now apply Hin.
      + intros j Hj. rewrite Hout by lia. apply arraySet_lookup_ne; lia. }
  specialize (H initialData (replicate size (BitString.low wordSize)) 0%nat
                ltac:(lia)).
  simpl in H. destruct H as (Hlen & Hin & Hout).
  rewrite length_replicate in Hlen. split; [exact Hlen|]. split.
  - exact Hin.
  - intros j Hj. rewrite Hout by lia. apply lookup_replicate_2. lia.
Qed.

(** The constructor: a memory of positive word size holds [size] words,
    or as many as the initial data when that is longer; word j is the j-th
    initial word cut or padded to the word size, and all zeros past the
    initial data. *)
Theorem Memory_new_contents (size wordSize : nat) (initialData : list BitString.t) :
  (0 < wordSize)%nat ->
  length (Memory.data (Memory.new size wordSize initialData)) =
    Nat.max size (length initialData) /\
  (forall j v, initialData !! j = Some v ->
     Memory.data (Memory.new size wordSize initialData) !! j =
     Some (Memory.normalize wordSize v)) /\
  (forall j, (length initialData <= j < size)%nat ->
     Memory.data (Memory.new size wordSize initialData) !! j =
     Some (BitString.low wordSize)).
Proof.
  intros _. apply new_data.
Qed.

Lemma Memory_new_contents_witness :
  length (Memory.data (Memory.new 4 2 [Examples.bits "1"; Examples.bits "110"])) =
    Nat.max 4 (length [Examples.bits "1"; Examples.bits "110"]) /\
  (forall j v, [Examples.bits "1"; Examples.bits "110"] !! j = Some v ->
     Memory.data (Memory.new 4 2 [Examples.bits "1"; Examples.bits "110"]) !! j =
     Some (Memory.normalize 2 v)) /\
  (forall j, (length [Examples.bits "1"; Examples.bits "110"] <= j < 4)%nat ->
     Memory.data (Memory.new 4 2 [Examples.bits "1"; Examples.bits "110"]) !! j =
     Some (BitString.low 2)).
Proof.
  apply (Memory_new_contents 4 2 [Examples.bits "1"; Examples.bits "110"]). lia.
Defined.

(** Every operation of a memory of positive word size keeps the words
    exactly [wordSize] bits wide: the constructor establishes it, and
    [write] and a successful [initialize] preserve it. *)
Theorem Memory_words_keep_wordSize :
  (forall size wordSize initialData,
     (0 < wordSize)%nat ->
     wordsHaveWordSize (Memory.new size wordSize initialData)) /\
  (forall m address value,
     (0 < Memory.wordSize m)%nat ->
     wordsHaveWordSize m -> wordsHaveWordSize (Memory.write address value m)) /\
  (forall m m' value,
     wordsHaveWordSize m -> Memory.initialize value m = Some (Ok m') ->
     wordsHaveWordSize m').
Proof.
  unfold wordsHaveWordSize, BitString.getWidth. split; [|split].
  - intros size wordSize initialData _.
    destruct (new_data size wordSize initialData) as (Hlen & Hin & Hout).
    apply Forall_lookup. intros j w Hj. simpl.
    destruct (initialData !! j) as [v|] eqn:Hv.
    + rewrite (Hin j v Hv) in Hj. inversion Hj. apply normalize_length.
    + apply lookup_ge_None_1 in Hv.
      pose proof (lookup_lt_Some _ _ _ Hj) as Hlt. rewrite Hlen in Hlt.
      rewrite Hout in Hj by lia. inversion Hj. apply length_replicate.
  - intros m address value _ Hm. unfold Memory.write. simpl.
    apply Forall_app. split; [now apply Forall_take|].
    apply Forall_app. split; [|now apply Forall_drop].
    apply Forall_forall. intros w Hw.
    apply list_elem_of_fmap in Hw as (v & -> & _). apply normalize_length.
  - intros m m' value Hm. unfold Memory.initialize, Memory.remainderNonZero, BitString.getWidth.
    destruct (Nat.eqb_spec (Memory.wordSize m) 0) as [|HW]; [discriminate|].
    destruct (Nat.eqb_spec (length value mod Memory.wordSize m) 0) as [Hmod|];
      [|discriminate].
    simpl. rewrite toString_length.
    destruct (Memory.initializeLoop _ _ _ _ _ _) as [[d|e]|] eqn:Hloop; try discriminate.
    intros Hm'. inversion Hm'; subst m'. simpl.
    destruct (initializeLoop_frame (Memory.wordSize m) value (length value) 0
                (Memory.data m) d) as (_ & _ & Hwide);
      [lia|apply Nat.Lcm0.mod_divide; exact Hmod|simpl; lia|lia|exact Hloop|].
    exact (Hwide Hm).
Qed.

Lemma Memory_words_keep_wordSize_witness :
  wordsHaveWordSize
    (Memory.write 1 [Examples.bits "1"; Examples.bits "10110"] Examples.memory4x2).
Proof.
  apply (proj1 (proj2 Memory_words_keep_wordSize)); [simpl; lia|].
  apply (proj1 Memory_words_keep_wordSize). lia.
Defined.

(** ** Splitter: the remaining behaviour of resolve, reset and getOutputs *)

(** When both sides of a splitter are set, #areConsistent returns false
    and the narrow buses carry stamps of -1 or later, resolve() raises the
    contention error exactly when the wide bus carries the stamp -1: with
    equal stamps of 0 or more on the two sides it never does.  With a wide
    stamp after -1 it combines the narrow values if they differ from those on
    the buses at the end of the last resolve that recorded them (or none
    has, since the constructor or the last reset) and splits the wide value
    otherwise. *)
Theorem Splitter_contention_iff_wide_unstamped (now : Z) (s : Splitter.t)
    (r : option Recording) (wide : BitString.t) :
  recorded s r ->
  CircuitBus.getValue (Splitter.input s) = Some wide ->
  Splitter.nullOutputs (map CircuitBus.getValue (Splitter.outputs s)) = false ->
  Splitter.areConsistent s wide (map CircuitBus.getValue (Splitter.outputs s)) = Ok false ->
  Forall (fun b => -1 <= CircuitBus.getLastUpdate b) (Splitter.outputs s) ->
  (Splitter.resolve now s = Err SplitterContention <->
     CircuitBus.getLastUpdate (Splitter.input s) = -1) /\
  (-1 < CircuitBus.getLastUpdate (Splitter.input s) ->
     Splitter.resolve now s =
     if narrowChanged r (map CircuitBus.getValue (Splitter.outputs s))
     then let* s' := Splitter.propIn now s in Ok (Splitter.remember s')
     else let* s' := Splitter.propOut now wide s in Ok (Splitter.remember s')).
Proof.
  intros Hrec Hv Hnull Hcons Hstamps.
  destruct (resolve_inconsistent_by_stamps now s wide Hv Hnull Hcons) as (Hiff & Hgt & _).
  rewrite (earliestOutput_unset s Hstamps) in Hiff, Hgt.
  rewrite (outputsChanged_recorded s r _ Hrec) in Hgt.
  split; [exact Hiff|]. intros Hlater. apply Hgt. lia.
Qed.

(** Both sides set at time 3 to values that disagree: no contention. *)
Lemma Splitter_contention_iff_wide_unstamped_witness :
  Splitter.resolve 7 equalStamps <> Err SplitterContention.
Proof.
  destruct (Splitter_contention_iff_wide_unstamped 7 equalStamps None
              (Examples.bits "0000")) as (Hiff & _).
  - apply (recorded_new [2; 2]%nat (Splitter.input equalStamps)
             (Splitter.outputs equalStamps) None). reflexivity.
  - reflexivity.
  - reflexivity.
  - reflexivity.
  - repeat constructor; simpl; lia.
  - intros H. apply Hiff in H. discriminate H.
Defined.

Lemma fmap_insert_same {A B} (f : A -> B) (l : list A) (i : nat) (x y : A) :
  l !! i = Some x -> f y = f x -> f <$> <[i := y]> l = f <$> l.
Proof.
  intros Hx Hf. rewrite list_fmap_insert, Hf.
  apply list_insert_id. now rewrite list_lookup_fmap, Hx.
Qed.

Lemma propOutLoop_widths now sp wide ss off outs outs' :
  Splitter.propOutLoop now sp wide ss off outs = Ok outs' ->
  CircuitBus.getWidth <$> outs' = CircuitBus.getWidth <$> outs.
Proof.
  revert off outs. induction ss as [|s ss IH]; intros off outs; simpl.
  - intros H. now inversion H.
  - destruct (sp !! _); [|discriminate].
    destruct (outs !! _) as [b|] eqn:Hb; [|discriminate].
    intros H. rewrite (IH _ _ H).
    apply (fmap_insert_same _ _ _ b); [exact Hb|apply setValue_width].
Qed.

Lemma propOutMappedLoop_widths now n bm wide ss outs outs' :
  Splitter.propOutMappedLoop now n bm wide ss outs = Ok outs' ->
  CircuitBus.getWidth <$> outs' = CircuitBus.getWidth <$> outs.
Proof.
  revert outs. induction ss as [|s ss IH]; intros outs; simpl.
  - intros H. now inversion H.
  - destruct (bm !! _); [|discriminate].
    destruct (outs !! _) as [b|] eqn:Hb; [|discriminate].
    destruct (BitString.new _ None); [|discriminate]. simpl.
    intros H. rewrite (IH _ H).
    apply (fmap_insert_same _ _ _ b); [exact Hb|apply setValue_width].
Qed.

(** What propOut and propIn leave alone. *)
Lemma propOut_frame now wide s s' :
  Splitter.propOut now wide s = Ok s' ->
  Splitter.split s' = Splitter.split s /\
  Splitter.bitMappings s' = Splitter.bitMappings s /\
  Splitter.input s' = Splitter.input s /\
  CircuitBus.getWidth <$> Splitter.outputs s' = CircuitBus.getWidth <$> Splitter.outputs s /\
  Splitter.lastOp s' = Some Splitter.PropOut.
Proof.
  unfold Splitter.propOut.
  destruct (Splitter.bitMappings s) as [bm|] eqn:Hbm.
  - destruct (Splitter.propOutMappedLoop _ _ _ _ _ _) eqn:Hloop; [|discriminate].
    simpl. intros H. inversion H; subst s'. simpl.
    repeat split; [now rewrite Hbm|eapply propOutMappedLoop_widths; exact Hloop].
  - destruct (Splitter.propOutLoop _ _ _ _ _ _) eqn:Hloop; [|discriminate].
    simpl. intros H. inversion H; subst s'. simpl.
    repeat split; [now rewrite Hbm|eapply propOutLoop_widths; exact Hloop].
Qed.

Lemma propIn_frame now s s' :
  Splitter.propIn now s = Ok s' ->
  Splitter.split s' = Splitter.split s /\
  Splitter.bitMappings s' = Splitter.bitMappings s /\
  Splitter.outputs s' = Splitter.outputs s /\
  CircuitBus.getWidth (Splitter.input s') = CircuitBus.getWidth (Splitter.input s) /\
  Splitter.lastOp s' = Some Splitter.PropIn.
Proof.
  unfold Splitter.propIn.
  destruct (match Splitter.bitMappings s with Some _ => _ | None => _ end);
    [|discriminate].
  simpl. destruct (BitString.new _ None); [|discriminate]. simpl.
  intros H. inversion H; subst s'. simpl.
  repeat split. apply setValue_width.
Qed.

(** resolve() never changes the shape of a splitter: the split widths, the
    bit mappings, the number of narrow buses and every bus width stay as
    they were, whichever way it propagates. *)
Theorem Splitter_resolve_keeps_shape (now : Z) (s s' : Splitter.t) :
  Splitter.resolve now s = Ok s' ->
  Splitter.split s' = Splitter.split s /\
  Splitter.bitMappings s' = Splitter.bitMappings s /\
  CircuitBus.getWidth (Splitter.input s') = CircuitBus.getWidth (Splitter.input s) /\
  CircuitBus.getWidth <$> Splitter.outputs s' = CircuitBus.getWidth <$> Splitter.outputs s /\
  length (Splitter.outputs s') = length (Splitter.outputs s).
Proof.
  intros Hres.
  assert (Hshape : Splitter.split s' = Splitter.split s /\
            Splitter.bitMappings s' = Splitter.bitMappings s /\
            CircuitBus.getWidth (Splitter.input s') = CircuitBus.getWidth (Splitter.input s) /\
            CircuitBus.getWidth <$> Splitter.outputs s' =
              CircuitBus.getWidth <$> Splitter.outputs s).
  { assert (Hout : forall wide r, (let* x := Splitter.propOut now wide s in
                                   Ok (Splitter.remember x)) = Ok r ->
              Splitter.split r = Splitter.split s /\
              Splitter.bitMappings r = Splitter.bitMappings s /\
              CircuitBus.getWidth (Splitter.input r) = CircuitBus.getWidth (Splitter.input s) /\
              CircuitBus.getWidth <$> Splitter.outputs r =
                CircuitBus.getWidth <$> Splitter.outputs s).
    { intros wide r. destruct (Splitter.propOut now wide s) as [x|] eqn:Hx;
        [|discriminate].
      simpl. intros H. inversion H; subst r. simpl.
      destruct (propOut_frame _ _ _ _ Hx) as (H1 & H2 & H3 & H4 & _).
      now rewrite H3. }
    assert (Hin : forall r, (let* x := Splitter.propIn now s in
                             Ok (Splitter.remember x)) = Ok r ->
              Splitter.split r = Splitter.split s /\
              Splitter.bitMappings r = Splitter.bitMappings s /\
              CircuitBus.getWidth (Splitter.input r) = CircuitBus.getWidth (Splitter.input s) /\
              CircuitBus.getWidth <$> Splitter.outputs r =
                CircuitBus.getWidth <$> Splitter.outputs s).
    { intros r. destruct (Splitter.propIn now s) as [x|] eqn:Hx; [|discriminate].
      simpl. intros H. inversion H; subst r. simpl.
      destruct (propIn_frame _ _ _ Hx) as (H1 & H2 & H3 & H4 & _).
      now rewrite H3. }
    revert Hres. unfold Splitter.resolve, Splitter.getValues.
    destruct (CircuitBus.getValue (Splitter.input s)) as [wide|].
    - destruct (Splitter.nullOutputs _); [apply Hout|].
      destruct (Splitter.areConsistent _ _ _) as [[|]|]; simpl; [| |discriminate].
      + intros H. inversion H; subst s'. now simpl.
      + repeat match goal with
               | |- context [if ?c then _ else _] => destruct c
               end; try apply Hout; try apply Hin; try discriminate.
        simpl. intros H. inversion H; subst s'. now simpl.
    - destruct (negb _); [apply Hin|].
      intros H. inversion H; subst s'. tauto. }
  destruct Hshape as (H1 & H2 & H3 & H4). repeat split; try assumption.
  now rewrite <- (length_fmap CircuitBus.getWidth), H4, length_fmap.
Qed.

Lemma Splitter_resolve_keeps_shape_witness :
  exists s',
    Splitter.resolve 7 Examples.wide1011 = Ok s' /\
    CircuitBus.getWidth <$> Splitter.outputs s' = [2; 2]%nat.
Proof.
  eexists. split; [reflexivity|].
  exact (proj1 (proj2 (proj2 (proj2
           (Splitter_resolve_keeps_shape 7 Examples.wide1011 _ eq_refl))))).
Defined.

(** getOutputs() follows the direction resolve() took.  With the wide bus
    unset and every narrow bus set, resolve combines: the narrow buses are
    left as they were and getOutputs returns the wide bus alone.  With the
    wide bus set and some narrow bus unset, resolve splits: the wide bus is
    left as it was and getOutputs returns the narrow buses.  With the wide
    bus and some narrow bus unset, resolve changes nothing at all. *)
Theorem Splitter_getOutputs_after_resolve (now : Z) (s s' : Splitter.t) :
  Splitter.resolve now s = Ok s' ->
  (CircuitBus.getValue (Splitter.input s) = None ->
   Splitter.nullOutputs (map CircuitBus.getValue (Splitter.outputs s)) = false ->
   Splitter.getOutputs s' = [Splitter.input s'] /\
   Splitter.outputs s' = Splitter.outputs s) /\
  (CircuitBus.getValue (Splitter.input s) <> None ->
   Splitter.nullOutputs (map CircuitBus.getValue (Splitter.outputs s)) = true ->
   Splitter.getOutputs s' = Splitter.outputs s' /\
   Splitter.input s' = Splitter.input s) /\
  (CircuitBus.getValue (Splitter.input s) = None ->
   Splitter.nullOutputs (map CircuitBus.getValue (Splitter.outputs s)) = true ->
   s' = s).
Proof.
  unfold Splitter.resolve, Splitter.getValues. intros Hres.
  destruct (CircuitBus.getValue (Splitter.input s)) as [wide|];
    destruct (Splitter.nullOutputs _); cbn [negb] in Hres;
    (split; [|split]); intros H1 H2; try discriminate; try contradiction.
  - destruct (Splitter.propOut now wide s) as [x|] eqn:Hx; [|discriminate].
    simpl in Hres. inversion Hres; subst s'.
    destruct (propOut_frame _ _ _ _ Hx) as (_ & _ & Hin & _ & Hop).
    unfold Splitter.getOutputs. simpl. rewrite Hop. now split.
  - now inversion Hres.
  - destruct (Splitter.propIn now s) as [x|] eqn:Hx; [|discriminate].
    simpl in Hres. inversion Hres; subst s'.
    destruct (propIn_frame _ _ _ Hx) as (_ & _ & Hout & _ & Hop).
    unfold Splitter.getOutputs. simpl. rewrite Hop. now split.
Qed.

Lemma Splitter_getOutputs_after_resolve_witness :
  exists s',
    Splitter.resolve 7 Examples.narrow11and10 = Ok s' /\
    Splitter.getOutputs s' = [Splitter.input s'].
Proof.
  eexists. split; [reflexivity|].
  destruct (Splitter_getOutputs_after_resolve 7 Examples.narrow11and10 _ eq_refl)
    as (Hin & _).
  exact (proj1 (Hin eq_refl eq_refl)).
Defined.

(** reset() leaves every bus of the splitter unset and forgets the last
    direction, so getOutputs returns the narrow buses again; a resolve right
    after a reset of a splitter with at least one narrow bus changes
    nothing. *)
Theorem Splitter_reset_then_resolve (now : Z) (s : Splitter.t) :
  (0 < length (Splitter.outputs s))%nat ->
  CircuitBus.getValue (Splitter.input (Splitter.reset s)) = None /\
  Forall (fun b => CircuitBus.getValue b = None) (Splitter.outputs (Splitter.reset s)) /\
  Splitter.getOutputs (Splitter.reset s) = Splitter.outputs (Splitter.reset s) /\
  Splitter.resolve now (Splitter.reset s) = Ok (Splitter.reset s).
Proof.
  intros Hn.
  assert (Hvals : Forall (fun b => CircuitBus.getValue b = None)
                         (Splitter.outputs (Splitter.reset s))).
  { simpl. apply Forall_fmap, Forall_forall. intros b _. apply setValue_value. }
  repeat split; [apply setValue_value|exact Hvals|].
  unfold Splitter.resolve, Splitter.getValues.
  replace (CircuitBus.getValue (Splitter.input (Splitter.reset s))) with (@None BitString.t)
    by (symmetry; apply setValue_value).
  replace (Splitter.nullOutputs _) with true; [reflexivity|].
  symmetry. unfold Splitter.nullOutputs. apply existsb_exists.
  destruct (Splitter.outputs (Splitter.reset s)) as [|b l] eqn:Hl.
  - apply (f_equal length) in Hl. simpl in Hl. rewrite length_map in Hl. lia.
  - exists (CircuitBus.getValue b). split; [now left|].
    inversion Hvals as [|? ? Hb _]; subst. now rewrite Hb.
Qed.

Lemma Splitter_reset_then_resolve_witness :
  Splitter.resolve 7 (Splitter.reset Examples.wide1011) = Ok (Splitter.reset Examples.wide1011).
Proof.
  apply (Splitter_reset_then_resolve 7 Examples.wide1011). simpl. lia.
Defined.

(** ** Splitter: propIn in contiguous mode *)

Lemma pieces_are_bits (outs : list CircuitBus.t) (l : list nat) :
  exists bs,
    foldr (fun i acc => append (SplitterSpec.piece outs i) acc) EmptyString l =
    BitString.toString bs.
Proof.
  induction l as [|i l [bs IH]]; simpl.
  - now exists [].
  - rewrite IH. unfold SplitterSpec.piece.
    destruct (outs !! i) as [b|]; [destruct (CircuitBus.getValue b) as [v|]|];
      eexists; rewrite <- ?toString_app; reflexivity.
Qed.

Section PropInOutcome.

Variables (sp : list nat) (outs : list CircuitBus.t).
Hypothesis Hlen : length outs = length sp.

Abbreviation mismatch := (widthMismatch sp outs).

Lemma propInLoop_outcome (ss : list nat) (newOut : string) :
  Forall (fun s => (s < length sp)%nat) ss ->
  (Exists (fun s => mismatch (length sp - 1 - s)) ss /\
   Splitter.propInLoop sp outs ss newOut = Err BusWidthError) \/
  (Forall (fun s => ~ mismatch (length sp - 1 - s)) ss /\
   Splitter.propInLoop sp outs ss newOut =
   Ok (append newOut
         (foldr (fun i acc => append (SplitterSpec.piece outs i) acc) EmptyString
                (map (fun s => (length sp - 1 - s)%nat) ss)))).
Proof.
  intros Hss. revert newOut. induction Hss as [|s ss Hs Hss IH]; intros newOut.
  - right. split; [constructor|]. simpl. now rewrite append_nil_r.
  - simpl.
    destruct (lookup_lt_is_Some_2 sp (length sp - 1 - s)) as [w Hw]; [lia|].
    destruct (lookup_lt_is_Some_2 outs (length sp - 1 - s)) as [b Hb]; [lia|].
    rewrite Hw, Hb.
    destruct (Nat.eqb_spec (CircuitBus.getWidth b) w) as [Heq|Hne]; simpl.
    + destruct (IH (append newOut
                      match CircuitBus.getValue b with
                      | Some val => BitString.toString val
                      | None => BitString.toString (BitString.low (CircuitBus.getWidth b))
                      end)) as [[Hex Herr]|[Hall Hok]].
      * left. split; [now apply Exists_cons_tl|exact Herr].
      * right. split.
        -- constructor; [|exact Hall].
           intros (b' & w' & Hb' & Hw' & Hneq). congruence.
        -- rewrite Hok, append_assoc. unfold SplitterSpec.piece at 2.
           now rewrite Hb.
    + left. split; [|reflexivity].
      apply Exists_cons_hd. now exists b, w.
Qed.

End PropInOutcome.

(** In contiguous mode, on a splitter with at least one port and positive
    split widths, propIn has one way to fail: it raises the bus width error
    exactly when some narrow bus is not as wide as its split width.
    Otherwise it sets the wide bus to the narrow values concatenated from the
    last port down to port 0, an unset port contributing zeros of its bus
    width. *)
Theorem Splitter_propIn_contiguous_outcome (now : Z) (s : Splitter.t) :
  Splitter.bitMappings s = None ->
  length (Splitter.outputs s) = length (Splitter.split s) ->
  Splitter.split s <> [] ->
  Forall (fun w => (0 < w)%nat) (Splitter.split s) ->
  (forall e, Splitter.propIn now s = Err e -> e = BusWidthError) /\
  (Splitter.propIn now s = Err BusWidthError <->
   exists i b w,
     Splitter.outputs s !! i = Some b /\ Splitter.split s !! i = Some w /\
     CircuitBus.getWidth b <> w) /\
  (forall s', Splitter.propIn now s = Ok s' ->
     exists v,
       CircuitBus.getValue (Splitter.input s') = Some v /\
       BitString.toString v =
       foldr (fun i acc => append (SplitterSpec.piece (Splitter.outputs s) i) acc)
             EmptyString (rev (seq 0 (length (Splitter.split s))))).
Proof.
  intros Hbm Hlen _ _. unfold Splitter.propIn. rewrite Hbm.
  destruct (propInLoop_outcome (Splitter.split s) (Splitter.outputs s) Hlen
              (seq 0 (length (Splitter.split s))) EmptyString)
    as [[Hex Herr]|[Hall Hok]]; [apply Forall_seq; intros; lia| |].
  - rewrite Herr. simpl. split; [|split].
    + intros e He. now inversion He.
    + split; [intros _|reflexivity].
      apply Exists_exists in Hex as (k & _ & Hk). eauto.
    + discriminate.
  - rewrite Hok, reversed_indices by lia.
    replace (length (Splitter.split s) - 0 - length (Splitter.split s))%nat
      with 0%nat by lia.
    destruct (pieces_are_bits (Splitter.outputs s)
                (rev (seq 0 (length (Splitter.split s))))) as [bs Hbs].
    simpl. rewrite Hbs, new_toString. simpl. split; [|split].
    + discriminate.
    + split; [discriminate|].
      intros (i & b & w & Hb & Hw & Hne). exfalso.
      assert (i < length (Splitter.split s))%nat as Hi
        by exact (lookup_lt_Some _ _ _ Hw).
      rewrite Forall_forall in Hall.
      apply (Hall (length (Splitter.split s) - 1 - i)%nat).
      * apply list_elem_of_In, in_seq. lia.
      * replace (length (Splitter.split s) - 1 - (length (Splitter.split s) - 1 - i))%nat
          with i by lia.
        now exists b, w.
    + intros s' Hs'. inversion Hs'; subst s'. exists bs. split; [|reflexivity].
      exact (setValue_value _ _ _).
Qed.

Lemma Splitter_propIn_contiguous_outcome_witness :
  Splitter.propIn 7 Examples.mismatched = Err BusWidthError.
Proof.
  destruct (Splitter_propIn_contiguous_outcome 7 Examples.mismatched)
    as (_ & Hiff & _);
    [reflexivity|reflexivity|discriminate|repeat constructor|].
  apply Hiff. exists 0%nat, (CircuitBus.new 1), 2%nat.
  repeat split. simpl. lia.
Defined.

(** ** Splitter: bit-mapping mode *)

Lemma gather_toString (input : BitString.t) (bitIndices : list nat) :
  Splitter.gather input bitIndices = BitString.toString (gatherBits input bitIndices).
Proof.
  unfold Splitter.gather, gatherBits. induction (rev bitIndices) as [|b l IH]; simpl;
    [reflexivity|].
  now rewrite IH, toString_app.
Qed.

Lemma gatherBits_in_range (wide : BitString.t) (bitIndices : list nat) :
  Forall (fun b => (b < length wide)%nat) bitIndices ->
  gatherBits wide bitIndices = map (lsbBit wide) (rev bitIndices).
Proof.
  intros Hall. unfold gatherBits, BitString.getWidth.
  assert (Forall (fun b => (b < length wide)%nat) (rev bitIndices)) as Hrev
    by (apply Forall_forall; intros b Hb; rewrite Forall_forall in Hall;
        apply Hall; apply list_elem_of_In; apply list_elem_of_In, in_rev in Hb;
        exact Hb).
  induction Hrev as [|b l Hb Hl IH]; simpl; [reflexivity|].
  rewrite IH.
  replace (Z.of_nat (length wide) - 1 - Z.of_nat b)
    with (Z.of_nat (length wide - 1 - b)) by lia.
  replace (Z.of_nat (length wide - 1 - b) + 1)
    with (Z.of_nat (length wide - 1 - b + 1)) by lia.
  rewrite substring_take_drop.
  destruct (lookup_lt_is_Some_2 wide (length wide - 1 - b)) as [x Hx]; [lia|].
  rewrite (drop_S _ _ _ Hx). simpl. f_equal.
  symmetry. exact (f_equal (default false) Hx).
Qed.

Section MappedOut.

Variables (now : Z) (n : nat) (bm : list (list nat)) (wide : BitString.t).
Hypothesis Hbm : length bm = n.

(** In bit-mapping mode the loop of propOut never fails on a well-shaped
    splitter: every port it visits ends up carrying the gathered bits of its
    mapping, and the other ports are untouched. *)
Lemma propOutMappedLoop_values (ss : list nat) (outs : list CircuitBus.t) :
  Forall (fun s => (s < n)%nat) ss ->
  length outs = n ->
  exists outs',
    Splitter.propOutMappedLoop now n bm wide ss outs = Ok outs' /\
    length outs' = n /\
    forall i,
      (i ∈ map (fun s => (n - 1 - s)%nat) ss ->
       exists b bitIndices,
         outs' !! i = Some b /\ bm !! i = Some bitIndices /\
         CircuitBus.getValue b = Some (gatherBits wide bitIndices)) /\
      (i ∉ map (fun s => (n - 1 - s)%nat) ss -> outs' !! i = outs !! i).
Proof.
  intros Hss. revert outs. induction Hss as [|s ss Hs Hss IH]; intros outs Hlen.
  - exists outs. split; [reflexivity|]. split; [exact Hlen|].
    intros i. split; [intros Hi; inversion Hi|reflexivity].
  - simpl.
    destruct (lookup_lt_is_Some_2 bm (n - 1 - s)) as [bi Hbi]; [lia|].
    destruct (lookup_lt_is_Some_2 outs (n - 1 - s)) as [b Hb]; [lia|].
    rewrite Hbi, Hb, gather_toString, new_toString. simpl.
    destruct (IH (<[(n - 1 - s)%nat :=
                     CircuitBus.setValue (Some (gatherBits wide bi)) now b]> outs))
      as (outs' & Hloop & Hlen' & Hports); [now rewrite length_insert|].
    exists outs'. split; [exact Hloop|]. split; [exact Hlen'|].
    intros i. split.
    + intros Hi.
      destruct (decide (i ∈ map (fun s0 => (n - 1 - s0)%nat) ss)) as [Hin|Hnot].
      * exact (proj1 (Hports i) Hin).
      * apply elem_of_cons in Hi as [->|Hi]; [|contradiction].
        rewrite (proj2 (Hports _) Hnot).
        rewrite list_lookup_insert_eq by lia.
        eexists _, bi. split; [reflexivity|]. split; [exact Hbi|].
        apply setValue_value.
    + intros Hi. apply not_elem_of_cons in Hi as [Hne Hnot].
      rewrite (proj2 (Hports i) Hnot). now apply list_lookup_insert_ne.
Qed.

(** The loop of [#areConsistent] over ports that all carry the gathered
    bits of their mappings. *)
Lemma areConsistentLoop_gathered (ss : list nat) (vals : list (option BitString.t)) :
  Forall (fun s => (s < n)%nat) ss ->
  (forall i, (i < n)%nat ->
     exists bitIndices,
       bm !! i = Some bitIndices /\ vals !! i = Some (Some (gatherBits wide bitIndices))) ->
  Splitter.areConsistentLoop n bm wide vals ss = Ok true.
Proof.
  intros Hss Hvals. induction Hss as [|s ss Hs Hss IH]; simpl; [reflexivity|].
  destruct (Hvals (n - 1 - s)%nat) as (bi & Hbi & Hv); [lia|].
  now rewrite Hv, Hbi, gather_toString, String.eqb_refl.
Qed.

End MappedOut.

(** In bit-mapping mode propOut cannot fail on a splitter whose mappings
    and narrow buses are as many as its split widths and whose mapped bits
    lie inside the wide value.  Port i then carries the bits its mapping
    names, the last listed one first, and the two sides are consistent in
    the sense of #areConsistent: a resolve that finds the wide value still
    on its bus afterwards only refreshes its cache and touches no bus. *)
Theorem Splitter_mapped_propOut_consistent (now now' : Z) (s : Splitter.t)
    (wide : BitString.t) (bm : list (list nat)) :
  Splitter.bitMappings s = Some bm ->
  length bm = length (Splitter.split s) ->
  length (Splitter.outputs s) = length (Splitter.split s) ->
  mappingsWithin bm wide ->
  exists s',
    Splitter.propOut now wide s = Ok s' /\
    Splitter.input s' = Splitter.input s /\
    (forall i bitIndices,
       bm !! i = Some bitIndices ->
       exists b,
         Splitter.outputs s' !! i = Some b /\
         CircuitBus.getValue b = Some (map (lsbBit wide) (rev bitIndices))) /\
    Splitter.areConsistent s' wide (map CircuitBus.getValue (Splitter.outputs s')) = Ok true /\
    (CircuitBus.getValue (Splitter.input s) = Some wide ->
     Splitter.resolve now' s' = Ok (Splitter.remember s')).
Proof.
  intros Hbm Hlbm Hlen Hin.
  destruct (propOutMappedLoop_values now (length (Splitter.split s)) bm wide Hlbm
              (seq 0 (length (Splitter.split s))) (Splitter.outputs s))
    as (outs' & Hloop & Hlen' & Hports); [apply Forall_seq; intros; lia|exact Hlen|].
  assert (Hvisited : forall i, (i < length (Splitter.split s))%nat ->
            exists b bitIndices,
              outs' !! i = Some b /\ bm !! i = Some bitIndices /\
              CircuitBus.getValue b = Some (gatherBits wide bitIndices)).
  { intros i Hi. apply (proj1 (Hports i)).
    apply list_elem_of_In, in_map_iff.
    exists (length (Splitter.split s) - 1 - i)%nat. split; [lia|].
    apply in_seq. lia. }
  assert (Hvals : forall i, (i < length (Splitter.split s))%nat ->
            exists bitIndices,
              bm !! i = Some bitIndices /\
              map CircuitBus.getValue outs' !! i = Some (Some (gatherBits wide bitIndices))).
  { intros i Hi. destruct (Hvisited i Hi) as (b & bi & Hb & Hbi & Hv).
    exists bi. split; [exact Hbi|].
    change (map CircuitBus.getValue outs') with (CircuitBus.getValue <$> outs').
    now rewrite list_lookup_fmap, Hb, <- Hv. }
  assert (Hcons : Splitter.areConsistentLoop (length (Splitter.split s)) bm wide
                    (map CircuitBus.getValue outs')
                    (seq 0 (length (Splitter.split s))) = Ok true).
  { apply areConsistentLoop_gathered; try assumption. apply Forall_seq; intros; lia. }
  eexists. split; [unfold Splitter.propOut; rewrite Hbm, Hloop; reflexivity|].
  split; [reflexivity|]. split; [|split].
  - intros i bi Hbi. simpl.
    destruct (Hvisited i) as (b & bi' & Hb & Hbi' & Hv);
      [rewrite <- Hlbm; exact (lookup_lt_Some _ _ _ Hbi)|].
    rewrite Hbi in Hbi'. inversion Hbi'; subst bi'.
    exists b. split; [exact Hb|]. rewrite Hv. f_equal.
    apply gatherBits_in_range.
    unfold mappingsWithin in Hin. rewrite Forall_forall in Hin.
    exact (proj2 (Hin _ (list_elem_of_lookup_2 _ _ _ Hbi))).
  - unfold Splitter.areConsistent. simpl. rewrite Hbm. exact Hcons.
  - intros Hv. unfold Splitter.resolve, Splitter.getValues. simpl. rewrite Hv.
    replace (Splitter.nullOutputs (map CircuitBus.getValue outs')) with false.
    + unfold Splitter.areConsistent. simpl. rewrite Hbm, Hcons. reflexivity.
    + symmetry. apply Bool.not_true_is_false. intros Hnull.
      apply existsb_exists in Hnull as (v & Hin' & Hv').
      apply list_elem_of_In, list_elem_of_lookup in Hin' as (i & Hi).
      pose proof (lookup_lt_Some _ _ _ Hi) as Hlt. rewrite length_map, Hlen' in Hlt.
      destruct (Hvals i Hlt) as (bi & _ & Hi'). rewrite Hi in Hi'.
      inversion Hi'; subst. discriminate.
Qed.

Lemma Splitter_mapped_propOut_consistent_witness :
  exists s',
    Splitter.propOut 7 (Examples.bits "1011") interleaved = Ok s' /\
    Splitter.input s' = Splitter.input interleaved /\
    (forall i bitIndices,
       [[0; 2]; [1; 3]]%nat !! i = Some bitIndices ->
       exists b,
         Splitter.outputs s' !! i = Some b /\
         CircuitBus.getValue b =
         Some (map (lsbBit (Examples.bits "1011")) (rev bitIndices))) /\
    Splitter.areConsistent s' (Examples.bits "1011")
      (map CircuitBus.getValue (Splitter.outputs s')) = Ok true /\
    (CircuitBus.getValue (Splitter.input interleaved) = Some (Examples.bits "1011") ->
     Splitter.resolve 9 s' = Ok (Splitter.remember s')).
Proof.
  apply (Splitter_mapped_propOut_consistent 7 9 interleaved (Examples.bits "1011")
           [[0; 2]; [1; 3]]%nat); try reflexivity.
  unfold mappingsWithin. repeat constructor; try discriminate; vm_compute; lia.
Defined.

Lemma rev_is_reverse {A} (l : list A) : rev l = reverse l.
Proof. unfold reverse. apply rev_alt. Qed.

Lemma zip_map_self {A B} (f : A -> B) (l : list A) :
  zip l (map f l) = map (fun x => (x, f x)) l.
Proof. induction l; simpl; congruence. Qed.

Section MappedIn.

Variable bit : nat -> bool.

(** Placing bits that all come from [bit] never conflicts. *)
Lemma placeBits_agreeing (pairs : list (nat * bool)) :
  forall inputBits,
    Forall (fun p => (fst p < length inputBits)%nat /\ snd p = bit (fst p)) pairs ->
    bitsAgree bit inputBits ->
    exists inputBits',
      Splitter.placeBits pairs inputBits = Ok inputBits' /\
      length inputBits' = length inputBits /\
      bitsAgree bit inputBits' /\
      (forall j, j ∈ map fst pairs -> inputBits' !! j = Some (Some (bit j))) /\
      (forall j, inputBits !! j = Some (Some (bit j)) ->
                 inputBits' !! j = Some (Some (bit j))).
Proof.
  induction pairs as [|[b v] rest IH]; intros ib Hall Hagree.
  - exists ib. repeat split; auto. intros j Hj. inversion Hj.
  - inversion Hall as [|? ? [Hb Hv] Hrest]; subst. simpl in Hb, Hv. subst v.
    assert (Hstep : Splitter.placeBits ((b, bit b) :: rest) ib =
                    Splitter.placeBits rest (<[b := Some (bit b)]> ib)).
    { simpl. destruct (lookup_lt_is_Some_2 ib b Hb) as [o Ho]. rewrite Ho.
      destruct o as [old|]; [|reflexivity].
      rewrite (Hagree _ _ Ho). now rewrite Bool.eqb_reflx. }
    rewrite Hstep.
    assert (Hagree1 : bitsAgree bit (<[b := Some (bit b)]> ib)).
    { intros j x Hj. destruct (decide (j = b)) as [->|Hne].
      - rewrite list_lookup_insert_eq in Hj by exact Hb. now inversion Hj.
      - rewrite list_lookup_insert_ne in Hj by congruence. exact (Hagree _ _ Hj). }
    destruct (IH (<[b := Some (bit b)]> ib))
      as (ib' & Hplace & Hlen & Hagree' & Hset & Hkeep);
      [now rewrite length_insert|exact Hagree1|].
    exists ib'. split; [exact Hplace|]. split; [now rewrite Hlen, length_insert|].
    split; [exact Hagree'|]. split.
    + intros j Hj. simpl in Hj. apply elem_of_cons in Hj as [->|Hj]; [|exact (Hset _ Hj)].
      apply Hkeep. now rewrite list_lookup_insert_eq.
    + intros j Hj. apply Hkeep. destruct (decide (j = b)) as [->|Hne].
      * now rewrite list_lookup_insert_eq.
      * now rewrite list_lookup_insert_ne by congruence.
Qed.

Variables (n W : nat) (bm : list (list nat)) (outs : list CircuitBus.t).

Hypothesis Hports :
  forall i, (i < n)%nat ->
    exists b bitIndices,
      outs !! i = Some b /\ bm !! i = Some bitIndices /\
      CircuitBus.getValue b = Some (map bit (rev bitIndices)) /\
      Forall (fun j => (j < W)%nat) bitIndices.

(** The loop of [#propIn] in bit-mapping mode over ports that all carry
    bits of [bit]: it cannot fail, and afterwards every bit mapped by a
    visited port is placed. *)
Lemma propInMappedLoop_agreeing (ss : list nat) :
  Forall (fun s => (s < n)%nat) ss ->
  forall inputBits,
    length inputBits = W ->
    bitsAgree bit inputBits ->
    exists inputBits',
      Splitter.propInMappedLoop n bm outs ss inputBits = Ok inputBits' /\
      length inputBits' = W /\
      bitsAgree bit inputBits' /\
      (forall s bitIndices j,
         s ∈ ss -> bm !! (n - 1 - s)%nat = Some bitIndices -> j ∈ bitIndices ->
         inputBits' !! j = Some (Some (bit j))) /\
      (forall j, inputBits !! j = Some (Some (bit j)) ->
                 inputBits' !! j = Some (Some (bit j))).
Proof.
  induction 1 as [|s ss Hs Hss IH]; intros ib Hlen Hagree.
  - exists ib. repeat split; auto. intros s bi j Hs. inversion Hs.
  - simpl.
    destruct (Hports (n - 1 - s)%nat) as (b & bi & Hb & Hbi & Hv & Hrange); [lia|].
    rewrite Hbi, Hb, Hv. unfold BitString.getWidth.
    rewrite length_map, length_rev, Nat.eqb_refl. simpl.
    rewrite zip_map_self.
    destruct (placeBits_agreeing (map (fun x => (x, bit x)) (rev bi)) ib)
      as (ib1 & Hplace & Hlen1 & Hagree1 & Hset1 & Hkeep1); [|exact Hagree|].
    { apply Forall_forall. intros p Hp.
      apply list_elem_of_In, in_map_iff in Hp as (x & <- & Hx). simpl.
      split; [|reflexivity]. rewrite Hlen. rewrite Forall_forall in Hrange.
      apply Hrange, list_elem_of_In, in_rev. exact Hx. }
    rewrite Hplace. simpl.
    destruct (IH ib1) as (ib' & Hloop & Hlen' & Hagree' & Hset & Hkeep);
      [lia|exact Hagree1|].
    exists ib'. split; [exact Hloop|]. split; [exact Hlen'|].
    split; [exact Hagree'|]. split.
    + intros s0 bi0 j Hs0 Hbi0 Hj.
      apply elem_of_cons in Hs0 as [->|Hs0]; [|exact (Hset _ _ _ Hs0 Hbi0 Hj)].
      rewrite Hbi in Hbi0. inversion Hbi0; subst bi0. apply Hkeep, Hset1.
      rewrite map_map. simpl. rewrite map_id.
      apply list_elem_of_In. rewrite <- in_rev. apply list_elem_of_In. exact Hj.
    + intros j Hj. apply Hkeep, Hkeep1, Hj.
Qed.

End MappedIn.

Lemma fold_max_bits (l : list nat) (m : Z) :
  m <= fold_left (fun m' b => Z.max m' (Z.of_nat b)) l m /\
  (forall b, b ∈ l -> Z.of_nat b <= fold_left (fun m' b => Z.max m' (Z.of_nat b)) l m) /\
  (fold_left (fun m' b => Z.max m' (Z.of_nat b)) l m = m \/
   exists b, b ∈ l /\ fold_left (fun m' b => Z.max m' (Z.of_nat b)) l m = Z.of_nat b).
Proof.
  revert m. induction l as [|a l IH]; intros m; simpl.
  - split; [lia|]. split; [intros b Hb; inversion Hb|now left].
  - destruct (IH (Z.max m (Z.of_nat a))) as (Hle & Hall & Hex).
    split; [lia|]. split.
    + intros b Hb. apply elem_of_cons in Hb as [->|Hb]; [lia|exact (Hall _ Hb)].
    + destruct Hex as [Heq|(b & Hb & Heq)].
      * destruct (Z.max_spec m (Z.of_nat a)) as [[_ Hm]|[_ Hm]].
        -- right. exists a. split; [apply list_elem_of_here|now rewrite Heq].
        -- left. now rewrite Heq.
      * right. exists b. split; [now apply list_elem_of_further|exact Heq].
Qed.

Lemma fold_max_mappings (bm : list (list nat)) (m : Z) :
  m <= fold_left (fun m bi => fold_left (fun m' b => Z.max m' (Z.of_nat b)) bi m) bm m /\
  (forall bi b, bi ∈ bm -> b ∈ bi ->
     Z.of_nat b <=
     fold_left (fun m bi => fold_left (fun m' b => Z.max m' (Z.of_nat b)) bi m) bm m) /\
  (fold_left (fun m bi => fold_left (fun m' b => Z.max m' (Z.of_nat b)) bi m) bm m = m \/
   exists bi b, bi ∈ bm /\ b ∈ bi /\
     fold_left (fun m bi => fold_left (fun m' b => Z.max m' (Z.of_nat b)) bi m) bm m
     = Z.of_nat b).
Proof.
  revert m. induction bm as [|a bm IH]; intros m; simpl.
  - split; [lia|]. split; [intros bi b Hbi; inversion Hbi|now left].
  - destruct (fold_max_bits a m) as (Hle0 & Hall0 & Hex0).
    destruct (IH (fold_left (fun m' b => Z.max m' (Z.of_nat b)) a m))
      as (Hle & Hall & Hex).
    split; [lia|]. split.
    + intros bi b Hbi Hb. apply elem_of_cons in Hbi as [->|Hbi].
      * specialize (Hall0 _ Hb). lia.
      * exact (Hall _ _ Hbi Hb).
    + destruct Hex as [Heq|(bi & b & Hbi & Hb & Heq)].
      * destruct Hex0 as [Heq0|(b & Hb & Heq0)].
        -- left. lia.
        -- right. exists a, b. split; [apply list_elem_of_here|]. split; [exact Hb|lia].
      * right. exists bi, b. split; [now apply list_elem_of_further|]. now split.
Qed.

(** The width [#propIn] computes in bit-mapping mode is the width of the
    wide value once the mappings stay inside it and reach its top bit. *)
Lemma mappedInputWidth_covering (bm : list (list nat)) (W : nat) :
  (forall bi b, bi ∈ bm -> b ∈ bi -> (b < W)%nat) ->
  (forall j, (j < W)%nat -> exists bi, bi ∈ bm /\ j ∈ bi) ->
  Splitter.mappedInputWidth bm = W.
Proof.
  intros Hin Hcover. unfold Splitter.mappedInputWidth.
  destruct (fold_max_mappings bm (-1)) as (Hle & Hall & Hex).
  destruct W as [|w].
  - destruct Hex as [->|(bi & b & Hbi & Hb & _)]; [reflexivity|].
    specialize (Hin _ _ Hbi Hb). lia.
  - destruct (Hcover w) as (bi & Hbi & Hw); [lia|].
    specialize (Hall _ _ Hbi Hw).
    destruct Hex as [Heq|(bi' & b & Hbi' & Hb & Heq)]; [lia|].
    specialize (Hin _ _ Hbi' Hb). lia.
Qed.

(** In bit-mapping mode the wide value survives the round trip through the
    narrow buses whenever the mappings stay inside it and together name every
    one of its bits; a bit named by several ports raises no conflict, and the
    widths of the narrow buses play no part. *)
Theorem Splitter_mapped_roundtrip (now now' : Z) (s : Splitter.t)
    (wide : BitString.t) (bm : list (list nat)) :
  Splitter.bitMappings s = Some bm ->
  length bm = length (Splitter.split s) ->
  length (Splitter.outputs s) = length (Splitter.split s) ->
  wide <> [] ->
  mappingsWithin bm wide ->
  (forall j, (j < BitString.getWidth wide)%nat ->
     exists bitIndices, bitIndices ∈ bm /\ j ∈ bitIndices) ->
  exists s1 s2,
    Splitter.propOut now wide s = Ok s1 /\
    Splitter.propIn now' s1 = Ok s2 /\
    CircuitBus.getValue (Splitter.input s2) = Some wide /\
    Splitter.outputs s2 = Splitter.outputs s1.
Proof.
  intros Hbm Hlbm Hlen _ Hin Hcover.
  assert (Hin' : forall bi b, bi ∈ bm -> b ∈ bi -> (b < length wide)%nat).
  { intros bi b Hbi Hb. unfold mappingsWithin in Hin. rewrite Forall_forall in Hin.
    destruct (Hin _ Hbi) as [_ Hall]. rewrite Forall_forall in Hall. exact (Hall _ Hb). }
  destruct (propOutMappedLoop_values now (length (Splitter.split s)) bm wide Hlbm
              (seq 0 (length (Splitter.split s))) (Splitter.outputs s))
    as (outs' & Hloop & Hlen' & Hports); [apply Forall_seq; intros; lia|exact Hlen|].
  assert (Hvisited : forall i, (i < length (Splitter.split s))%nat ->
            exists b bitIndices,
              outs' !! i = Some b /\ bm !! i = Some bitIndices /\
              CircuitBus.getValue b = Some (map (lsbBit wide) (rev bitIndices)) /\
              Forall (fun j => (j < length wide)%nat) bitIndices).
  { intros i Hi. destruct (proj1 (Hports i)) as (b & bi & Hb & Hbi & Hv).
    - apply list_elem_of_In, in_map_iff.
      exists (length (Splitter.split s) - 1 - i)%nat. split; [lia|].
      apply in_seq. lia.
    - assert (Hall : Forall (fun j => (j < length wide)%nat) bi)
        by (apply Forall_forall; intros j Hj;
            exact (Hin' _ _ (list_elem_of_lookup_2 _ _ _ Hbi) Hj)).
      exists b, bi. split; [exact Hb|]. split; [exact Hbi|]. split; [|exact Hall].
      rewrite Hv. f_equal. now apply gatherBits_in_range. }
  destruct (propInMappedLoop_agreeing (lsbBit wide) (length (Splitter.split s))
              (length wide) bm outs' Hvisited (seq 0 (length (Splitter.split s))))
    with (inputBits := replicate (length wide) (@None bool))
    as (ib' & Hin2 & Hlen2 & Hagree & Hset & _).
  { apply Forall_seq; intros; lia. }
  { apply length_replicate. }
  { intros j x Hj. apply lookup_replicate in Hj as [Hj _]. discriminate. }
  assert (Hwide : rev (map (default false) ib') = wide).
  { rewrite rev_is_reverse. apply list_eq. intros k.
    destruct (decide (k < length wide)%nat) as [Hk|Hk].
    - rewrite reverse_lookup by (rewrite length_map; lia).
      rewrite length_map, Hlen2.
      change (map (default false) ib') with (default false <$> ib').
      rewrite list_lookup_fmap.
      destruct (Hcover (length wide - S k)%nat) as (bi & Hbi & Hj);
        [unfold BitString.getWidth; lia|].
      apply list_elem_of_lookup in Hbi as (i & Hi).
      pose proof (lookup_lt_Some _ _ _ Hi) as Hlt.
      rewrite (Hset (length (Splitter.split s) - 1 - i)%nat bi (length wide - S k)%nat).
      + simpl. unfold lsbBit.
        replace (length wide - 1 - (length wide - S k))%nat with k by lia.
        destruct (lookup_lt_is_Some_2 wide k Hk) as [x Hx].
        transitivity (Some x); [|symmetry; exact Hx].
        exact (f_equal (fun o => Some (default false o)) Hx).
      + apply list_elem_of_In, in_seq. lia.
      + replace (length (Splitter.split s) - 1 - (length (Splitter.split s) - 1 - i))%nat
          with i by lia. exact Hi.
      + exact Hj.
    - rewrite !lookup_ge_None_2; [reflexivity|lia|].
      rewrite length_reverse, length_map. lia. }
  eexists _, _. split; [unfold Splitter.propOut; rewrite Hbm, Hloop; reflexivity|].
  unfold Splitter.propIn. simpl. rewrite Hbm.
  rewrite (mappedInputWidth_covering bm (length wide) Hin' Hcover).
  rewrite Hin2. simpl. rewrite new_toString. simpl.
  split; [reflexivity|]. split; [|reflexivity].
  rewrite Hwide. apply setValue_value.
Qed.

Lemma Splitter_mapped_roundtrip_witness :
  exists s1 s2,
    Splitter.propOut 7 (Examples.bits "1011") interleaved = Ok s1 /\
    Splitter.propIn 9 s1 = Ok s2 /\
    CircuitBus.getValue (Splitter.input s2) = Some (Examples.bits "1011") /\
    Splitter.outputs s2 = Splitter.outputs s1.
Proof.
  apply (Splitter_mapped_roundtrip 7 9 interleaved (Examples.bits "1011")
           [[0; 2]; [1; 3]]%nat); try reflexivity.
  - discriminate.
  - unfold mappingsWithin. repeat constructor; try discriminate; vm_compute; lia.
  - intros j Hj. change (BitString.getWidth (Examples.bits "1011")) with 4%nat in Hj.
    assert (j = 0 \/ j = 1 \/ j = 2 \/ j = 3)%nat as [Hj0 | [Hj0 | [Hj0 | Hj0]]] by lia;
      subst j.
    + exists [0; 2]%nat. split; repeat constructor.
    + exists [1; 3]%nat. split; repeat constructor.
    + exists [0; 2]%nat. split; repeat constructor.
    + exists [1; 3]%nat. split; repeat constructor.
Defined.

(** ** Bus slices *)

Ltac bool_lia :=
  rewrite ?Z.gtb_ltb, ?Z.geb_leb;
  repeat match goal with
         | |- context [(?a <? ?b)] => destruct (Z.ltb_spec a b)
         | |- context [(?a <=? ?b)] => destruct (Z.leb_spec a b)
         | |- context [(?a =? ?b)] => destruct (Z.eqb_spec a b)
         end;
  cbn [orb andb negb]; try lia.

Lemma substring_range (v : BitString.t) (s e : Z) :
  0 <= s <= e -> e <= Z.of_nat (length v) ->
  BitString.substring v s e = take (Z.to_nat (e - s)) (drop (Z.to_nat s) v).
Proof.
  intros Hs He. unfold BitString.substring. cbv zeta.
  replace (Z.max 0 (Z.min s (Z.of_nat (length v)))) with s by lia.
  replace (Z.max 0 (Z.min e (Z.of_nat (length v)))) with e by lia.
  replace (Z.max s e - Z.min s e) with (e - s) by lia.
  replace (Z.min s e) with s by lia. reflexivity.
Qed.

Lemma toUnsigned_app (a b : BitString.t) :
  BitString.toUnsigned (a ++ b) =
  BitString.toUnsigned a * 2 ^ Z.of_nat (length b) + BitString.toUnsigned b.
Proof.
  induction b as [|x b IH] using rev_ind.
  - rewrite app_nil_r. unfold BitString.toUnsigned at 3. simpl. lia.
  - rewrite app_assoc, !toUnsigned_snoc, IH, length_app. simpl length.
    replace (Z.of_nat (length b + 1)) with (Z.succ (Z.of_nat (length b))) by lia.
    rewrite Z.pow_succ_r by lia. ring.
Qed.

(** The number a run of [w] bits holds, [a] bits from the left. *)
Lemma toUnsigned_take_drop (v : BitString.t) (a w : nat) :
  (a + w <= length v)%nat ->
  BitString.toUnsigned (take w (drop a v)) =
  (BitString.toUnsigned v / 2 ^ Z.of_nat (length v - a - w)) mod 2 ^ Z.of_nat w.
Proof.
  intros Hle.
  assert (Hu : BitString.toUnsigned v =
               (BitString.toUnsigned (take a v) * 2 ^ Z.of_nat w
                + BitString.toUnsigned (take w (drop a v)))
               * 2 ^ Z.of_nat (length v - a - w)
               + BitString.toUnsigned (drop w (drop a v))).
  { transitivity (BitString.toUnsigned
                    (take a v ++ take w (drop a v) ++ drop w (drop a v)));
      [now rewrite !take_drop|].
    rewrite !toUnsigned_app, length_app, !length_drop.
    rewrite length_take_le by (rewrite length_drop; lia).
    rewrite Nat2Z.inj_add, Z.pow_add_r by lia. ring. }
  pose proof (toUnsigned_range (take w (drop a v))) as HS.
  pose proof (toUnsigned_range (drop w (drop a v))) as HR.
  rewrite length_take_le in HS by (rewrite length_drop; lia).
  rewrite !length_drop in HR.
  pose proof (Z.pow_pos_nonneg 2 (Z.of_nat (length v - a - w))) as Hr.
  pose proof (Z.pow_pos_nonneg 2 (Z.of_nat w)) as Hw.
  rewrite Hu, Z.div_add_l by lia.
  rewrite (Z.div_small (BitString.toUnsigned (drop w (drop a v)))) by lia.
  rewrite Z.add_0_r, Z.add_comm, Z.mod_add by lia.
  symmetry. apply Z.mod_small. lia.
Qed.

Lemma bitAt_in_range (v : list bool) (k : Z) :
  0 <= k < Z.of_nat (length v) ->
  bitAt v k = v !! (length v - 1 - Z.to_nat k)%nat.
Proof.
  intros Hk. unfold bitAt, BitString.getWidth. now bool_lia.
Qed.

Lemma bitAt_take_drop (v : list bool) (a w : nat) (k : Z) :
  (a + w <= length v)%nat -> 0 <= k < Z.of_nat w ->
  bitAt (take w (drop a v)) k = bitAt v (k + Z.of_nat (length v - a - w)).
Proof.
  intros Hle Hk.
  assert (Hlen : length (take w (drop a v)) = w)
    by (rewrite length_take_le; [reflexivity|rewrite length_drop; lia]).
  rewrite !bitAt_in_range by (rewrite ?Hlen; lia).
  rewrite Hlen, lookup_take_lt by lia. rewrite lookup_drop. f_equal. lia.
Qed.

(** With Nand2Tetris bit numbers a range slice of an in-range [lo..hi]
    (in either order) puts on its output the [|hi - lo| + 1] bits of the base
    value from bit [min lo hi] up: bit k of the slice is bit [min lo hi + k]
    of the base, so the slice reads as the base shifted right by [min lo hi]
    and cut to the slice width. *)
Theorem RangeSliceElement_resolve_in_range (b o : CircuitBus.t) (lo hi : Z)
    (v : BitString.t) :
  CircuitBus.getValue b = Some v ->
  0 <= Z.min lo hi ->
  Z.max lo hi < Z.of_nat (BitString.getWidth v) ->
  exists slice,
    CircuitBus.getValue
      (RangeSliceElement.out
         (RangeSliceElement.resolve (RangeSliceElement.mk b o lo hi))) = Some slice /\
    Z.of_nat (BitString.getWidth slice) = Z.max lo hi - Z.min lo hi + 1 /\
    (forall k, 0 <= k <= Z.max lo hi - Z.min lo hi ->
               bitAt slice k = bitAt v (Z.min lo hi + k)) /\
    BitString.toUnsigned slice =
    (BitString.toUnsigned v / 2 ^ Z.min lo hi) mod 2 ^ (Z.max lo hi - Z.min lo hi + 1).
Proof.
  intros Hv Hlo Hhi. unfold BitString.getWidth in *.
  assert (Hmm : Z.min lo hi <= Z.max lo hi) by lia.
  unfold RangeSliceElement.resolve. cbn [RangeSliceElement.base RangeSliceElement.lo
    RangeSliceElement.hi RangeSliceElement.out]. rewrite Hv.
  unfold BitString.getWidth. cbv zeta.
  set (mn := Z.min lo hi) in *. set (mx := Z.max lo hi) in *. clearbody mn mx.
  replace ((Z.of_nat (length v) - 1 - mx <? 0)
           || (Z.of_nat (length v) - mn >? Z.of_nat (length v))
           || (Z.of_nat (length v) - 1 - mx >=? Z.of_nat (length v) - mn))
    with false by (symmetry; bool_lia).
  cbn [RangeSliceElement.withOut RangeSliceElement.out]. rewrite setValue_value.
  eexists. split; [reflexivity|].
  rewrite substring_range by lia.
  set (a := Z.to_nat (Z.of_nat (length v) - 1 - mx)).
  set (w := Z.to_nat (Z.of_nat (length v) - mn - (Z.of_nat (length v) - 1 - mx))).
  assert (Haw : (a + w <= length v)%nat) by lia.
  assert (Hlen : length (take w (drop a v)) = w)
    by (rewrite length_take_le; [reflexivity|rewrite length_drop; lia]).
  split; [unfold BitString.getWidth; rewrite Hlen; lia|]. split.
  - intros k Hk. rewrite bitAt_take_drop by lia. f_equal. lia.
  - rewrite toUnsigned_take_drop by exact Haw. f_equal; [f_equal|]; f_equal; lia.
Qed.

Lemma RangeSliceElement_resolve_in_range_witness :
  exists slice,
    CircuitBus.getValue
      (RangeSliceElement.out
         (RangeSliceElement.resolve
            (RangeSliceElement.mk base10110 (CircuitBus.new 2) 2 1))) = Some slice /\
    Z.of_nat (BitString.getWidth slice) = Z.max 2 1 - Z.min 2 1 + 1 /\
    (forall k, 0 <= k <= Z.max 2 1 - Z.min 2 1 ->
               bitAt slice k = bitAt (Examples.bits "10110") (Z.min 2 1 + k)) /\
    BitString.toUnsigned slice =
    (BitString.toUnsigned (Examples.bits "10110") / 2 ^ Z.min 2 1)
      mod 2 ^ (Z.max 2 1 - Z.min 2 1 + 1).
Proof.
  apply (RangeSliceElement_resolve_in_range base10110 (CircuitBus.new 2) 2 1
           (Examples.bits "10110")); [reflexivity|vm_compute; discriminate|reflexivity].
Defined.

(** With Nand2Tetris bit numbers a range slice puts null on its output
    exactly when the base bus is unset or the range leaves the base value;
    the order of the two bounds does not matter, and the base bus is never
    written. *)
Theorem RangeSliceElement_resolve_null_iff (b o : CircuitBus.t) (lo hi : Z) :
  (CircuitBus.getValue
     (RangeSliceElement.out
        (RangeSliceElement.resolve (RangeSliceElement.mk b o lo hi))) = None <->
   match CircuitBus.getValue b with
   | None => True
   | Some v => Z.min lo hi < 0 \/ Z.of_nat (BitString.getWidth v) <= Z.max lo hi
   end) /\
  RangeSliceElement.out (RangeSliceElement.resolve (RangeSliceElement.mk b o lo hi)) =
  RangeSliceElement.out (RangeSliceElement.resolve (RangeSliceElement.mk b o hi lo)) /\
  RangeSliceElement.base (RangeSliceElement.resolve (RangeSliceElement.mk b o lo hi)) = b.
Proof.
  unfold RangeSliceElement.resolve. cbn [RangeSliceElement.base RangeSliceElement.lo
    RangeSliceElement.hi RangeSliceElement.out]. cbv zeta.
  rewrite (Z.min_comm hi lo), (Z.max_comm hi lo).
  destruct (CircuitBus.getValue b) as [v|] eqn:Hv.
  - assert (Hmm : Z.min lo hi <= Z.max lo hi) by lia.
    set (mn := Z.min lo hi) in *. set (mx := Z.max lo hi) in *. clearbody mn mx.
    destruct ((Z.of_nat (BitString.getWidth v) - 1 - mx <? 0)
              || (Z.of_nat (BitString.getWidth v) - mn >? Z.of_nat (BitString.getWidth v))
              || (Z.of_nat (BitString.getWidth v) - 1 - mx
                  >=? Z.of_nat (BitString.getWidth v) - mn)) eqn:Hc;
      cbn [RangeSliceElement.withOut RangeSliceElement.out RangeSliceElement.base];
      rewrite setValue_value; (split; [|split; reflexivity]).
    + split; [intros _|reflexivity]. revert Hc. bool_lia; discriminate.
    + split; [discriminate|]. intros Hout. exfalso. revert Hc. bool_lia; discriminate.
  - cbn [RangeSliceElement.withOut RangeSliceElement.out RangeSliceElement.base].
    rewrite setValue_value. repeat split.
Qed.

(** A bit slice is the range slice of the one-bit range [bitIndex..bitIndex]:
    with Nand2Tetris bit numbers the two elements leave the same output bus
    on every base bus and every index. *)
Theorem BitSliceElement_is_one_bit_range (b o : CircuitBus.t) (bitIndex : Z) :
  BitSliceElement.out (BitSliceElement.resolve (BitSliceElement.mk b o bitIndex)) =
  RangeSliceElement.out
    (RangeSliceElement.resolve (RangeSliceElement.mk b o bitIndex bitIndex)).
Proof.
  unfold BitSliceElement.resolve, RangeSliceElement.resolve.
  cbn [BitSliceElement.base BitSliceElement.bitIndex BitSliceElement.out
       RangeSliceElement.base RangeSliceElement.lo RangeSliceElement.hi
       RangeSliceElement.out]. cbv zeta.
  rewrite Z.min_id, Z.max_id.
  destruct (CircuitBus.getValue b) as [v|]; [|reflexivity].
  replace (Z.of_nat (BitString.getWidth v) - bitIndex)
    with (Z.of_nat (BitString.getWidth v) - 1 - bitIndex + 1) by lia.
  set (idx := Z.of_nat (BitString.getWidth v) - 1 - bitIndex).
  replace ((idx <? 0) || (idx + 1 >? Z.of_nat (BitString.getWidth v)) || (idx >=? idx + 1))
    with ((idx <? 0) || (idx >=? Z.of_nat (BitString.getWidth v)))
    by (bool_lia; reflexivity).
  destruct ((idx <? 0) || (idx >=? Z.of_nat (BitString.getWidth v))); reflexivity.
Qed.

(** The two revisions of the slices mirror each other: on a base value of
    width W the revision that takes string positions, given in-range
    positions, reads what the revision that takes Nand2Tetris bit numbers
    reads at [W - 1 - position]. *)
Theorem Slice_revisions_mirror (b o : CircuitBus.t) (lo hi : Z) (v : BitString.t) :
  CircuitBus.getValue b = Some v ->
  0 <= Z.min lo hi ->
  Z.max lo hi < Z.of_nat (BitString.getWidth v) ->
  RangeSliceElement.out
    (RangeSliceElement.resolveDirect (RangeSliceElement.mk b o lo hi)) =
  RangeSliceElement.out
    (RangeSliceElement.resolve
       (RangeSliceElement.mk b o (Z.of_nat (BitString.getWidth v) - 1 - hi)
                             (Z.of_nat (BitString.getWidth v) - 1 - lo))) /\
  BitSliceElement.out (BitSliceElement.resolveDirect (BitSliceElement.mk b o lo)) =
  BitSliceElement.out
    (BitSliceElement.resolve
       (BitSliceElement.mk b o (Z.of_nat (BitString.getWidth v) - 1 - lo))).
Proof.
  intros Hv.
  unfold RangeSliceElement.resolveDirect, RangeSliceElement.resolve,
    BitSliceElement.resolveDirect, BitSliceElement.resolve.
  cbn [BitSliceElement.base BitSliceElement.bitIndex BitSliceElement.out
       RangeSliceElement.base RangeSliceElement.lo RangeSliceElement.hi
       RangeSliceElement.out]. cbv zeta. rewrite Hv.
  cbn [RangeSliceElement.withOut RangeSliceElement.out
       BitSliceElement.withOut BitSliceElement.out].
  intros Hlo Hhi.
  set (W := Z.of_nat (BitString.getWidth v)) in *.
  replace (Z.min (W - 1 - hi) (W - 1 - lo)) with (W - 1 - Z.max lo hi) by lia.
  replace (Z.max (W - 1 - hi) (W - 1 - lo)) with (W - 1 - Z.min lo hi) by lia.
  replace (W - 1 - (W - 1 - Z.min lo hi)) with (Z.min lo hi) by lia.
  replace (W - (W - 1 - Z.max lo hi)) with (Z.max lo hi + 1) by lia.
  replace (W - 1 - (W - 1 - lo)) with lo by lia.
  replace ((Z.min lo hi <? 0) || (Z.max lo hi + 1 >? W)
           || (Z.min lo hi >=? Z.max lo hi + 1)) with false by (symmetry; bool_lia).
  replace ((lo <? 0) || (lo >=? W)) with false by (symmetry; bool_lia).
  split; reflexivity.
Qed.

Lemma Slice_revisions_mirror_witness :
  RangeSliceElement.out
    (RangeSliceElement.resolveDirect
       (RangeSliceElement.mk base10110 (CircuitBus.new 2) 1 2)) =
  RangeSliceElement.out
    (RangeSliceElement.resolve
       (RangeSliceElement.mk base10110 (CircuitBus.new 2)
          (Z.of_nat (BitString.getWidth (Examples.bits "10110")) - 1 - 2)
          (Z.of_nat (BitString.getWidth (Examples.bits "10110")) - 1 - 1))) /\
  BitSliceElement.out
    (BitSliceElement.resolveDirect (BitSliceElement.mk base10110 (CircuitBus.new 2) 1)) =
  BitSliceElement.out
    (BitSliceElement.resolve
       (BitSliceElement.mk base10110 (CircuitBus.new 2)
          (Z.of_nat (BitString.getWidth (Examples.bits "10110")) - 1 - 1))).
Proof.
  apply (Slice_revisions_mirror base10110 (CircuitBus.new 2) 1 2 (Examples.bits "10110"));
    [reflexivity|vm_compute; discriminate|reflexivity].
Defined.

(** ** Bus merges *)

Lemma mergeBaseStr_length (b : CircuitBus.t) :
  length (mergeBaseStr b) = CircuitBus.getWidth b.
Proof.
  unfold mergeBaseStr. cbv zeta.
  destruct (BitString.getWidth _ =? _)%nat eqn:He; cbn [negb].
  - apply Nat.eqb_eq in He. exact He.
  - apply normalize_length.
Qed.

Lemma mergedValue_exact (W : nat) (before sv after : BitString.t) :
  length (before ++ sv ++ after) = W ->
  mergedValue W before sv after = before ++ sv ++ after.
Proof.
  intros H. unfold mergedValue, BitString.pad, BitString.truncate.
  rewrite H, Nat.sub_diag, drop_0, H, Nat.sub_diag. reflexivity.
Qed.

(** What a merge writes once its checks pass: the base text with the
    source in place of the characters from [a] on. *)
Lemma merge_splice (B sv : list bool) (W : nat) (s e : Z) :
  length B = W ->
  0 <= s -> e <= Z.of_nat W -> Z.of_nat (length sv) = e - s ->
  mergedValue W (BitString.substring B 0 s) sv
              (BitString.substring B e (Z.of_nat (BitString.getWidth B))) =
  take (Z.to_nat s) B ++ sv ++ drop (Z.to_nat s + length sv) B.
Proof.
  intros HB Hs He Hsv. unfold BitString.getWidth.
  rewrite !substring_range by lia.
  rewrite Z.sub_0_r. change (Z.to_nat 0) with 0%nat. rewrite drop_0.
  rewrite (take_ge (drop (Z.to_nat e) B)) by (rewrite length_drop; lia).
  replace (Z.to_nat e) with (Z.to_nat s + length sv)%nat by lia.
  apply mergedValue_exact.
  rewrite !length_app, length_take_le, length_drop by lia. lia.
Qed.

Lemma bitAt_out_of_range (v : list bool) (k : Z) :
  k < 0 \/ Z.of_nat (length v) <= k -> bitAt v k = None.
Proof.
  intros Hk. unfold bitAt, BitString.getWidth. now bool_lia.
Qed.

(** The bits of a spliced text, counted from the least significant end. *)
Lemma bitAt_splice (B sv : list bool) (a : nat) (k : Z) :
  (a + length sv <= length B)%nat ->
  bitAt (take a B ++ sv ++ drop (a + length sv) B) k =
  if (Z.of_nat (length B - a - length sv) <=? k)
     && (k <=? Z.of_nat (length B - a - length sv) + Z.of_nat (length sv) - 1)
  then bitAt sv (k - Z.of_nat (length B - a - length sv))
  else bitAt B k.
Proof.
  intros Hle.
  assert (Hlen : length (take a B ++ sv ++ drop (a + length sv) B) = length B)
    by (rewrite !length_app, length_take_le, length_drop by lia; lia).
  destruct (decide (0 <= k < Z.of_nat (length B))) as [Hk|Hk].
  - rewrite (bitAt_in_range (take a B ++ _)) by (rewrite Hlen; lia). rewrite Hlen.
    bool_lia.
    + rewrite bitAt_in_range by lia.
      rewrite lookup_app_r by (rewrite length_take_le by lia; lia).
      rewrite length_take_le by lia.
      rewrite lookup_app_l by lia. f_equal. lia.
    + rewrite bitAt_in_range by lia.
      rewrite lookup_app_l by (rewrite length_take_le by lia; lia).
      rewrite lookup_take_lt by lia. reflexivity.
    + rewrite bitAt_in_range by lia.
      rewrite lookup_app_r by (rewrite length_take_le by lia; lia).
      rewrite length_take_le by lia.
      rewrite lookup_app_r by lia. rewrite lookup_drop. f_equal. lia.
  - rewrite (bitAt_out_of_range (take a B ++ _)) by (rewrite Hlen; lia).
    rewrite (bitAt_out_of_range B) by lia.
    bool_lia; reflexivity.
Qed.

Lemma RangeMerge_resolve_closed (s b : CircuitBus.t) (lo hi : Z) (sv : BitString.t) :
  CircuitBus.getValue s = Some sv ->
  0 <= Z.min lo hi ->
  Z.max lo hi < Z.of_nat (CircuitBus.getWidth b) ->
  Z.of_nat (BitString.getWidth sv) = Z.max lo hi - Z.min lo hi + 1 ->
  RangeMergeElement.resolve (RangeMergeElement.mk s b lo hi) =
  Merged (RangeMergeElement.mk s
            (CircuitBus.setValue
               (Some (take (Z.to_nat (Z.of_nat (CircuitBus.getWidth b) - 1 - Z.max lo hi))
                           (mergeBaseStr b)
                      ++ sv
                      ++ drop (Z.to_nat (Z.of_nat (CircuitBus.getWidth b) - 1 - Z.max lo hi)
                               + length sv)
                              (mergeBaseStr b)))
               (CircuitBus.getLastUpdate s) b)
            lo hi).
Proof.
  intros Hs Hlo Hhi Hsv. unfold BitString.getWidth in Hsv.
  unfold RangeMergeElement.resolve.
  cbn [RangeMergeElement.source RangeMergeElement.base RangeMergeElement.lo
       RangeMergeElement.hi]. rewrite Hs. cbv zeta.
  assert (Hmm : Z.min lo hi <= Z.max lo hi) by lia.
  set (mn := Z.min lo hi) in *. set (mx := Z.max lo hi) in *. clearbody mn mx.
  set (W := CircuitBus.getWidth b) in *.
  replace ((Z.of_nat W - 1 - mx <? 0) || (Z.of_nat W - mn >? Z.of_nat W)
           || (Z.of_nat W - 1 - mx >=? Z.of_nat W - mn))
    with false by (symmetry; bool_lia).
  replace (Z.of_nat (BitString.getWidth sv) =? Z.of_nat W - mn - (Z.of_nat W - 1 - mx))
    with true by (symmetry; unfold BitString.getWidth; bool_lia; reflexivity).
  cbn [negb]. unfold RangeMergeElement.withBase.
  cbn [RangeMergeElement.source RangeMergeElement.base RangeMergeElement.lo
       RangeMergeElement.hi].
  rewrite (merge_splice (mergeBaseStr b) sv W)
    by (try apply mergeBaseStr_length; lia).
  reflexivity.
Qed.

(** With Nand2Tetris bit numbers a range merge into a bus of positive
    width never throws on an unset source: it nulls the base bus, whatever
    the range.  On a set source it
    throws the range error exactly when the range leaves the base bus, the
    width error exactly when the range fits and the source is not
    [|hi - lo| + 1] bits wide, and nothing else. *)
Theorem RangeMergeElement_resolve_outcome (s b : CircuitBus.t) (lo hi : Z) :
  (0 < CircuitBus.getWidth b)%nat ->
  (CircuitBus.getValue s = None ->
   exists b',
     rangeMergeBase (RangeMergeElement.resolve (RangeMergeElement.mk s b lo hi)) = Some b' /\
     CircuitBus.getValue b' = None) /\
  (forall sv,
     CircuitBus.getValue s = Some sv ->
     (mergeError (RangeMergeElement.resolve (RangeMergeElement.mk s b lo hi))
      = Some InvalidRange <->
      Z.min lo hi < 0 \/ Z.of_nat (CircuitBus.getWidth b) <= Z.max lo hi) /\
     (mergeError (RangeMergeElement.resolve (RangeMergeElement.mk s b lo hi))
      = Some SourceWidthMismatch <->
      0 <= Z.min lo hi /\ Z.max lo hi < Z.of_nat (CircuitBus.getWidth b) /\
      Z.of_nat (BitString.getWidth sv) <> Z.max lo hi - Z.min lo hi + 1) /\
     (mergeError (RangeMergeElement.resolve (RangeMergeElement.mk s b lo hi)) = None <->
      0 <= Z.min lo hi /\ Z.max lo hi < Z.of_nat (CircuitBus.getWidth b) /\
      Z.of_nat (BitString.getWidth sv) = Z.max lo hi - Z.min lo hi + 1)).
Proof.
  intros _.
  unfold RangeMergeElement.resolve.
  cbn [RangeMergeElement.source RangeMergeElement.base RangeMergeElement.lo
       RangeMergeElement.hi]. cbv zeta.
  split.
  - intros Hs. rewrite Hs. eexists. split; [reflexivity|].
    cbn [RangeMergeElement.withBase RangeMergeElement.base]. apply setValue_value.
  - intros sv Hs. rewrite Hs.
    assert (Hmm : Z.min lo hi <= Z.max lo hi) by lia.
    set (mn := Z.min lo hi) in *. set (mx := Z.max lo hi) in *. clearbody mn mx.
    set (W := Z.of_nat (CircuitBus.getWidth b)) in *.
    set (n := Z.of_nat (BitString.getWidth sv)) in *.
    destruct ((W - 1 - mx <? 0) || (W - mn >? W) || (W - 1 - mx >=? W - mn)) eqn:Hc.
    + cbn [mergeError].
      assert (mn < 0 \/ W <= mx) by (revert Hc; bool_lia; discriminate).
      repeat split; try discriminate; try tauto; intros; lia.
    + assert (0 <= mn /\ mx < W) by (revert Hc; bool_lia; discriminate).
      destruct (n =? W - mn - (W - 1 - mx)) eqn:Hn; cbn [negb mergeError].
      * apply Z.eqb_eq in Hn.
        repeat split; try discriminate; try lia.
      * apply Z.eqb_neq in Hn.
        repeat split; try discriminate; try lia; intros; try lia.
Qed.

Lemma RangeMergeElement_resolve_outcome_witness :
  mergeError (RangeMergeElement.resolve (RangeMergeElement.mk source01 base10110 4 5))
  = Some InvalidRange.
Proof.
  destruct (RangeMergeElement_resolve_outcome source01 base10110 4 5) as [_ Hset];
    [simpl; lia|].
  destruct (Hset (Examples.bits "01") eq_refl) as (Hrange & _ & _).
  apply Hrange. right. vm_compute. discriminate.
Defined.

(** With Nand2Tetris bit numbers a range merge that does not throw leaves
    on the base bus a value of the bus width whose bits [min lo hi] to
    [max lo hi] are the source's bits and whose other bits are those the base
    had (zeros when it was unset); the source bus is not touched. *)
Theorem RangeMergeElement_resolve_bits (s b : CircuitBus.t) (lo hi : Z)
    (sv : BitString.t) (e' : RangeMergeElement.t) :
  CircuitBus.getValue s = Some sv ->
  RangeMergeElement.resolve (RangeMergeElement.mk s b lo hi) = Merged e' ->
  RangeMergeElement.source e' = s /\
  exists m,
    CircuitBus.getValue (RangeMergeElement.base e') = Some m /\
    BitString.getWidth m = CircuitBus.getWidth b /\
    forall k,
      bitAt m k =
      if (Z.min lo hi <=? k) && (k <=? Z.max lo hi)
      then bitAt sv (k - Z.min lo hi)
      else bitAt (mergeBaseStr b) k.
Proof.
  intros Hs Hres.
  assert (Hok : 0 <= Z.min lo hi /\ Z.max lo hi < Z.of_nat (CircuitBus.getWidth b) /\
                Z.of_nat (BitString.getWidth sv) = Z.max lo hi - Z.min lo hi + 1).
  { revert Hres. unfold RangeMergeElement.resolve.
    cbn [RangeMergeElement.source RangeMergeElement.base RangeMergeElement.lo
         RangeMergeElement.hi]. cbv zeta. rewrite Hs.
    assert (Hmm : Z.min lo hi <= Z.max lo hi) by lia.
    set (mn := Z.min lo hi) in *. set (mx := Z.max lo hi) in *. clearbody mn mx.
    set (W := Z.of_nat (CircuitBus.getWidth b)) in *.
    set (n := Z.of_nat (BitString.getWidth sv)) in *.
    destruct ((W - 1 - mx <? 0) || (W - mn >? W) || (W - 1 - mx >=? W - mn)) eqn:Hc;
      [discriminate|].
    destruct (n =? W - mn - (W - 1 - mx)) eqn:Hn; cbn [negb]; [|discriminate].
    intros _. apply Z.eqb_eq in Hn. revert Hc. bool_lia; discriminate. }
  destruct Hok as (Hlo & Hhi & Hsv).
  rewrite (RangeMerge_resolve_closed s b lo hi sv Hs Hlo Hhi Hsv) in Hres.
  inversion Hres; subst e'; clear Hres.
  cbn [RangeMergeElement.source RangeMergeElement.base].
  split; [reflexivity|]. eexists. split; [apply setValue_value|].
  pose proof (mergeBaseStr_length b) as HB. unfold BitString.getWidth in *.
  set (a := Z.to_nat (Z.of_nat (CircuitBus.getWidth b) - 1 - Z.max lo hi)) in *.
  assert (Ha : (a + length sv <= length (mergeBaseStr b))%nat) by lia.
  split.
  - rewrite !length_app, length_take_le, length_drop by lia. lia.
  - intros k. rewrite (bitAt_splice (mergeBaseStr b) sv a k Ha).
    replace (Z.of_nat (length (mergeBaseStr b) - a - length sv)) with (Z.min lo hi) by lia.
    replace (Z.min lo hi + Z.of_nat (length sv) - 1) with (Z.max lo hi) by lia.
    reflexivity.
Qed.

Lemma RangeMergeElement_resolve_bits_witness :
  RangeMergeElement.source
    (RangeMergeElement.mk source01
       (CircuitBus.mk (Some (Examples.bits "10010")) 5 4) 2 1) = source01 /\
  exists m,
    CircuitBus.getValue
      (RangeMergeElement.base
         (RangeMergeElement.mk source01
            (CircuitBus.mk (Some (Examples.bits "10010")) 5 4) 2 1)) = Some m /\
    BitString.getWidth m = CircuitBus.getWidth base10110 /\
    forall k,
      bitAt m k =
      if (Z.min 2 1 <=? k) && (k <=? Z.max 2 1)
      then bitAt (Examples.bits "01") (k - Z.min 2 1)
      else bitAt (mergeBaseStr base10110) k.
Proof.
  apply (RangeMergeElement_resolve_bits source01 base10110 2 1 (Examples.bits "01"));
    reflexivity.
Defined.

(** Writing a range and reading it back: after a range merge that did not
    throw, a range slice of the same bounds on the merged base bus puts the
    source value on its output. *)
Theorem RangeMerge_then_RangeSlice (s b o : CircuitBus.t) (lo hi : Z)
    (sv : BitString.t) (e' : RangeMergeElement.t) :
  CircuitBus.getValue s = Some sv ->
  RangeMergeElement.resolve (RangeMergeElement.mk s b lo hi) = Merged e' ->
  CircuitBus.getValue
    (RangeSliceElement.out
       (RangeSliceElement.resolve
          (RangeSliceElement.mk (RangeMergeElement.base e') o lo hi))) = Some sv.
Proof.
  intros Hs Hres.
  assert (Hok : 0 <= Z.min lo hi /\ Z.max lo hi < Z.of_nat (CircuitBus.getWidth b) /\
                Z.of_nat (BitString.getWidth sv) = Z.max lo hi - Z.min lo hi + 1).
  { revert Hres. unfold RangeMergeElement.resolve.
    cbn [RangeMergeElement.source RangeMergeElement.base RangeMergeElement.lo
         RangeMergeElement.hi]. cbv zeta. rewrite Hs.
    assert (Hmm : Z.min lo hi <= Z.max lo hi) by lia.
    set (mn := Z.min lo hi) in *. set (mx := Z.max lo hi) in *. clearbody mn mx.
    set (W := Z.of_nat (CircuitBus.getWidth b)) in *.
    set (n := Z.of_nat (BitString.getWidth sv)) in *.
    destruct ((W - 1 - mx <? 0) || (W - mn >? W) || (W - 1 - mx >=? W - mn)) eqn:Hc;
      [discriminate|].
    destruct (n =? W - mn - (W - 1 - mx)) eqn:Hn; cbn [negb]; [|discriminate].
    intros _. apply Z.eqb_eq in Hn. revert Hc. bool_lia; discriminate. }
  destruct Hok as (Hlo & Hhi & Hsv).
  rewrite (RangeMerge_resolve_closed s b lo hi sv Hs Hlo Hhi Hsv) in Hres.
  inversion Hres; subst e'; clear Hres.
  cbn [RangeMergeElement.base].
  pose proof (mergeBaseStr_length b) as HB. unfold BitString.getWidth in *.
  set (a := Z.to_nat (Z.of_nat (CircuitBus.getWidth b) - 1 - Z.max lo hi)) in *.
  set (m := take a (mergeBaseStr b) ++ sv ++ drop (a + length sv) (mergeBaseStr b)).
  assert (Hm : length m = CircuitBus.getWidth b)
    by (unfold m; rewrite !length_app, length_take_le, length_drop by lia; lia).
  unfold RangeSliceElement.resolve.
  cbn [RangeSliceElement.base RangeSliceElement.lo RangeSliceElement.hi
       RangeSliceElement.out]. rewrite setValue_value. cbv zeta.
  unfold BitString.getWidth. rewrite Hm.
  assert (Hmm : Z.min lo hi <= Z.max lo hi) by lia.
  replace ((Z.of_nat (CircuitBus.getWidth b) - 1 - Z.max lo hi <? 0)
           || (Z.of_nat (CircuitBus.getWidth b) - Z.min lo hi
               >? Z.of_nat (CircuitBus.getWidth b))
           || (Z.of_nat (CircuitBus.getWidth b) - 1 - Z.max lo hi
               >=? Z.of_nat (CircuitBus.getWidth b) - Z.min lo hi))
    with false by (symmetry; bool_lia).
  cbn [RangeSliceElement.withOut RangeSliceElement.out]. rewrite setValue_value.
  f_equal. rewrite substring_range by lia.
  fold a. unfold m.
  rewrite drop_app_length' by (rewrite length_take_le; lia).
  apply take_app_length'. lia.
Qed.

Lemma RangeMerge_then_RangeSlice_witness :
  CircuitBus.getValue
    (RangeSliceElement.out
       (RangeSliceElement.resolve
          (RangeSliceElement.mk
             (RangeMergeElement.base
                (RangeMergeElement.mk source01
                   (CircuitBus.mk (Some (Examples.bits "10010")) 5 4) 2 1))
             (CircuitBus.new 2) 2 1))) = Some (Examples.bits "01").
Proof.
  apply (RangeMerge_then_RangeSlice source01 base10110 (CircuitBus.new 2) 2 1
           (Examples.bits "01")); reflexivity.
Defined.

(** A bit merge is the range merge of the one-bit range
    [bitIndex..bitIndex]: with Nand2Tetris bit numbers the two elements throw
    on the same inputs (under different messages) and otherwise leave the same
    base bus. *)
Theorem BitMergeElement_is_one_bit_range (s b : CircuitBus.t) (bitIndex : Z) :
  bitMergeBase (BitMergeElement.resolve (BitMergeElement.mk s b bitIndex)) =
  rangeMergeBase
    (RangeMergeElement.resolve (RangeMergeElement.mk s b bitIndex bitIndex)).
Proof.
  unfold BitMergeElement.resolve, RangeMergeElement.resolve.
  cbn [BitMergeElement.source BitMergeElement.base BitMergeElement.bitIndex
       RangeMergeElement.source RangeMergeElement.base RangeMergeElement.lo
       RangeMergeElement.hi]. cbv zeta.
  rewrite Z.min_id, Z.max_id.
  destruct (CircuitBus.getValue s) as [sv|]; [|reflexivity].
  set (W := Z.of_nat (CircuitBus.getWidth b)).
  replace (W - bitIndex) with (W - 1 - bitIndex + 1) by lia.
  set (idx := W - 1 - bitIndex).
  replace ((idx <? 0) || (idx + 1 >? W) || (idx >=? idx + 1))
    with ((idx <? 0) || (idx >=? W)) by (bool_lia; reflexivity).
  replace (Z.of_nat (BitString.getWidth sv) =? idx + 1 - idx)
    with (BitString.getWidth sv =? 1)%nat
    by (destruct (Nat.eqb_spec (BitString.getWidth sv) 1); bool_lia; reflexivity).
  destruct (BitString.getWidth sv =? 1)%nat; cbn [negb];
    destruct ((idx <? 0) || (idx >=? W)); reflexivity.
Qed.

(** The two revisions of the merges mirror each other on every input: on
    a base bus of positive width W the revision that takes string positions behaves at
    [lo..hi] (at [bitIndex]) as the revision that takes Nand2Tetris bit
    numbers behaves at [W - 1 - hi..W - 1 - lo] (at [W - 1 - bitIndex]); they
    throw the same errors and write the same base bus. *)
Theorem Merge_revisions_mirror (s b : CircuitBus.t) (lo hi : Z) :
  (0 < CircuitBus.getWidth b)%nat ->
  rangeMergeBase (RangeMergeElement.resolveDirect (RangeMergeElement.mk s b lo hi)) =
  rangeMergeBase
    (RangeMergeElement.resolve
       (RangeMergeElement.mk s b (Z.of_nat (CircuitBus.getWidth b) - 1 - hi)
                             (Z.of_nat (CircuitBus.getWidth b) - 1 - lo))) /\
  mergeError (RangeMergeElement.resolveDirect (RangeMergeElement.mk s b lo hi)) =
  mergeError
    (RangeMergeElement.resolve
       (RangeMergeElement.mk s b (Z.of_nat (CircuitBus.getWidth b) - 1 - hi)
                             (Z.of_nat (CircuitBus.getWidth b) - 1 - lo))) /\
  bitMergeBase (BitMergeElement.resolveDirect (BitMergeElement.mk s b lo)) =
  bitMergeBase
    (BitMergeElement.resolve
       (BitMergeElement.mk s b (Z.of_nat (CircuitBus.getWidth b) - 1 - lo))) /\
  mergeError (BitMergeElement.resolveDirect (BitMergeElement.mk s b lo)) =
  mergeError
    (BitMergeElement.resolve
       (BitMergeElement.mk s b (Z.of_nat (CircuitBus.getWidth b) - 1 - lo))).
Proof.
  intros _.
  unfold RangeMergeElement.resolveDirect, RangeMergeElement.resolve,
    BitMergeElement.resolveDirect, BitMergeElement.resolve.
  cbn [BitMergeElement.source BitMergeElement.base BitMergeElement.bitIndex
       RangeMergeElement.source RangeMergeElement.base RangeMergeElement.lo
       RangeMergeElement.hi]. cbv zeta.
  set (W := Z.of_nat (CircuitBus.getWidth b)).
  destruct (CircuitBus.getValue s) as [sv|]; [|repeat split].
  replace (Z.min (W - 1 - hi) (W - 1 - lo)) with (W - 1 - Z.max lo hi) by lia.
  replace (Z.max (W - 1 - hi) (W - 1 - lo)) with (W - 1 - Z.min lo hi) by lia.
  replace (W - 1 - (W - 1 - Z.min lo hi)) with (Z.min lo hi) by lia.
  replace (W - (W - 1 - Z.max lo hi)) with (Z.max lo hi + 1) by lia.
  replace (W - 1 - (W - 1 - lo)) with lo by lia.
  replace (Z.max lo hi + 1 - Z.min lo hi) with (Z.max lo hi - Z.min lo hi + 1) by lia.
  assert (Hmm : Z.min lo hi <= Z.max lo hi) by lia.
  set (mn := Z.min lo hi) in *. set (mx := Z.max lo hi) in *. clearbody mn mx.
  replace ((mn <? 0) || (mx + 1 >? W) || (mn >=? mx + 1))
    with ((mn <? 0) || (mx >=? W)) by (bool_lia; reflexivity).
  destruct ((mn <? 0) || (mx >=? W));
    destruct (negb (Z.of_nat (BitString.getWidth sv) =? mx - mn + 1));
    destruct (negb (BitString.getWidth sv =? 1)%nat);
    destruct ((lo <? 0) || (lo >=? W)); repeat split.
Qed.

Lemma Merge_revisions_mirror_witness :
  rangeMergeBase (RangeMergeElement.resolveDirect (RangeMergeElement.mk source01 base10110 2 3)) =
  rangeMergeBase
    (RangeMergeElement.resolve
       (RangeMergeElement.mk source01 base10110
          (Z.of_nat (CircuitBus.getWidth base10110) - 1 - 3)
          (Z.of_nat (CircuitBus.getWidth base10110) - 1 - 2))).
Proof.
  apply (Merge_revisions_mirror source01 base10110 2 3). simpl. lia.
Defined.

(** ** JLSDecoder *)

Lemma toUnsigned_zeros (k : nat) : BitString.toUnsigned (replicate k false) = 0.
Proof.
  induction k as [|k IH]; [reflexivity|].
  change (replicate (S k) false) with ([false] ++ replicate k false).
  rewrite toUnsigned_app, IH. reflexivity.
Qed.

Lemma make_power_of_two (k : nat) :
  BitString.make (2 ^ Z.of_nat k) (S k) = true :: replicate k false.
Proof.
  apply toUnsigned_inj.
  - unfold BitString.make. rewrite ofZ_length. simpl. now rewrite length_replicate.
  - unfold BitString.make. rewrite toUnsigned_ofZ.
    change (true :: replicate k false) with ([true] ++ replicate k false).
    rewrite toUnsigned_app, toUnsigned_zeros, length_replicate.
    change (BitString.toUnsigned [true]) with 1.
    pose proof (Z.pow_pos_nonneg 2 (Z.of_nat k)).
    rewrite Z.mod_small; [lia|].
    replace (Z.of_nat (S k)) with (Z.succ (Z.of_nat k)) by lia.
    rewrite Z.pow_succ_r by lia. lia.
Qed.

(** The decoder writes a one-hot value of its own width: for an input
    reading n (of at most 53 bits) the first output bus receives a 1 followed
    by [n mod 32] zeros, whatever the width of that bus, stamped with the
    width of the input bus; the other output buses are not touched.  When
    [n mod 32] is 31 the shift is negative and resolve throws instead. *)
Theorem JLSDecoder_resolve_one_hot (now : Z) (i o : CircuitBus.t)
    (rest : list CircuitBus.t) (v : BitString.t) :
  CircuitBus.getValue i = Some v ->
  (BitString.getWidth v <= 53)%nat ->
  (BitString.toUnsigned v mod 32 = 31 <->
   JLSDecoder.resolve now (JLSDecoder.mk i (o :: rest))
   = JLSDecoder.DecodeFailed JLSDecoder.NegativeWithoutWidth) /\
  (BitString.toUnsigned v mod 32 < 31 ->
   exists o',
     JLSDecoder.resolve now (JLSDecoder.mk i (o :: rest))
     = JLSDecoder.Decoded (JLSDecoder.mk i (o' :: rest)) /\
     CircuitBus.getValue o' =
     Some (true :: replicate (Z.to_nat (BitString.toUnsigned v mod 32)) false) /\
     CircuitBus.getWidth o' = CircuitBus.getWidth o /\
     (CircuitBus.getValue o <> CircuitBus.getValue o' ->
      CircuitBus.getLastUpdate o' = Z.of_nat (CircuitBus.getWidth i))).
Proof.
  intros Hv _. unfold JLSDecoder.resolve.
  cbn [JLSDecoder.input JLSDecoder.output]. rewrite Hv. cbv zeta.
  pose proof (Z.mod_pos_bound (BitString.toUnsigned v) 32 ltac:(lia)) as Hn.
  unfold JLSDecoder.shiftLeftOne. cbv zeta.
  set (n := BitString.toUnsigned v mod 32) in *. clearbody n.
  rewrite Z.shiftl_1_l.
  destruct (decide (n = 31)) as [->|Hne].
  - split; [split; [intros _|]; reflexivity|intros; lia].
  - assert (Hlt : 2 ^ n < 2 ^ 31) by (apply Z.pow_lt_mono_r; lia).
    assert (Hpos : 0 < 2 ^ n) by (apply Z.pow_pos_nonneg; lia).
    replace (2 ^ n >=? 2 ^ 31) with false by (symmetry; bool_lia).
    unfold JLSDecoder.makeShortest.
    replace (2 ^ n <? 0) with false by (symmetry; bool_lia).
    rewrite Z.log2_pow2 by lia.
    replace (Z.to_nat (n + 1)) with (S (Z.to_nat n)) by lia.
    replace (2 ^ n) with (2 ^ Z.of_nat (Z.to_nat n)) by (f_equal; lia).
    rewrite make_power_of_two.
    split; [split; [lia|discriminate]|].
    intros _. eexists. split; [reflexivity|].
    split; [apply setValue_value|]. split; [apply setValue_width|].
    unfold CircuitBus.setValue, CircuitBus.getValue, CircuitBus.getLastUpdate.
    destruct (decide (CircuitBus.value o = _)) as [Heq|Hneq]; [|reflexivity].
    intros Hch. exfalso. apply Hch. reflexivity.
Qed.

Lemma JLSDecoder_resolve_one_hot_witness :
  (BitString.toUnsigned (Examples.bits "10") mod 32 = 31 <->
   JLSDecoder.resolve 7 (JLSDecoder.mk decoderInput [CircuitBus.new 4])
   = JLSDecoder.DecodeFailed JLSDecoder.NegativeWithoutWidth) /\
  (BitString.toUnsigned (Examples.bits "10") mod 32 < 31 ->
   exists o',
     JLSDecoder.resolve 7 (JLSDecoder.mk decoderInput [CircuitBus.new 4])
     = JLSDecoder.Decoded (JLSDecoder.mk decoderInput [o']) /\
     CircuitBus.getValue o' =
     Some (true :: replicate (Z.to_nat (BitString.toUnsigned (Examples.bits "10") mod 32))
                             false) /\
     CircuitBus.getWidth o' = CircuitBus.getWidth (CircuitBus.new 4) /\
     (CircuitBus.getValue (CircuitBus.new 4) <> CircuitBus.getValue o' ->
      CircuitBus.getLastUpdate o' = Z.of_nat (CircuitBus.getWidth decoderInput))).
Proof.
  apply (JLSDecoder_resolve_one_hot 7 decoderInput (CircuitBus.new 4) []
           (Examples.bits "10")); [reflexivity|vm_compute; lia].
Defined.
